(** * StyleSetEvaluator: a shallow embedding of
      [@here/harp-datasource-protocol/lib/StyleSetEvaluator.ts]

    The evaluator turns a tree of style rules and a feature environment into
    the list of techniques that apply to the feature.  The development follows
    the TypeScript class member by member:

    - the constructor ([cloneStyle], [computeDefaultRenderOrder]);
    - [getMatchingTechniques] and the recursive [processStyle];
    - [checkStyleDynamicAttributes], [evaluateTechniqueProperties],
      [createTechnique], [makeCacheKey] and [makeDecodedTechnique].

    JavaScript objects that are used as property bags ([technique], the
    [_dynamicTechniques] map, [m_renderOrderBiasGroups]) are finite maps;
    arrays are lists.  The numbers the constructor computes with (render
    orders and the bounds of bias ranges) are binary64 numbers, with the
    Standard Library's specification of IEEE 754 arithmetic; positions in
    arrays are natural numbers.  Mutation of a style object is rendered by
    returning the updated object; exceptions are an explicit [Outcome]. *)

From Stdlib Require Import ZArith Lia Sorted DecimalString SpecFloat.
From stdpp Require Import base option list strings gmap fin_maps pretty.

Set Warnings "-register-all".

Local Open Scope string_scope.
Local Open Scope list_scope.
Local Open Scope Z_scope.

(** ** Exceptions *)

Inductive Outcome (E A : Type) : Type :=
| Ret (a : A)
| Throw (e : E).
Arguments Ret {E A} a.
Arguments Throw {E A} e.

Definition isThrow {E A} (o : Outcome E A) : bool :=
  match o with Throw _ => true | Ret _ => false end.

(** The value a computation returned, or [d] if it threw. *)
Definition returned {E A} (d : A) (o : Outcome E A) : A :=
  match o with Ret a => a | Throw _ => d end.

(** ** Numbers

    A JavaScript number is a binary64 floating-point number: [spec_float]
    with a precision of 53 bits and the exponent bound 1024.  The
    arithmetic is that of IEEE 754 with rounding to nearest, ties to
    even. *)

Definition prec : Z := 53.
Definition emax : Z := 1024.

Abbreviation number := spec_float.

#[global] Instance number_eq_dec : EqDecision number.
Proof. solve_decision. Defined.

(** The number an integer literal denotes: the integer rounded to the
    nearest binary64 number. *)
Definition ofZ (z : Z) : number := binary_normalize prec emax z 0 false.

(** [x + y] *)
Definition add (x y : number) : number := SFadd prec emax x y.

(** [x < y] *)
Definition lt (x y : number) : bool := SFltb x y.

(** [Math.abs(x)] *)
Definition Math_abs (x : number) : number := SFabs x.

(** Truthiness of a number: zero of either sign and NaN are falsy. *)
Definition ToBoolean (x : number) : bool :=
  match x with
  | S754_zero _ | S754_nan => false
  | _ => true
  end.

(** The integer a number is, if it is an integer below [2^53] in absolute
    value (and not the negative zero). *)
Definition toInteger (x : number) : option Z :=
  match x with
  | S754_zero false => Some 0
  | S754_finite s m e =>
      let z := cond_Zopp s (Z.shiftl (Zpos m) e) in
      if bool_decide (ofZ z = x) && (Z.abs z <? 2 ^ 53) then Some z
      else None
  | _ => None
  end.

(** ** Values of the expression language ([Value] in Expr.ts)

    [Value = null | boolean | number | string | object]; the object case is
    kept abstract.  A number is given by [VNum] when it is an integer and
    by [VDouble] otherwise. *)

Inductive Value (JsonObject : Type) : Type :=
| VNull
| VBool (b : bool)
| VNum (n : Z)
| VDouble (x : number)
| VStr (s : string)
| VObject (o : JsonObject).
Arguments VNull {JsonObject}.
Arguments VBool {JsonObject} b.
Arguments VNum {JsonObject} n.
Arguments VDouble {JsonObject} x.
Arguments VStr {JsonObject} s.
Arguments VObject {JsonObject} o.

(** A number as a value. *)
Definition numberValue {JsonObject} (x : number) : Value JsonObject :=
  match toInteger x with
  | Some z => VNum z
  | None => VDouble x
  end.

(** JavaScript truthiness of an evaluation result ([None] is [undefined]). *)
Definition truthy {JsonObject} (v : option (Value JsonObject)) : bool :=
  match v with
  | None => false
  | Some VNull => false
  | Some (VBool b) => b
  | Some (VNum n) => negb (Z.eqb n 0)
  | Some (VDouble x) => ToBoolean x
  | Some (VStr s) => negb (String.eqb s "")
  | Some (VObject _) => true
  end.

(** [TechniqueAttrType] of TechniqueDescriptor.ts, as far as
    [checkStyleDynamicAttributes] distinguishes its members: the three named
    cases of its [switch] statements and everything else ([default]). *)
Inductive TechniqueAttrType : Type :=
| Feature
| Technique
| DynamicMaterial
| OtherAttrType.

(** ** Collaborators that live in other modules

    Expr.ts, InterpolatedProperty.ts and the [techniqueAttrType] lookup of
    TechniqueDescriptor.ts are not part of StyleSetEvaluator.ts; the
    evaluator only calls them.  They are the members of one interface, and
    the whole development is parametric in an implementation of it. *)
Class Collaborators : Type := {
  JsonObject : Type;
  JsonExpr : Type;
  Expr : Type;
  ExprError : Type;
  MapEnv : Type;
  InterpolatedPropertyDefinition : Type;
  InterpolatedProperty : Type;
  (** [Expr.fromJSON(j).intern(pool)] and [Expr.parse(s).intern(pool)]:
      interning returns the canonical instance of a structurally equal
      expression, which is the same value here. *)
  Expr_fromJSON : JsonExpr -> Outcome ExprError Expr;
  Expr_parse : string -> Outcome ExprError Expr;
  (** [expr.evaluate(env, cache)].  The cache is [m_cachedResults], which
      [getMatchingTechniques] clears on entry and which only remembers
      results for the environment of the running call; evaluation is a
      function of the expression and the environment. *)
  evaluate : Expr -> MapEnv -> Outcome ExprError (option (Value JsonObject));
  createInterpolatedProperty :
    InterpolatedPropertyDefinition -> option InterpolatedProperty;
  (** [techniqueAttrType(attrName, techniqueDescriptors[technique] ||
      emptyTechniqueDescriptor)], as a function of the attribute name and
      of [style.technique]. *)
  techniqueAttrType : string -> option string -> TechniqueAttrType;
  (** [JSON.stringify] on an evaluated attribute value. *)
  JSON_stringify : Value JsonObject -> string
}.

Abbreviation Val := (Value JsonObject).

Section Evaluator.

Context {collaborators : Collaborators}.

(** ** Style declarations (Theme.ts) *)

(** [style.when] is either the string shorthand or a JSON expression. *)
Inductive WhenDecl : Type :=
| WhenString (s : string)
| WhenJson (j : JsonExpr).

(** An attribute as written in the theme.  [processAttribute] tests
    [isJsonExpr] first, then [isInterpolatedPropertyDefinition], and treats
    everything else as a static value. *)
Inductive AttrDecl : Type :=
| AttrValue (v : Val)
| AttrJsonExpr (j : JsonExpr)
| AttrInterpolated (d : InterpolatedPropertyDefinition).

(** The declared part of a style rule ([Style & StyleSelector]) without its
    nested [styles].  [attr] lists the own properties of the [attr] object in
    enumeration order. *)
Record Style : Type := mkStyle {
  when : option WhenDecl;
  technique : option string;
  final : option bool;
  renderOrder : option number;
  renderOrderOffset : option number;
  labelProperty : option string;
  secondaryRenderOrder : option number;
  attr : option (list (string * AttrDecl));
  renderOrderBiasGroup : option string;
  renderOrderBiasRange : option (number * number)
}.

Definition set_renderOrder (r : option number) (s : Style) : Style :=
  mkStyle (when s) (technique s) (final s) r (renderOrderOffset s)
          (labelProperty s) (secondaryRenderOrder s) (attr s)
          (renderOrderBiasGroup s) (renderOrderBiasRange s).

(** A [StyleDeclaration] is a style or a reference [["ref", name]]. *)
Inductive StyleDeclaration : Type :=
| Reference (name : string)
| Declared (s : Style) (styles : option (list StyleDeclaration)).

(** ** Techniques *)

(** The value of one property of a technique object. *)
Inductive PropValue : Type :=
| PUndefined
| PValue (v : Val)
| PExpr (e : Expr)
| PInterpolated (p : InterpolatedProperty).

(** [attrValue instanceof Expr] *)
Definition instanceofExpr (v : PropValue) : bool :=
  match v with PExpr _ => true | _ => false end.

(** An [IndexedTechnique] is a plain object: its own properties. *)
Abbreviation IndexedTechnique := (gmap string PropValue).

(** [Expr | InterpolatedProperty], the element type of the feature and
    forwarded attribute lists. *)
Inductive DynamicAttr : Type :=
| DynExpr (e : Expr)
| DynInterpolated (p : InterpolatedProperty).

Definition propOfDynamic (d : DynamicAttr) : PropValue :=
  match d with DynExpr e => PExpr e | DynInterpolated p => PInterpolated p end.

(** ** [StyleInternalParams] *)

Record StyleInternalParams : Type := mkParams {
  _whenExpr : option Expr;
  _staticAttributes : option (list (string * Val));
  _dynamicTechniqueAttributes : option (list (string * Expr));
  _dynamicFeatureAttributes : option (list (string * DynamicAttr));
  _dynamicForwaredAttributes : option (list (string * DynamicAttr));
  _dynamicTechniques : option (gmap string IndexedTechnique);
  _staticTechnique : option IndexedTechnique;
  _styleSetIndex : option nat
}.

Definition noParams : StyleInternalParams :=
  mkParams None None None None None None None None.

Definition set_whenExpr (e : Expr) (p : StyleInternalParams) :=
  mkParams (Some e) (_staticAttributes p) (_dynamicTechniqueAttributes p)
           (_dynamicFeatureAttributes p) (_dynamicForwaredAttributes p)
           (_dynamicTechniques p) (_staticTechnique p) (_styleSetIndex p).

Definition set_styleSetIndex (i : nat) (p : StyleInternalParams) :=
  mkParams (_whenExpr p) (_staticAttributes p) (_dynamicTechniqueAttributes p)
           (_dynamicFeatureAttributes p) (_dynamicForwaredAttributes p)
           (_dynamicTechniques p) (_staticTechnique p) (Some i).

Definition set_dynamicTechniques (m : gmap string IndexedTechnique)
    (p : StyleInternalParams) :=
  mkParams (_whenExpr p) (_staticAttributes p) (_dynamicTechniqueAttributes p)
           (_dynamicFeatureAttributes p) (_dynamicForwaredAttributes p)
           (Some m) (_staticTechnique p) (_styleSetIndex p).

Definition set_staticTechnique (t : IndexedTechnique)
    (p : StyleInternalParams) :=
  mkParams (_whenExpr p) (_staticAttributes p) (_dynamicTechniqueAttributes p)
           (_dynamicFeatureAttributes p) (_dynamicForwaredAttributes p)
           (_dynamicTechniques p) (Some t) (_styleSetIndex p).

(** [InternalStyle = Style & StyleSelector & StyleInternalParams], with the
    nested [styles] ([None] is [undefined]: the rule is a leaf). *)
Inductive InternalStyle : Type :=
| IStyle (s : Style) (p : StyleInternalParams)
         (styles : option (list InternalStyle)).

Definition decl (x : InternalStyle) : Style :=
  match x with IStyle s _ _ => s end.
Definition params (x : InternalStyle) : StyleInternalParams :=
  match x with IStyle _ p _ => p end.
Definition styles (x : InternalStyle) : option (list InternalStyle) :=
  match x with IStyle _ _ l => l end.

(** ** The constructor *)

(** [cloneStyle]: a reference clones to [undefined] ([None]); nested
    references are filtered out of [styles]. *)
Fixpoint cloneStyle (style : StyleDeclaration) : option InternalStyle :=
  match style with
  | Reference _ => None
  | Declared s sub =>
      Some (IStyle s noParams
              match sub with
              | Some l => Some (omap cloneStyle l)
              | None => None
              end)
  end.

(** The variables the constructor closes over: the two counters, the
    [m_renderOrderBiasGroups] map, and the styles [logger.warn] was called
    with. *)
Record CtorState : Type := mkCtor {
  techniqueRenderOrder : number;
  styleSetIndex : nat;
  renderOrderBiasGroups : gmap string number;
  warned : list Style
}.

(** [if (style.renderOrder !== undefined) logger.warn(...)] *)
Definition warnOverridden (s : Style) (w : list Style) : list Style :=
  match renderOrder s with Some _ => w ++ [s] | None => w end.

(** Truthiness of a string: [style.renderOrderBiasGroup ? ... : ...]. *)
Definition nonEmpty (g : string) : bool := negb (String.eqb g "").

(** The first [if] of [computeDefaultRenderOrder]
    ([style.renderOrderBiasGroup !== undefined]). *)
Definition applyRenderOrderBias (s : Style) (c : CtorState)
    : Style * CtorState :=
  match renderOrderBiasGroup s with
  | None => (s, c)
  | Some g =>
      let renderOrderBiasGroupOrder :=
        if nonEmpty g then renderOrderBiasGroups c !! g else None in
      match renderOrderBiasRange s, renderOrderBiasGroupOrder with
      | Some (minRange, maxRange), None =>
          let r := if lt minRange (ofZ 0)
                   then add (techniqueRenderOrder c) (Math_abs minRange)
                   else techniqueRenderOrder c in
          (set_renderOrder (Some r) s,
           mkCtor (add (add (techniqueRenderOrder c)
                          (add (Math_abs minRange) maxRange))
                       (ofZ 1))
                  (styleSetIndex c)
                  (if nonEmpty g then <[g := r]> (renderOrderBiasGroups c)
                   else renderOrderBiasGroups c)
                  (warnOverridden s (warned c)))
      | _, Some o =>
          (* [else if (renderOrderBiasGroupOrder)]: a number is truthy
             unless it is zero or NaN *)
          if ToBoolean o
          then (set_renderOrder (Some o) s,
                mkCtor (techniqueRenderOrder c) (styleSetIndex c)
                       (renderOrderBiasGroups c)
                       (warnOverridden s (warned c)))
          else (s, c)
      | None, None => (s, c)
      end
  end.

(** The [else] branch of the search through child styles: the rule is a
    leaf. *)
Definition assignLeaf (s : Style) (p : StyleInternalParams) (c : CtorState)
    : Style * StyleInternalParams * CtorState :=
  let p1 := set_styleSetIndex (styleSetIndex c) p in
  match technique s, renderOrder s with
  | Some _, None =>
      (set_renderOrder (Some (techniqueRenderOrder c)) s, p1,
       mkCtor (add (techniqueRenderOrder c) (ofZ 1)) (S (styleSetIndex c))
              (renderOrderBiasGroups c) (warned c))
  | _, _ =>
      (s, p1,
       mkCtor (techniqueRenderOrder c) (S (styleSetIndex c))
              (renderOrderBiasGroups c) (warned c))
  end.

(** A [for ... of] loop whose body updates the element and a state. *)
Definition forEach {A S : Type} (body : A -> S -> A * S)
    : list A -> S -> list A * S :=
  fix loop (l : list A) (c : S) : list A * S :=
    match l with
    | [] => ([], c)
    | x :: rest =>
        let '(x', c1) := body x c in
        let '(rest', c2) := loop rest c1 in
        (x' :: rest', c2)
    end.

Fixpoint computeDefaultRenderOrder (style : InternalStyle) (c : CtorState)
    : InternalStyle * CtorState :=
  match style with
  | IStyle s p sub =>
      let '(s1, c1) := applyRenderOrderBias s c in
      match sub with
      | Some l =>
          let '(l', c2) := forEach computeDefaultRenderOrder l c1 in
          (IStyle s1 p (Some l'), c2)
      | None =>
          let '(s2, p2, c2) := assignLeaf s1 p c1 in
          (IStyle s2 p2 None, c2)
      end
  end.

Record StyleSetEvaluator : Type := mkEvaluator {
  styleSet : list InternalStyle;
  m_renderOrderBiasGroups : gmap string number;
  m_techniques : list IndexedTechnique
}.

Definition initialCtor : CtorState := mkCtor (ofZ 0) 0 ∅ [].

(** [new StyleSetEvaluator(styleSet)].  The top-level [map] does not filter:
    a reference at the top level is cloned to [undefined] and
    [computeDefaultRenderOrder] then fails on reading a property of it, so no
    evaluator is built ([None]). *)
Definition new_StyleSetEvaluator (input : list StyleDeclaration)
    : option StyleSetEvaluator :=
  match mapM cloneStyle input with
  | None => None
  | Some cloned =>
      let '(tree, c) := forEach computeDefaultRenderOrder cloned initialCtor in
      Some (mkEvaluator tree (renderOrderBiasGroups c) [])
  end.

(** ** Technique creation and caching *)

(** [makeCacheKey(...elements)]: [elements.map(String).join(":")], at its
    only call site [makeCacheKey(style._styleSetIndex!, dynamicAttrKey)]. *)
Definition makeCacheKey (index : option nat) (dynamicAttrKey : string)
    : string :=
  String.concat ":"
    [match index with Some i => pretty i | None => "undefined" end;
     dynamicAttrKey].

(** The key built from the evaluated attributes: ["U"] for [undefined],
    [JSON.stringify] otherwise, joined with a NUL character. *)
Definition dynamicAttrKey (dynamicAttributes : list (string * option Val))
    : string :=
  String.concat (String Ascii.zero "")
    (map (fun a => match a.2 with
                   | None => "U"
                   | Some v => JSON_stringify v
                   end) dynamicAttributes).

(** The four arrays [checkStyleDynamicAttributes] fills. *)
Record AttrLists : Type := mkLists {
  staticAttributes : list (string * Val);
  dynamicTechniqueAttributes : list (string * Expr);
  dynamicFeatureAttributes : list (string * DynamicAttr);
  dynamicForwardedAttributes : list (string * DynamicAttr)
}.

Definition noLists : AttrLists := mkLists [] [] [] [].

(** The style holds the very arrays that are being filled. *)
Definition set_attrLists (a : AttrLists) (p : StyleInternalParams) :=
  mkParams (_whenExpr p) (Some (staticAttributes a))
           (Some (dynamicTechniqueAttributes a))
           (Some (dynamicFeatureAttributes a))
           (Some (dynamicForwardedAttributes a))
           (_dynamicTechniques p) (_staticTechnique p) (_styleSetIndex p).

(** [processAttribute(attrName, attrValue)] for a defined [attrValue]. *)
Definition processAttribute (tech : option string) (a : AttrLists)
    (attrName : string) (attrValue : AttrDecl)
    : AttrLists * Outcome ExprError unit :=
  let attrType := techniqueAttrType attrName tech in
  match attrValue with
  | AttrJsonExpr j =>
      match Expr_fromJSON j with
      | Throw err => (a, Throw err)
      | Ret expr =>
          match attrType with
          | Feature =>
              (mkLists (staticAttributes a) (dynamicTechniqueAttributes a)
                 (dynamicFeatureAttributes a ++ [(attrName, DynExpr expr)])
                 (dynamicForwardedAttributes a), Ret tt)
          | Technique =>
              (mkLists (staticAttributes a)
                 (dynamicTechniqueAttributes a ++ [(attrName, expr)])
                 (dynamicFeatureAttributes a)
                 (dynamicForwardedAttributes a), Ret tt)
          | _ => (a, Ret tt)
          end
      end
  | AttrInterpolated d =>
      match createInterpolatedProperty d with
      | None => (a, Ret tt)
      | Some interpolatedProperty =>
          match attrType with
          | Feature =>
              (mkLists (staticAttributes a) (dynamicTechniqueAttributes a)
                 (dynamicFeatureAttributes a
                    ++ [(attrName, DynInterpolated interpolatedProperty)])
                 (dynamicForwardedAttributes a), Ret tt)
          | DynamicMaterial | Technique =>
              (mkLists (staticAttributes a) (dynamicTechniqueAttributes a)
                 (dynamicFeatureAttributes a)
                 (dynamicForwardedAttributes a
                    ++ [(attrName, DynInterpolated interpolatedProperty)]),
               Ret tt)
          | OtherAttrType => (a, Ret tt)
          end
      end
  | AttrValue v =>
      (mkLists (staticAttributes a ++ [(attrName, v)])
         (dynamicTechniqueAttributes a) (dynamicFeatureAttributes a)
         (dynamicForwardedAttributes a), Ret tt)
  end.

(** A field that may be [undefined]: [processAttribute] returns at once
    for [undefined]. *)
Definition declared (attrName : string) (v : option AttrDecl)
    : list (string * AttrDecl) :=
  match v with Some d => [(attrName, d)] | None => [] end.

(** The calls [processAttributes(style2)] makes, in order, without those
    whose value is [undefined]. *)
Definition styleAttributes (style2 : Style) : list (string * AttrDecl) :=
  declared "renderOrder" (AttrValue ∘ numberValue <$> renderOrder style2)
  ++ declared "renderOrderOffset"
       (AttrValue ∘ numberValue <$> renderOrderOffset style2)
  ++ declared "label" (AttrValue ∘ VStr <$> labelProperty style2)
  ++ declared "secondaryRenderOrder"
       (AttrValue ∘ numberValue <$> secondaryRenderOrder style2)
  ++ default [] (attr style2).

(** The attribute declarations of the ancestors, outermost first, and of
    the rule itself. *)
Definition chainAttributes (styleStack : list Style) (style : Style)
    : list (string * AttrDecl) :=
  concat (map styleAttributes styleStack) ++ styleAttributes style.

(** Run [processAttribute] over the declarations until one throws. *)
Fixpoint processAttributes (tech : option string)
    (decls : list (string * AttrDecl)) (a : AttrLists)
    : AttrLists * Outcome ExprError unit :=
  match decls with
  | [] => (a, Ret tt)
  | (attrName, attrValue) :: rest =>
      match processAttribute tech a attrName attrValue with
      | (a1, Ret _) => processAttributes tech rest a1
      | (a1, Throw err) => (a1, Throw err)
      end
  end.

Definition isNone_technique (t : option string) : bool :=
  match t with Some n => String.eqb n "none" | None => false end.

Definition checkStyleDynamicAttributes (s : Style) (p : StyleInternalParams)
    (styleStack : list Style)
    : StyleInternalParams * Outcome ExprError unit :=
  match _dynamicTechniqueAttributes p with
  | Some _ => (p, Ret tt)
  | None =>
      if isNone_technique (technique s) then (p, Ret tt)
      else
        match processAttributes (technique s)
                (chainAttributes styleStack s) noLists with
        | (a, Throw err) => (set_attrLists a p, Throw err)
        | (a, Ret _) =>
            let p1 := set_attrLists a p in
            (match dynamicTechniqueAttributes a with
             | [] => p1
             | _ :: _ => set_dynamicTechniques ∅ p1
             end, Ret tt)
        end
  end.

(** [Array.prototype.map] with a callback that may throw. *)
Fixpoint mapOutcome {A B : Type} (f : A -> Outcome ExprError B)
    (l : list A) : Outcome ExprError (list B) :=
  match l with
  | [] => Ret []
  | x :: rest =>
      match f x with
      | Throw err => Throw err
      | Ret y =>
          match mapOutcome f rest with
          | Throw err => Throw err
          | Ret ys => Ret (y :: ys)
          end
      end
  end.

Definition evaluateTechniqueProperties (p : StyleInternalParams)
    (env : MapEnv) : Outcome ExprError (list (string * option Val)) :=
  match _dynamicTechniqueAttributes p with
  | None => Ret []
  | Some l =>
      mapOutcome (fun a => match evaluate a.2 env with
                           | Ret evaluatedValue => Ret (a.1, evaluatedValue)
                           | Throw err => Throw err
                           end) l
  end.

(** [technique[attrName] = attrValue] over a list of pairs. *)
Definition assignAll {A : Type} (f : A -> PropValue)
    (l : list (string * A)) (t : IndexedTechnique) : IndexedTechnique :=
  foldl (fun t a => <[a.1 := f a.2]> t) t l.

Definition propOfOption (v : option Val) : PropValue :=
  match v with Some x => PValue x | None => PUndefined end.

(** The forwarded attributes that are not [Expr] instances. *)
Definition forwardable (l : list (string * DynamicAttr))
    : list (string * DynamicAttr) :=
  filter (fun a => instanceofExpr (propOfDynamic a.2) = false) l.

(** The technique object [createTechnique] builds, before it is pushed. *)
Definition buildTechnique (s : Style) (p : StyleInternalParams)
    (dynamicAttrs : list (string * option Val)) (index : nat)
    : IndexedTechnique :=
  let t0 : IndexedTechnique :=
    <["name" := propOfOption (VStr <$> technique s)]> ∅ in
  let t1 := assignAll PValue (default [] (_staticAttributes p)) t0 in
  let t2 := assignAll propOfOption dynamicAttrs t1 in
  let t3 := assignAll propOfDynamic
              (default [] (_dynamicFeatureAttributes p)) t2 in
  let t4 := assignAll propOfDynamic
              (forwardable (default [] (_dynamicForwaredAttributes p))) t3 in
  let t5 := <["_index" := PValue (VNum (Z.of_nat index))]> t4 in
  <["_styleSetIndex" :=
      propOfOption (VNum ∘ Z.of_nat <$> _styleSetIndex p)]> t5.

(** [createTechnique(style, dynamicAttrs)]: returns the technique and the
    new [m_techniques]. *)
Definition createTechnique (s : Style) (p : StyleInternalParams)
    (dynamicAttrs : list (string * option Val))
    (techniques : list IndexedTechnique)
    : IndexedTechnique * list IndexedTechnique :=
  let t := buildTechnique s p dynamicAttrs (length techniques) in
  (t, techniques ++ [t]).

(** ** Matching *)

(** What [logger.log] is called with in the [catch] block. *)
Inductive LogEntry : Type :=
| FailedToEvaluate (w : WhenDecl) (err : ExprError).

(** The state a walk works on: [this.m_techniques], the [result] array and
    the entries logged so far. *)
Record WalkState : Type := mkWalk {
  w_techniques : list IndexedTechnique;
  w_result : list IndexedTechnique;
  w_log : list LogEntry
}.

Definition pushResult (t : IndexedTechnique) (st : WalkState) : WalkState :=
  mkWalk (w_techniques st) (w_result st ++ [t]) (w_log st).

Definition logFailure (e : LogEntry) (st : WalkState) : WalkState :=
  mkWalk (w_techniques st) (w_result st) (w_log st ++ [e]).

(** [Expr.fromJSON(style.when)] for an array, [Expr.parse(style.when)]
    for a string. *)
Definition compileWhen (w : WhenDecl) : Outcome ExprError Expr :=
  match w with
  | WhenJson j => Expr_fromJSON j
  | WhenString str => Expr_parse str
  end.

(** The body of the [try] block: compile on first use, then evaluate.
    [Ret b] tells whether the condition holds; [Throw] is a jump to the
    [catch] block. *)
Definition tryWhen (env : MapEnv) (w : WhenDecl) (p : StyleInternalParams)
    : StyleInternalParams * Outcome ExprError bool :=
  match _whenExpr p with
  | Some e =>
      match evaluate e env with
      | Ret v => (p, Ret (truthy v))
      | Throw err => (p, Throw err)
      end
  | None =>
      match compileWhen w with
      | Throw err => (p, Throw err)
      | Ret e =>
          match evaluate e env with
          | Ret v => (set_whenExpr e p, Ret (truthy v))
          | Throw err => (set_whenExpr e p, Throw err)
          end
      end
  end.

(** [if (style.when !== undefined) { try ... catch ... }]; the boolean
    tells whether [processStyle] goes on ([false]: it returned [false]). *)
Definition checkWhen (env : MapEnv) (s : Style) (p : StyleInternalParams)
    (st : WalkState) : StyleInternalParams * WalkState * bool :=
  match when s with
  | None => (p, st, true)
  | Some w =>
      match tryWhen env w p with
      | (p1, Ret b) => (p1, st, b)
      | (p1, Throw err) => (p1, logFailure (FailedToEvaluate w err) st, false)
      end
  end.

(** The block under [if (style.technique !== "none")]. *)
Definition applyTechnique (env : MapEnv) (s : Style)
    (p : StyleInternalParams) (styleStack : list Style) (st : WalkState)
    : StyleInternalParams * WalkState * Outcome ExprError unit :=
  match checkStyleDynamicAttributes s p styleStack with
  | (p1, Throw err) => (p1, st, Throw err)
  | (p1, Ret _) =>
      match _dynamicTechniques p1 with
      | Some cache =>
          match evaluateTechniqueProperties p1 env with
          | Throw err => (p1, st, Throw err)
          | Ret dynamicAttributes =>
              let key := makeCacheKey (_styleSetIndex p1)
                           (dynamicAttrKey dynamicAttributes) in
              match cache !! key with
              | Some technique => (p1, pushResult technique st, Ret tt)
              | None =>
                  let '(technique, ts) :=
                    createTechnique s p1 dynamicAttributes
                      (w_techniques st) in
                  (set_dynamicTechniques (<[key := technique]> cache) p1,
                   mkWalk ts (w_result st ++ [technique]) (w_log st),
                   Ret tt)
              end
          end
      | None =>
          match _staticTechnique p1 with
          | Some technique => (p1, pushResult technique st, Ret tt)
          | None =>
              let '(technique, ts) :=
                createTechnique s p1 [] (w_techniques st) in
              (set_staticTechnique technique p1,
               mkWalk ts (w_result st ++ [technique]) (w_log st),
               Ret tt)
          end
      end
  end.

(** [style.final === true] *)
Definition isFinal (s : Style) : bool :=
  match final s with Some true => true | _ => false end.

(** A [for ... of] loop that stops as soon as its body returns [true] (or
    throws); the elements after that one are not touched. *)
Definition untilTrue {A S E : Type} (body : A -> S -> A * S * Outcome E bool)
    : list A -> S -> list A * S * Outcome E bool :=
  fix loop (l : list A) (st : S) : list A * S * Outcome E bool :=
    match l with
    | [] => ([], st, Ret false)
    | x :: rest =>
        match body x st with
        | (x', st1, Ret false) =>
            let '(rest', st2, o) := loop rest st1 in (x' :: rest', st2, o)
        | (x', st1, o) => (x' :: rest, st1, o)
        end
    end.

(** [processStyle(env, styleStack, style, result)].  The stack is handed
    down by value: every [push] is undone by a [pop] before [processStyle]
    returns, and only the declared attributes of the styles on it are ever
    read. *)
Fixpoint processStyle (env : MapEnv) (styleStack : list Style)
    (style : InternalStyle) (st : WalkState)
    : InternalStyle * WalkState * Outcome ExprError bool :=
  match style with
  | IStyle s p sub =>
      match checkWhen env s p st with
      | (p1, st1, false) => (IStyle s p1 sub, st1, Ret false)
      | (p1, st1, true) =>
          match sub with
          | Some l =>
              let '(l', st2, o) :=
                untilTrue (processStyle env (styleStack ++ [s])) l st1 in
              (IStyle s p1 (Some l'), st2, o)
          | None =>
              match technique s with
              | None => (IStyle s p1 None, st1, Ret false)
              | Some _ =>
                  if isNone_technique (technique s)
                  then (IStyle s p1 None, st1, Ret (isFinal s))
                  else
                    match applyTechnique env s p1 styleStack st1 with
                    | (p2, st2, Throw err) =>
                        (IStyle s p2 None, st2, Throw err)
                    | (p2, st2, Ret _) =>
                        (IStyle s p2 None, st2, Ret (isFinal s))
                    end
              end
          end
      end
  end.

(** The loop of [getMatchingTechniques] over [this.styleSet]; it differs
    from the loop over nested styles only in that it starts from an empty
    stack. *)
Definition processStyles (env : MapEnv) (styleStack : list Style)
    : list InternalStyle -> WalkState
      -> list InternalStyle * WalkState * Outcome ExprError bool :=
  untilTrue (processStyle env styleStack).

(** [getMatchingTechniques(env)]: the evaluator after the call, what the
    call logged, and the returned array or the exception that escaped. *)
Definition getMatchingTechniques (env : MapEnv) (ev : StyleSetEvaluator)
    : StyleSetEvaluator * list LogEntry
      * Outcome ExprError (list IndexedTechnique) :=
  let '(tree, st, o) :=
    processStyles env [] (styleSet ev) (mkWalk (m_techniques ev) [] []) in
  (mkEvaluator tree (m_renderOrderBiasGroups ev) (w_techniques st),
   w_log st,
   match o with
   | Ret _ => Ret (w_result st)
   | Throw err => Throw err
   end).

(** The [techniques] getter. *)
Definition techniques (ev : StyleSetEvaluator) : list IndexedTechnique :=
  m_techniques ev.

(** The body of the [for ... in] loop of [makeDecodedTechnique] for one own
    property [a] of the technique. *)
Definition decodeStep (result : gmap string PropValue)
    (a : string * PropValue) : gmap string PropValue :=
  if instanceofExpr a.2 then result else <[a.1 := a.2]> result.

(** [makeDecodedTechnique(technique)]: the loop over the own enumerable
    properties. *)
Definition makeDecodedTechnique (technique : IndexedTechnique)
    : gmap string PropValue :=
  foldl decodeStep ∅ (map_to_list technique).

(** The [decodedTechniques] getter. *)
Definition decodedTechniques (ev : StyleSetEvaluator)
    : list (gmap string PropValue) :=
  map makeDecodedTechnique (m_techniques ev).

(** ** Readers of technique objects (Techniques.ts, TechniqueAttr.ts)

    The functions below take the technique objects the evaluator creates.
    A property that is absent reads as [undefined]. *)

Definition getProperty (technique : IndexedTechnique) (key : string)
    : PropValue :=
  default PUndefined (technique !! key).

(** [value === str] for a string literal [str]. *)
Definition isString (str : string) (value : PropValue) : bool :=
  match value with
  | PValue (VStr s) => String.eqb s str
  | _ => false
  end.

(** The type guards: [technique.name === "..."]. *)
Definition isCirclesTechnique (technique : IndexedTechnique) : bool :=
  isString "circles" (getProperty technique "name").
Definition isSquaresTechnique (technique : IndexedTechnique) : bool :=
  isString "squares" (getProperty technique "name").
Definition isPoiTechnique (technique : IndexedTechnique) : bool :=
  isString "labeled-icon" (getProperty technique "name").
Definition isLineMarkerTechnique (technique : IndexedTechnique) : bool :=
  isString "line-marker" (getProperty technique "name").
Definition isDashedLineTechnique (technique : IndexedTechnique) : bool :=
  isString "dashed-line" (getProperty technique "name").
Definition isLineTechnique (technique : IndexedTechnique) : bool :=
  isString "line" (getProperty technique "name").
Definition isSolidLineTechnique (technique : IndexedTechnique) : bool :=
  isString "solid-line" (getProperty technique "name").
Definition isSegmentsTechnique (technique : IndexedTechnique) : bool :=
  isString "segments" (getProperty technique "name").
Definition isExtrudedLineTechnique (technique : IndexedTechnique) : bool :=
  isString "extruded-line" (getProperty technique "name").
Definition isBasicExtrudedLineTechnique (technique : IndexedTechnique)
    : bool :=
  isExtrudedLineTechnique technique
  && isString "basic" (getProperty technique "shading").
Definition isStandardExtrudedLineTechnique (technique : IndexedTechnique)
    : bool :=
  isExtrudedLineTechnique technique
  && isString "standard" (getProperty technique "shading").
Definition isFillTechnique (technique : IndexedTechnique) : bool :=
  isString "fill" (getProperty technique "name").
Definition isExtrudedPolygonTechnique (technique : IndexedTechnique) : bool :=
  isString "extruded-polygon" (getProperty technique "name").
Definition isStandardTechnique (technique : IndexedTechnique) : bool :=
  isString "standard" (getProperty technique "name").
Definition isTerrainTechnique (technique : IndexedTechnique) : bool :=
  isString "terrain" (getProperty technique "name").
Definition isTextTechnique (technique : IndexedTechnique) : bool :=
  isString "text" (getProperty technique "name").
Definition isShaderTechnique (technique : IndexedTechnique) : bool :=
  isString "shader" (getProperty technique "name").

Definition needsVertexNormals (technique : IndexedTechnique) : bool :=
  isStandardTechnique technique
  || isTerrainTechnique technique
  || isStandardExtrudedLineTechnique technique.

Definition textureCoordinateType (technique : IndexedTechnique)
    : PropValue :=
  if isStandardTechnique technique
  then getProperty technique "textureCoordinateType"
  else if isExtrudedPolygonTechnique technique
  then getProperty technique "textureCoordinateType"
  else if isTerrainTechnique technique
  then getProperty technique "textureCoordinateType"
  else PUndefined.

(** [typeof value === "string"] with the string, if so. *)
Definition asString (value : PropValue) : option string :=
  match value with
  | PValue (VStr s) => Some s
  | _ => None
  end.

Definition composeTechniqueTextureName (imageName : string)
    (technique : IndexedTechnique) : string :=
  let textureName := imageName in
  let textureName :=
    match asString (getProperty technique "imageTexturePrefix") with
    | Some prefix => String.append prefix textureName
    | None => textureName
    end in
  match asString (getProperty technique "imageTexturePostfix") with
  | Some postfix => String.append textureName postfix
  | None => textureName
  end.

(** [FeatureEnv]: the feature properties and the storage level of the
    tile.  The optional [cachedExprResults] is handed on to
    [Expr.evaluate], which is a function of the expression and the
    environment here as it is for the evaluator. *)
Record FeatureEnv : Type := createFeatureEnv {
  env : MapEnv;
  storageLevel : Z
}.

(** [evaluateFeatureAttr(attrValue, env, defaultValue?)].
    [getPropertyValue] of InterpolatedProperty.ts is handed in. *)
Definition evaluateFeatureAttr
    (getPropertyValue : InterpolatedProperty -> Z -> option Val)
    (attrValue : PropValue) (fenv : FeatureEnv) (defaultValue : option Val)
    : Outcome ExprError (option Val) :=
  let evaluated :=
    match attrValue with
    | PExpr e => evaluate e (env fenv)
    | PInterpolated p => Ret (getPropertyValue p (storageLevel fenv))
    | PValue v => Ret (Some v)
    | PUndefined => Ret None
    end in
  match evaluated with
  | Throw err => Throw err
  | Ret None => Ret defaultValue
  | Ret (Some v) => Ret (Some v)
  end.

(** ** Notions the statements are written with *)

(** The [_index] property of a technique, when it is a number. *)
Definition techniqueIndex (t : IndexedTechnique) : option Z :=
  match t !! "_index" with
  | Some (PValue (VNum n)) => Some n
  | _ => None
  end.

(** Every technique sits at the position its [_index] names. *)
Definition indexed (ts : list IndexedTechnique) : Prop :=
  forall i t, ts !! i = Some t -> techniqueIndex t = Some (Z.of_nat i).

(** [ts'] is [ts] with techniques appended, and is [indexed] if [ts] is. *)
Definition grows (ts ts' : list IndexedTechnique) : Prop :=
  ts `prefix_of` ts' /\ (indexed ts -> indexed ts').

(** The evaluator after a sequence of [getMatchingTechniques] calls, whether
    they returned or threw. *)
Definition afterCalls (envs : list MapEnv) (ev : StyleSetEvaluator)
    : StyleSetEvaluator :=
  foldl (fun ev env => (getMatchingTechniques env ev).1.1) ev envs.

(** The rules of a tree in pre-order, each with a flag telling whether it is
    a leaf ([styles === undefined]). *)
Fixpoint rulesOf (x : InternalStyle) : list (bool * Style) :=
  match x with
  | IStyle s _ None => [(true, s)]
  | IStyle s _ (Some l) => (false, s) :: (l ≫= rulesOf)
  end.

Definition resolvedRules (ev : StyleSetEvaluator) : list (bool * Style) :=
  styleSet ev ≫= rulesOf.

(** The same for the declarations handed to the constructor; references
    are not rules. *)
Fixpoint declaredRules (d : StyleDeclaration) : list (bool * Style) :=
  match d with
  | Reference _ => []
  | Declared s None => [(true, s)]
  | Declared s (Some l) => (false, s) :: (l ≫= declaredRules)
  end.

Definition styleSetRules (input : list StyleDeclaration)
    : list (bool * Style) :=
  input ≫= declaredRules.

(** What [computeDefaultRenderOrder] does to one rule, apart from the
    recursion into its children. *)
Definition ruleStep (r : bool * Style) (c : CtorState)
    : (bool * Style) * CtorState :=
  let '(s1, c1) := applyRenderOrderBias r.2 c in
  if r.1 then
    let '(s2, _, c2) := assignLeaf s1 noParams c1 in ((true, s2), c2)
  else ((false, s1), c1).

(** A rule the constructor numbers from its counter: a leaf with a
    technique, no [renderOrder] of its own and no [renderOrderBiasGroup]. *)
Definition autoAssignable (r : bool * Style) : bool :=
  match r.1, technique r.2, renderOrder r.2, renderOrderBiasGroup r.2 with
  | true, Some _, None, None => true
  | _, _, _, _ => false
  end.

(** The resolved [renderOrder] of those rules, in pre-order: the declared
    rules are paired with what the constructor made of them. *)
Definition autoAssigned (declared resolved : list (bool * Style))
    : list (option number) :=
  omap (fun io => if autoAssignable io.1 then Some (renderOrder io.2.2)
                  else None)
       (zip declared resolved).

(** The bounds of the [renderOrderBiasRange] of a rule, when both are
    integers below [2^53] in absolute value. *)
Definition integerRange (r : bool * Style) : option (Z * Z) :=
  match renderOrderBiasRange r.2 with
  | Some (minRange, maxRange) =>
      match toInteger minRange, toInteger maxRange with
      | Some a, Some b => Some (a, b)
      | _, _ => None
      end
  | None => None
  end.

(** A [renderOrderBiasRange] with integer bounds that does not make the
    counter go back: [|min| + max >= -1], which holds whenever
    [min <= max]. *)
Definition wellFormedRange (r : bool * Style) : bool :=
  match renderOrderBiasRange r.2 with
  | Some _ =>
      match integerRange r with
      | Some (a, b) => -1 <=? Z.abs a + b
      | None => false
      end
  | None => true
  end.

(** A bound on what a rule adds to the counter and on every number
    computed while it does: [|min| + |max| + 1] for a range with integer
    bounds, and one more for a leaf. *)
Definition counterCost (r : bool * Style) : Z :=
  match integerRange r with
  | Some (a, b) => Z.abs a + Z.abs b + 1
  | None => 0
  end + (if r.1 then 1 else 0).

Definition counterBudget (rules : list (bool * Style)) : Z :=
  foldr (fun r acc => counterCost r + acc) 0 rules.

(** A number that is an integer. *)
Definition isInteger (x : number) : Prop :=
  match x with
  | S754_zero _ | S754_finite _ _ _ => exists z, x = ofZ z
  | _ => False
  end.

(** Render orders that are all defined, are integers and strictly
    increase, in the order [<] of numbers. *)
Definition strictlyIncreasingIntegers (orders : list (option number))
    : Prop :=
  exists xs, orders = Some <$> xs
             /\ Forall isInteger xs
             /\ StronglySorted (fun x y => lt x y = true) xs.

(** C2 as the specification states it, for one style set. *)
Definition renderOrders_increasing (input : list StyleDeclaration) : Prop :=
  forall ev, new_StyleSetEvaluator input = Some ev ->
    strictlyIncreasingIntegers
      (autoAssigned (styleSetRules input) (resolvedRules ev)).

(** [p] shifted left by [k] binary places ([k <= 0]: not at all). *)
Definition shiftlp (p : positive) (k : Z) : positive :=
  match k with Zpos j => Pos.iter xO p j | _ => p end.

(** The binary64 number with the sign [s] and the absolute value [p], for
    [p] of at most 53 binary digits. *)
Definition normal (s : bool) (p : positive) : number :=
  S754_finite s (shiftlp p (53 - Zpos (digits2_pos p)))
              (Zpos (digits2_pos p) - 53).

(** The order the leaf branch of [computeDefaultRenderOrder] takes from
    the counter for a rule found in the state [c]
    ([style.renderOrder = techniqueRenderOrder++]), if it does. *)
Definition fromCounter (r : bool * Style) (c : CtorState) : option number :=
  let '(s1, c1) := applyRenderOrderBias r.2 c in
  if r.1 then
    match technique s1, renderOrder s1 with
    | Some _, None => Some (techniqueRenderOrder c1)
    | _, _ => None
    end
  else None.

(** The same for each rule of a list in turn. *)
Fixpoint countedOrders (rules : list (bool * Style)) (c : CtorState)
    : list (option number) :=
  match rules with
  | [] => []
  | r :: rest => fromCounter r c :: countedOrders rest (ruleStep r c).2
  end.

(** The rule carries the render-order bias group [g]. *)
Definition inGroup (g : string) (r : bool * Style) : Prop :=
  renderOrderBiasGroup r.2 = Some g.

#[global] Instance inGroup_dec (g : string) (r : bool * Style)
    : Decision (inGroup g r).
Proof. unfold inGroup. apply _. Defined.

(** The first rule, in pre-order, that carries the group [g]. *)
Definition firstInGroup (g : string) (rules : list (bool * Style))
    : option (bool * Style) :=
  head (filter (inGroup g) rules).

(** C1 as the specification states it, for one style set. *)
Definition biasGroup_orders_equal (input : list StyleDeclaration) : Prop :=
  forall ev, new_StyleSetEvaluator input = Some ev ->
    forall g r1 r2, g <> "" ->
      r1 ∈ resolvedRules ev -> r2 ∈ resolvedRules ev ->
      inGroup g r1 -> inGroup g r2 ->
      renderOrder r1.2 = renderOrder r2.2.

(** The outcome of the [try] block for a rule: whether its condition holds,
    or the exception that ends up in the [catch] block.  A rule without
    [when] matches. *)
Definition whenOutcome (env : MapEnv) (s : Style) (p : StyleInternalParams)
    : Outcome ExprError bool :=
  match when s with
  | None => Ret true
  | Some w => (tryWhen env w p).2
  end.

(** The technique a rule has cached for an environment: the entry of
    [_dynamicTechniques] under the key of the evaluated attributes, or
    [_staticTechnique] when the rule has no such map. *)
Definition cachedTechnique (env : MapEnv) (p : StyleInternalParams)
    : option IndexedTechnique :=
  match _dynamicTechniques p with
  | Some cache =>
      match evaluateTechniqueProperties p env with
      | Ret dynamicAttributes =>
          cache !! makeCacheKey (_styleSetIndex p)
                     (dynamicAttrKey dynamicAttributes)
      | Throw _ => None
      end
  | None => _staticTechnique p
  end.

(** The attributes of the rule have been partitioned and [t] is what the
    rule has cached for [env]. *)
Definition resolvesTo (env : MapEnv) (p : StyleInternalParams)
    (t : IndexedTechnique) : Prop :=
  _dynamicTechniqueAttributes p <> None /\ cachedTechnique env p = Some t.

(** Compiling or evaluating the condition [w] of a rule throws [err]: the
    compiled expression is the remembered one, or is compiled now. *)
Definition whenThrows (env : MapEnv) (w : WhenDecl) (p : StyleInternalParams)
    (err : ExprError) : Prop :=
  match _whenExpr p with
  | Some e => evaluate e env = Throw err
  | None =>
      compileWhen w = Throw err
      \/ exists e, compileWhen w = Ret e /\ evaluate e env = Throw err
  end.

(** [Reaches env stack l st stack' x st']: the walk over the list [l], begun
    with the stack [stack] in the state [st], comes to call [processStyle]
    on the rule [x] with the stack [stack'] in the state [st'].  The rule is
    an element of [l] that all its predecessors let pass, or it is reached
    inside the nested styles of such an element whose condition holds. *)
Inductive Reaches (env : MapEnv)
    : list Style -> list InternalStyle -> WalkState
      -> list Style -> InternalStyle -> WalkState -> Prop :=
| reaches_here stack pre x post st pre' st1 :
    processStyles env stack pre st = (pre', st1, Ret false) ->
    Reaches env stack (pre ++ x :: post) st stack x st1
| reaches_inside stack pre s p l post st pre' st1 p1 st2 stack' x st' :
    processStyles env stack pre st = (pre', st1, Ret false) ->
    checkWhen env s p st1 = (p1, st2, true) ->
    Reaches env (stack ++ [s]) l st2 stack' x st' ->
    Reaches env stack (pre ++ IStyle s p (Some l) :: post) st stack' x st'.

(** The state [st] seen from a caller that had already collected the
    results [res] and the log entries [log]. *)
Definition shift (res : list IndexedTechnique) (log : list LogEntry)
    (st : WalkState) : WalkState :=
  mkWalk (w_techniques st) (res ++ w_result st) (log ++ w_log st).

(** The condition of the rule holds for the environment (a rule without
    [when] matches). *)
Definition whenHolds (env : MapEnv) (s : Style) (p : StyleInternalParams)
    : bool :=
  match whenOutcome env s p with
  | Ret true => true
  | _ => false
  end.

(** The rule matches and carries [final: true], whatever kind of rule it
    is. *)
Definition matchesFinal (env : MapEnv) (x : InternalStyle) : bool :=
  whenHolds env (decl x) (params x) && isFinal (decl x).

(** The rule is a matching leaf with a technique and [final: true], or its
    condition holds and one of its nested styles is such a rule in turn:
    the rule is on the path to a matching final leaf. *)
Fixpoint finalMatch (env : MapEnv) (x : InternalStyle) : bool :=
  match x with
  | IStyle s p sub =>
      whenHolds env s p
      && match sub with
         | None => bool_decide (is_Some (technique s)) && isFinal s
         | Some l => existsb (finalMatch env) l
         end
  end.

(** The rules [post] that follow [r] in its list are not evaluated by the
    walk: they come back untouched, and the walk ends in the same state
    with the same outcome whatever rules follow [r]. *)
Definition laterRulesIgnored (env : MapEnv) (styleStack : list Style)
    (pre : list InternalStyle) (r : InternalStyle)
    (post : list InternalStyle) (st : WalkState) : Prop :=
  forall post',
    let run := processStyles env styleStack (pre ++ r :: post) st in
    let run' := processStyles env styleStack (pre ++ r :: post') st in
    run.1.2 = run'.1.2
    /\ run.2 = run'.2
    /\ exists l, length l = S (length pre)
                 /\ run.1.1 = l ++ post /\ run'.1.1 = l ++ post'.

(** Two environments that the rule [x] and the rules nested in it cannot
    tell apart: every condition has the same outcome for both, and the
    technique-scope attributes of every rule evaluate to the same. *)
Fixpoint agreeOn (env1 env2 : MapEnv) (x : InternalStyle) : Prop :=
  match x with
  | IStyle s p sub =>
      whenOutcome env1 s p = whenOutcome env2 s p
      /\ evaluateTechniqueProperties p env1
         = evaluateTechniqueProperties p env2
      /\ match sub with
         | None => True
         | Some l => foldr (fun y acc => agreeOn env1 env2 y /\ acc) True l
         end
  end.

(** The state [st] after the results [res] have been pushed and the entries
    [log] have been logged. *)
Definition extend (st : WalkState) (res : list IndexedTechnique)
    (log : list LogEntry) : WalkState :=
  mkWalk (w_techniques st) (w_result st ++ res) (w_log st ++ log).

(** What a second [processStyle] does with the style a first one returned,
    for an environment the style cannot tell from the first. *)
Definition repeats (env1 env2 : MapEnv) (x : InternalStyle) : Prop :=
  forall styleStack st x' st' b,
    processStyle env1 styleStack x st = (x', st', Ret b) ->
    agreeOn env1 env2 x' ->
    exists res log,
      st' = mkWalk (w_techniques st') (w_result st ++ res) (w_log st ++ log)
      /\ forall stack2 st2,
           processStyle env2 stack2 x' st2 = (x', extend st2 res log, Ret b).

(** The rule [x] after further calls of [processStyle] on it, each for an
    environment, a stack and a state of its own, whatever the calls
    return. *)
Definition laterCalls (calls : list (MapEnv * list Style * WalkState))
    (x : InternalStyle) : InternalStyle :=
  foldl (fun x c => (processStyle c.1.1 c.1.2 x c.2).1.1) x calls.



(** The value given to the name [a] by the last pair of the list that
    carries that name: what a sequence of assignments
    [technique[attrName] = attrValue] leaves under [a]. *)
Fixpoint assigned {A : Type} (a : string) (l : list (string * A))
    : option A :=
  match l with
  | [] => None
  | (n, x) :: rest =>
      match assigned a rest with
      | Some y => Some y
      | None => if decide (n = a) then Some x else None
      end
  end.

(** The declarations that are static values, in order. *)
Definition staticDecls (decls : list (string * AttrDecl))
    : list (string * Val) :=
  omap (fun d => match d.2 with
                 | AttrValue v => Some (d.1, v)
                 | _ => None
                 end) decls.

(** The static value a list of declarations gives to the attribute [a]. *)
Definition staticValue (a : string) (decls : list (string * AttrDecl))
    : option Val :=
  assigned a (staticDecls decls).

(** Every declaration of the attribute [a] in the list is a static value
    (none is an expression or an interpolated property). *)
Definition declaredStaticOnly (a : string)
    (decls : list (string * AttrDecl)) : Prop :=
  Forall (fun d => d.1 = a -> exists v, d.2 = AttrValue v) decls.

(** The rule has not been matched yet: its attributes are not partitioned
    and it has no technique cached. *)
Definition unmatched (p : StyleInternalParams) : Prop :=
  _dynamicTechniqueAttributes p = None
  /\ _dynamicTechniques p = None
  /\ _staticTechnique p = None.

(** The parameters [p] hold the attribute lists, the map of dynamic
    techniques and the index of [p0]; they may differ in the compiled
    condition and in the static technique. *)
Definition sameAttributes (p0 p : StyleInternalParams) : Prop :=
  _staticAttributes p = _staticAttributes p0
  /\ _dynamicTechniqueAttributes p = _dynamicTechniqueAttributes p0
  /\ _dynamicFeatureAttributes p = _dynamicFeatureAttributes p0
  /\ _dynamicForwaredAttributes p = _dynamicForwaredAttributes p0
  /\ _dynamicTechniques p = _dynamicTechniques p0
  /\ _styleSetIndex p = _styleSetIndex p0.

(** What a call of [processStyle] that went from the state [st] to the
    state [st'] did for a leaf whose static technique was [cached] before
    the call and is [cached'] after it, when the technique the leaf stands
    for at the index [i] is [build i]: a cached technique is returned
    again and nothing is created; without one, the technique is created
    at the end of the technique list.  Either way it is cached after the
    call. *)
Definition createdOrReused (build : nat -> IndexedTechnique)
    (cached cached' : option IndexedTechnique) (st st' : WalkState) : Prop :=
  match cached with
  | Some t =>
      w_result st' = w_result st ++ [t]
      /\ w_techniques st' = w_techniques st
      /\ cached' = Some t
  | None =>
      let t := build (length (w_techniques st)) in
      w_result st' = w_result st ++ [t]
      /\ w_techniques st' = w_techniques st ++ [t]
      /\ cached' = Some t
  end.

(** The technique carries the value [v] under the attribute [a]. *)
Definition carries (a : string) (v : Val) (t : IndexedTechnique) : Prop :=
  t !! a = Some (PValue v).

(** C10 as the specification states it, for one leaf rule under a stack of
    ancestors: when the rule and one of its ancestors both declare a static
    value for [a], the technique a match produces carries the value of the
    rule. *)
Definition leafValueWins (env : MapEnv) (styleStack : list Style)
    (s : Style) (p : StyleInternalParams) (st : WalkState) (a : string)
    : Prop :=
  forall v x' st' b,
    staticValue a (styleAttributes s) = Some v ->
    (exists ancestor, ancestor ∈ styleStack
                      /\ is_Some (staticValue a (styleAttributes ancestor))) ->
    processStyle env styleStack (IStyle s p None) st = (x', st', Ret b) ->
    exists t, w_result st' = w_result st ++ [t] /\ carries a v t.

(** The rule has its attributes partitioned, with [statics] as static
    attributes and without [a] among the names of its dynamic attributes,
    and every technique it has cached carries [v] under [a]. *)
Definition partitionedFor (a : string) (v : Val)
    (statics : list (string * Val)) (p : StyleInternalParams) : Prop :=
  _staticAttributes p = Some statics
  /\ (exists l, _dynamicTechniqueAttributes p = Some l /\ a ∉ l.*1)
  /\ (a ∉ (default [] (_dynamicFeatureAttributes p)).*1)
  /\ (a ∉ (default [] (_dynamicForwaredAttributes p)).*1)
  /\ (forall t, _staticTechnique p = Some t -> carries a v t)
  /\ (forall cache k t, _dynamicTechniques p = Some cache ->
        cache !! k = Some t -> carries a v t).

(** A leaf rule with the declared part [s] whose attributes are
    partitioned as [partitionedFor] says. *)
Definition leafPartitionedFor (a : string) (v : Val)
    (statics : list (string * Val)) (s : Style) (x : InternalStyle)
    : Prop :=
  exists p, x = IStyle s p None /\ partitionedFor a v statics p.

(** A rule without its render order: what the constructor must leave as it
    was declared. *)
Definition declaredPart (r : bool * Style) : bool * Style :=
  (r.1, set_renderOrder None r.2).

(** The [_styleSetIndex] of the rules of a tree in pre-order, each with the
    flag that tells whether the rule is a leaf. *)
Fixpoint indicesOf (x : InternalStyle) : list (bool * option nat) :=
  match x with
  | IStyle _ p None => [(true, _styleSetIndex p)]
  | IStyle _ p (Some l) => (false, _styleSetIndex p) :: (l ≫= indicesOf)
  end.

(** Leaves numbered from [n] on in the order of the list; the other rules
    without a number. *)
Fixpoint numbering (leaf : list bool) (n : nat) : list (bool * option nat) :=
  match leaf with
  | [] => []
  | true :: rest => (true, Some n) :: numbering rest (S n)
  | false :: rest => (false, None) :: numbering rest n
  end.

(** What one step of the constructor does to the index of a rule: a leaf
    takes the counter, which moves on; another rule is passed over. *)
Definition indexStep (e : bool * option nat) (n : nat)
    : (bool * option nat) * nat :=
  if e.1 then ((true, Some n), S n) else (e, n).

(** The techniques a rule holds in its caches. *)
Definition cachedTechniques (p : StyleInternalParams)
    : list IndexedTechnique :=
  match _staticTechnique p with Some t => [t] | None => [] end
  ++ match _dynamicTechniques p with
     | Some cache => (map_to_list cache).*2
     | None => []
     end.

(** The techniques held in the caches of the rules of a tree. *)
Fixpoint allCached (x : InternalStyle) : list IndexedTechnique :=
  match x with
  | IStyle _ p None => cachedTechniques p
  | IStyle _ p (Some l) => cachedTechniques p ++ (l ≫= allCached)
  end.

(** Every cached technique and every technique collected so far is in the
    technique list. *)
Definition cachesListed (x : InternalStyle) (st : WalkState) : Prop :=
  allCached x ⊆ w_techniques st.

Definition resultListed (st : WalkState) : Prop :=
  w_result st ⊆ w_techniques st.

(** The number of leaf rules among the rules of a list of trees. *)
Definition leafCount (l : list InternalStyle) : nat :=
  length (filter (fun r : bool * Style => r.1 = true) (l ≫= rulesOf)).

(** From [st] to [st'] at most [n] techniques were collected, and no more
    were created than were collected. *)
Definition collectedWithin (n : nat) (st st' : WalkState) : Prop :=
  exists pushed created : nat,
    length (w_result st') = (length (w_result st) + pushed)%nat
    /\ length (w_techniques st') = (length (w_techniques st) + created)%nat
    /\ (created <= pushed)%nat /\ (pushed <= n)%nat.

(** The render order [x] is an integer outside the block
    [n + minRange .. n + maxRange] of a bias group recorded with the
    order [n]. *)
Definition outsideBlock (n minRange maxRange : Z) (x : number) : Prop :=
  exists z, x = ofZ z /\ (z < n + minRange \/ n + maxRange < z).

(** What the assignments of [createTechnique] leave under a name other
    than the two indices: the later assignment wins, so a forwarded
    attribute comes before a feature attribute, that before an evaluated
    technique attribute, that before a static attribute, and that before
    the name of the technique. *)
Definition createdProperty (s : Style) (p : StyleInternalParams)
    (dynamicAttrs : list (string * option Val)) (a : string)
    : option PropValue :=
  match assigned a (forwardable (default [] (_dynamicForwaredAttributes p)))
  with
  | Some d => Some (propOfDynamic d)
  | None =>
  match assigned a (default [] (_dynamicFeatureAttributes p)) with
  | Some d => Some (propOfDynamic d)
  | None =>
  match assigned a dynamicAttrs with
  | Some v => Some (propOfOption v)
  | None =>
  match assigned a (default [] (_staticAttributes p)) with
  | Some v => Some (PValue v)
  | None =>
      if decide (a = "name") then Some (propOfOption (VStr <$> technique s))
      else None
  end end end end.

(** The type guards of Techniques.ts. *)
Definition techniqueGuards : list (IndexedTechnique -> bool) :=
  [isCirclesTechnique; isSquaresTechnique; isPoiTechnique;
   isLineMarkerTechnique; isDashedLineTechnique; isLineTechnique;
   isSolidLineTechnique; isSegmentsTechnique; isExtrudedLineTechnique;
   isBasicExtrudedLineTechnique; isStandardExtrudedLineTechnique;
   isFillTechnique; isExtrudedPolygonTechnique; isStandardTechnique;
   isTerrainTechnique; isTextTechnique; isShaderTechnique].

(** No rule of the trees carries [final: true]. *)
Definition noFinal (l : list InternalStyle) : bool :=
  forallb (fun r : bool * Style => negb (isFinal r.2)) (l ≫= rulesOf).

(** From [st] to [st'] the techniques [added] were created, and the rule
    [x'] caches nothing beyond what [x] cached and those. *)
Definition cachesOnlyNew (x x' : InternalStyle) (st st' : WalkState)
    : Prop :=
  exists added,
    w_techniques st' = w_techniques st ++ added
    /\ allCached x' ⊆+ allCached x ++ added.

(** A declaration the partition has no list for: an expression whose
    scope is neither [Feature] nor [Technique], or an interpolated property
    that cannot be created or whose scope is none of the three. *)
Definition unsupported (tech : option string) (d : string * AttrDecl)
    : bool :=
  match d.2 with
  | AttrValue _ => false
  | AttrJsonExpr _ =>
      match techniqueAttrType d.1 tech with
      | Feature | Technique => false
      | _ => true
      end
  | AttrInterpolated def =>
      match createInterpolatedProperty def with
      | None => true
      | Some _ =>
          match techniqueAttrType d.1 tech with
          | OtherAttrType => true
          | _ => false
          end
      end
  end.

(** The name [a] is in none of the four lists. *)
Definition absentFrom (a : string) (l : AttrLists) : Prop :=
  (a ∉ (staticAttributes l).*1)
  /\ (a ∉ (dynamicTechniqueAttributes l).*1)
  /\ (a ∉ (dynamicFeatureAttributes l).*1)
  /\ (a ∉ (dynamicForwardedAttributes l).*1).

End Evaluator.

Abbreviation IndexedTechnique := (gmap string PropValue).

(** * Technique descriptors (TechniqueDescriptor.ts) *)

Module TechniqueDescriptor.

Inductive AttrScope : Type :=
| Feature
| Technique
| Renderer.

(** [TechniquePropScopes<T>]: an object from property names to scopes. *)
Abbreviation TechniquePropScopes := (gmap string AttrScope).

Record TechniqueDescriptor : Type := mkDescriptor {
  attrScopes : TechniquePropScopes
}.

(** [Partial<TechniqueDescriptor<T>>]: [attrScopes] may be [undefined]. *)
Record PartialTechniqueDescriptor : Type := mkPartial {
  partial_attrScopes : option TechniquePropScopes
}.

(** A descriptor where a partial one is expected. *)
Definition partial (d : TechniqueDescriptor) : PartialTechniqueDescriptor :=
  mkPartial (Some (attrScopes d)).

(** The body of the loop: [{ ...result.attrScopes, ...descriptor.attrScopes }]
    takes the properties of the second object where both have one. *)
Definition mergeStep (result : TechniqueDescriptor)
    (descriptor : PartialTechniqueDescriptor) : TechniqueDescriptor :=
  match partial_attrScopes descriptor with
  | Some scopes => mkDescriptor (scopes ∪ attrScopes result)
  | None => result
  end.

Definition mergeTechniqueDescriptor
    (descriptors : list PartialTechniqueDescriptor) : TechniqueDescriptor :=
  foldl mergeStep (mkDescriptor ∅) descriptors.

(** The scope the last of the descriptors that has one gives to a
    property. *)
Fixpoint lastScope (a : string)
    (descriptors : list PartialTechniqueDescriptor) : option AttrScope :=
  match descriptors with
  | [] => None
  | d :: rest =>
      match lastScope a rest with
      | Some scope => Some scope
      | None => partial_attrScopes d ≫= (fun scopes => scopes !! a)
      end
  end.

End TechniqueDescriptor.

(** * A small implementation of the collaborators

    An expression language with just enough in it to run the evaluator on
    sample style sets: attribute lookup, literals, a JSON value that is not
    an expression, and an expression whose evaluation fails. *)

Module Demo.

Inductive DemoExpr : Type :=
| Get (name : string)
| Literal (v : Value unit)
| Malformed
| Failing.

Definition fromJSON (j : DemoExpr) : Outcome string DemoExpr :=
  match j with
  | Malformed => Throw "ParseError"
  | _ => Ret j
  end.

Definition parse (str : string) : Outcome string DemoExpr :=
  if String.eqb str "" then Throw "ParseError" else Ret (Get str).

Definition eval (e : DemoExpr) (env : gmap string (Value unit))
    : Outcome string (option (Value unit)) :=
  match e with
  | Get name => Ret (env !! name)
  | Literal v => Ret (Some v)
  | Malformed | Failing => Throw "EvaluationError"
  end.

(** A descriptor with one attribute of each kind. *)
Definition attrType (attrName : string) (technique : option string)
    : TechniqueAttrType :=
  if String.eqb attrName "lineWidth" then Feature
  else if String.eqb attrName "color" then Technique
  else if String.eqb attrName "opacity" then DynamicMaterial
  else OtherAttrType.

Definition stringify (v : Value unit) : string :=
  match v with
  | VNull => "null"
  | VBool true => "true"
  | VBool false => "false"
  | VNum n => DecimalString.NilZero.string_of_int (Z.to_int n)
  | VDouble (S754_finite s m e) =>
      String.concat ""
        [(if s then "-" else "");
         DecimalString.NilZero.string_of_int (Z.to_int (Zpos m)); "p";
         DecimalString.NilZero.string_of_int (Z.to_int e)]
  | VDouble (S754_zero _) => "0"
  | VDouble _ => "null"
  | VStr str => String.concat "" [String (Ascii.ascii_of_nat 34) ""; str;
                                  String (Ascii.ascii_of_nat 34) ""]
  | VObject _ => "{}"
  end.

Definition impl : Collaborators := {|
  JsonObject := unit;
  JsonExpr := DemoExpr;
  Expr := DemoExpr;
  ExprError := string;
  MapEnv := gmap string (Value unit);
  InterpolatedPropertyDefinition := unit;
  InterpolatedProperty := unit;
  Expr_fromJSON := fromJSON;
  Expr_parse := parse;
  evaluate := eval;
  createInterpolatedProperty := Some;
  techniqueAttrType := attrType;
  JSON_stringify := stringify
|}.

Section Samples.

#[local] Existing Instance impl.

(** A rule with nothing set, and the fields the samples set. *)
Definition rule : Style :=
  mkStyle None None None None None None None None None None.

Definition withTechnique (name : string) (s : Style) : Style :=
  mkStyle (when s) (Some name) (final s) (renderOrder s)
          (renderOrderOffset s) (labelProperty s) (secondaryRenderOrder s)
          (attr s) (renderOrderBiasGroup s) (renderOrderBiasRange s).

Definition withWhen (w : WhenDecl) (s : Style) : Style :=
  mkStyle (Some w) (technique s) (final s) (renderOrder s)
          (renderOrderOffset s) (labelProperty s) (secondaryRenderOrder s)
          (attr s) (renderOrderBiasGroup s) (renderOrderBiasRange s).

Definition withFinal (s : Style) : Style :=
  mkStyle (when s) (technique s) (Some true) (renderOrder s)
          (renderOrderOffset s) (labelProperty s) (secondaryRenderOrder s)
          (attr s) (renderOrderBiasGroup s) (renderOrderBiasRange s).

Definition withAttr (a : list (string * AttrDecl)) (s : Style) : Style :=
  mkStyle (when s) (technique s) (final s) (renderOrder s)
          (renderOrderOffset s) (labelProperty s) (secondaryRenderOrder s)
          (Some a) (renderOrderBiasGroup s) (renderOrderBiasRange s).

Definition withGroup (g : string) (range : option (number * number))
    (s : Style)
    : Style :=
  mkStyle (when s) (technique s) (final s) (renderOrder s)
          (renderOrderOffset s) (labelProperty s) (secondaryRenderOrder s)
          (attr s) (Some g) range.

Definition leafRule (s : Style) : StyleDeclaration := Declared s None.

(** Two leaves numbered from the counter around a bias group of two rules,
    the first of which reserves the block [0, 1]. *)
Definition groupedSet : list StyleDeclaration :=
  [leafRule (withTechnique "line" rule);
   leafRule (withGroup "roads" (Some (ofZ 0, ofZ 1))
               (withTechnique "line" rule));
   leafRule (withGroup "roads" None (withTechnique "fill" rule));
   leafRule (withTechnique "text" rule)].

Definition groupedEvaluator : StyleSetEvaluator :=
  default (mkEvaluator [] ∅ []) (new_StyleSetEvaluator groupedSet).

(** A group whose first rule has no range. *)
Definition rangelessFirstSet : list StyleDeclaration :=
  [leafRule (withGroup "roads" None (withTechnique "line" rule));
   leafRule (withGroup "roads" (Some (ofZ 0, ofZ 1))
               (withTechnique "line" rule))].

(** A group that is recorded with the order zero. *)
Definition zeroOrderSet : list StyleDeclaration :=
  [leafRule (withGroup "roads" (Some (ofZ 0, ofZ 1))
               (withTechnique "line" rule));
   leafRule (withGroup "roads" None (withTechnique "line" rule))].

(** A range with the bound NaN, which the counter then becomes, before a
    group that is therefore recorded with NaN. *)
Definition nanOrderSet : list StyleDeclaration :=
  [leafRule (withGroup "water" (Some (ofZ 0, S754_nan))
               (withTechnique "line" rule));
   leafRule (withGroup "roads" (Some (ofZ 0, ofZ 1))
               (withTechnique "line" rule));
   leafRule (withGroup "roads" None rule)].

(** A range whose maximum lies below its minimum. *)
Definition backwardRangeSet : list StyleDeclaration :=
  [leafRule (withTechnique "line" rule);
   leafRule (withGroup "roads" (Some (ofZ 0, ofZ (-5)))
               (withTechnique "line" rule));
   leafRule (withTechnique "line" rule)].

Definition emptyEnv : gmap string (Value unit) := ∅.

Definition freshWalk : WalkState := mkWalk [] [] [].

(** A rule with nested styles that carries [final: true], followed by a
    leaf. *)
Definition finalGroupRule : InternalStyle :=
  IStyle (withFinal rule) noParams
    (Some [IStyle (withTechnique "fill" rule)
             (set_styleSetIndex 0 noParams) None]).

Definition lineLeaf : InternalStyle :=
  IStyle (withTechnique "line" rule) (set_styleSetIndex 1 noParams) None.

(** A leaf with [final: true]. *)
Definition finalLeaf : InternalStyle :=
  IStyle (withFinal (withTechnique "fill" rule))
    (set_styleSetIndex 0 noParams) None.

(** A rule whose condition is not an expression. *)
Definition malformedWhen : Style :=
  withWhen (WhenJson Malformed) (withTechnique "fill" rule).

(** A leaf with a technique-scope attribute whose evaluation fails. *)
Definition failingColor : Style :=
  withAttr [("color", AttrJsonExpr Failing)] (withTechnique "line" rule).

Definition failingEvaluator : StyleSetEvaluator :=
  mkEvaluator [IStyle failingColor (set_styleSetIndex 0 noParams) None] ∅ [].

(** A line whose width is a feature-scope expression and whose colour is a
    technique-scope expression, and two features that differ in width
    only. *)
Definition dynamicLine : Style :=
  withAttr [("lineWidth", AttrJsonExpr (Get "width"));
            ("color", AttrJsonExpr (Get "kind"))]
    (withTechnique "solid-line" rule).

Definition narrowRoad : gmap string (Value unit) :=
  {[ "width" := VNum 1; "kind" := VStr "road" ]}.

Definition wideRoad : gmap string (Value unit) :=
  {[ "width" := VNum 5; "kind" := VStr "road" ]}.

Definition river : gmap string (Value unit) :=
  {[ "width" := VNum 3; "kind" := VStr "river" ]}.

Definition dynamicEvaluator : StyleSetEvaluator :=
  default (mkEvaluator [] ∅ [])
    (new_StyleSetEvaluator
       [leafRule dynamicLine; leafRule (withTechnique "text" rule)]).

(** A leaf and an ancestor that both give a static value to an
    attribute. *)
Definition widthParent : Style := withAttr [("lineWidth", AttrValue (VNum 1))] rule.

Definition widthLeaf : Style :=
  withAttr [("lineWidth", AttrValue (VNum 2))] (withTechnique "line" rule).

Definition indexParent : Style := withAttr [("_index", AttrValue (VNum 3))] rule.

Definition indexLeaf : Style :=
  withAttr [("_index", AttrValue (VNum 7))] (withTechnique "line" rule).

(** A leaf that gives a static colour, under a parent that gives a static
    colour and a grandparent that gives the colour as an expression. *)
Definition colourGrandparent : Style :=
  withAttr [("color", AttrJsonExpr (Get "kind"))] rule.

Definition colourParent : Style := withAttr [("color", AttrValue (VStr "red"))] rule.

Definition colourLeaf : Style :=
  withAttr [("color", AttrValue (VStr "blue"))] (withTechnique "line" rule).

(** The rule at a position of a list of rules. *)
Definition ruleAt (n : nat) (rules : list (bool * Style)) : bool * Style :=
  default (true, rule) (rules !! n).

Definition rangelessFirstEvaluator : StyleSetEvaluator :=
  default (mkEvaluator [] ∅ []) (new_StyleSetEvaluator rangelessFirstSet).

Definition backwardRangeEvaluator : StyleSetEvaluator :=
  default (mkEvaluator [] ∅ []) (new_StyleSetEvaluator backwardRangeSet).


(** A rule that declares its render order. *)
Definition withRenderOrder (z : Z) (s : Style) : Style :=
  mkStyle (when s) (technique s) (final s) (Some (ofZ z))
          (renderOrderOffset s) (labelProperty s) (secondaryRenderOrder s)
          (attr s) (renderOrderBiasGroup s) (renderOrderBiasRange s).

Definition explicitSet : list StyleDeclaration :=
  [leafRule (withTechnique "line" rule);
   leafRule (withRenderOrder 7 (withTechnique "fill" rule))].

Definition explicitEvaluator : StyleSetEvaluator :=
  default (mkEvaluator [] ∅ []) (new_StyleSetEvaluator explicitSet).

(** A leaf whose second attribute does not parse. *)
Definition malformedColor : Style :=
  withAttr [("lineWidth", AttrValue (VNum 2));
            ("color", AttrJsonExpr Malformed);
            ("opacity", AttrValue (VNum 1))]
    (withTechnique "line" rule).

(** A final leaf with the technique ["none"]. *)
Definition noneRule : Style := withFinal (withTechnique "none" rule).

(** A leaf whose only attribute is an expression in a scope the partition
    has no list for. *)
Definition unsupportedOpacity : Style :=
  withAttr [("opacity", AttrJsonExpr (Get "kind"))]
    (withTechnique "line" rule).

(** The parameters of the dynamic line once its attributes are
    partitioned. *)
Definition partitionedLine : StyleInternalParams :=
  (checkStyleDynamicAttributes dynamicLine (set_styleSetIndex 0 noParams)
     []).1.

(** A range so wide that the counter leaves the integers it can tell
    apart: after it, [techniqueRenderOrder++] no longer changes the
    counter. *)
Definition saturatingSet : list StyleDeclaration :=
  [leafRule (withTechnique "line" rule);
   leafRule (withGroup "roads" (Some (ofZ 0, ofZ (2 ^ 53 - 1)))
               (withTechnique "line" rule));
   leafRule (withTechnique "line" rule);
   leafRule (withTechnique "line" rule)].

Definition saturatingEvaluator : StyleSetEvaluator :=
  default (mkEvaluator [] ∅ []) (new_StyleSetEvaluator saturatingSet).

(** The number 0.5, and a range that ends at it. *)
Definition half : number := S754_finite false 4503599627370496 (-53).

Definition fractionalSet : list StyleDeclaration :=
  [leafRule (withTechnique "line" rule);
   leafRule (withGroup "roads" (Some (ofZ 0, half))
               (withTechnique "line" rule));
   leafRule (withTechnique "line" rule);
   leafRule (withTechnique "line" rule)].

(** An interpolation that has no value at any level. *)
Definition noLevels (p : unit) (level : Z) : option (Value unit) := None.

End Samples.

End Demo.

(** * Properties *)

Section Properties.

Context {collaborators : Collaborators}.

#[local] Arguments makeCacheKey : simpl never.
#[local] Arguments dynamicAttrKey : simpl never.
#[local] Arguments buildTechnique : simpl never.
#[local] Arguments evaluateTechniqueProperties : simpl never.

(** ** Outcomes *)

Lemma returned_Ret {E A : Type} (d : A) (o : Outcome E A) :
  isThrow o = false -> o = Ret (returned d o).
Proof. by destruct o. Qed.

Lemma default_Some {A : Type} (d : A) (o : option A) :
  is_Some o -> o = Some (default d o).
Proof. by intros [a ->]. Qed.

Lemma pair_eta_snd {A B : Type} (x : A * B) (b : B) :
  x.2 = b -> x = (x.1, b).
Proof. destruct x. cbn. by intros ->. Qed.

Lemma head_tail {A : Type} (d : A) (l : list A) :
  is_Some (head l) -> l = [] ++ default d (head l) :: tail l.
Proof. destruct l; [by intros [? ?]|done]. Qed.

(** ** Induction over style trees *)

Section StyleInduction.

Variable P : InternalStyle -> Prop.
Hypothesis P_leaf : forall s p, P (IStyle s p None).
Hypothesis P_node : forall s p l, Forall P l -> P (IStyle s p (Some l)).

Fixpoint InternalStyle_tree_ind (x : InternalStyle) : P x :=
  match x with
  | IStyle s p None => P_leaf s p
  | IStyle s p (Some l) =>
      P_node s p l
        ((fix all (l : list InternalStyle) : Forall P l :=
            match l with
            | [] => Forall_nil_2 P
            | y :: r => Forall_cons_2 P y r (InternalStyle_tree_ind y) (all r)
            end) l)
  end.

End StyleInduction.

(** ** Binary64 arithmetic on integers

    Integers below [2^53] in absolute value are binary64 numbers, and their
    sums are computed exactly as long as they stay below [2^53]. *)

Lemma digits2_pos_iter_xO (p k : positive) :
  digits2_pos (Pos.iter xO p k) = (digits2_pos p + k)%positive.
Proof.
  induction k as [|k IH] using Pos.peano_ind.
  - cbn. lia.
  - rewrite Pos.iter_succ. cbn. rewrite IH. lia.
Qed.

Lemma Zpos_iter_xO (p k : positive) :
  Zpos (Pos.iter xO p k) = Zpos p * 2 ^ Zpos k.
Proof.
  induction k as [|k IH] using Pos.peano_ind.
  - cbn. lia.
  - rewrite Pos.iter_succ, Pos2Z.inj_xO, IH, Pos2Z.inj_succ, Z.pow_succ_r
      by lia. lia.
Qed.

Lemma digits_shiftlp (p : positive) (k : Z) :
  0 <= k -> Zpos (digits2_pos (shiftlp p k)) = Zpos (digits2_pos p) + k.
Proof.
  intros Hk. destruct k as [|j|j]; cbn; [lia| |lia].
  rewrite digits2_pos_iter_xO. lia.
Qed.

Lemma Zpos_shiftlp (p : positive) (k : Z) :
  0 <= k -> Zpos (shiftlp p k) = Zpos p * 2 ^ k.
Proof.
  intros Hk. destruct k as [|j|j]; cbn [shiftlp]; [lia| |lia].
  apply Zpos_iter_xO.
Qed.

Lemma shiftlp_shiftlp (p : positive) (a b : Z) :
  0 <= a -> 0 <= b -> shiftlp (shiftlp p a) b = shiftlp p (a + b).
Proof.
  intros Ha Hb. apply Pos2Z.inj.
  rewrite !Zpos_shiftlp, Z.pow_add_r by lia. lia.
Qed.

Lemma digits2_pos_size (p : positive) : digits2_pos p = Pos.size p.
Proof. induction p; cbn; congruence. Qed.

Lemma digits_bounds (p : positive) :
  2 ^ (Zpos (digits2_pos p) - 1) <= Zpos p < 2 ^ Zpos (digits2_pos p).
Proof.
  rewrite digits2_pos_size.
  pose proof (Pos.size_gt p) as Hgt. pose proof (Pos.size_le p) as Hle.
  apply Pos2Z.pos_lt_pos in Hgt. apply Pos2Z.pos_le_pos in Hle.
  rewrite Pos2Z.inj_pow in Hgt, Hle.
  split; [|exact Hgt].
  replace (Zpos (Pos.size p)) with (Z.succ (Zpos (Pos.size p) - 1)) in Hle
    by lia.
  rewrite Z.pow_succ_r in Hle by lia. lia.
Qed.

Lemma digits_le (p : positive) (n : Z) :
  0 <= n -> Zpos p < 2 ^ n -> Zpos (digits2_pos p) <= n.
Proof.
  intros Hn Hp. destruct (digits_bounds p) as [Hlo _].
  destruct (Z.le_gt_cases (Zpos (digits2_pos p)) n) as [|Hgt]; [done|].
  assert (2 ^ n <= 2 ^ (Zpos (digits2_pos p) - 1))
    by (apply Z.pow_le_mono_r; lia).
  lia.
Qed.

Lemma digits_mono (p q : positive) :
  Zpos p <= Zpos q -> Zpos (digits2_pos p) <= Zpos (digits2_pos q).
Proof.
  intros Hpq. apply digits_le; [lia|].
  destruct (digits_bounds q). lia.
Qed.

Lemma round_aux_canonical (s : bool) (m : positive) (e : Z) :
  Zpos (digits2_pos m) = 53 -> -1074 <= e <= 971 ->
  binary_round_aux prec emax s (Zpos m) e loc_Exact = S754_finite s m e.
Proof.
  intros Hd He. unfold binary_round_aux, shr_fexp, fexp, emin.
  cbn [Zdigits2 shr_record_of_loc]. rewrite Hd.
  replace (Z.max (53 + e - prec) (3 - emax - prec) - e) with 0
    by (unfold prec, emax; lia).
  cbn [shr round_nearest_even shr_m loc_of_shr_record Zdigits2
       shr_record_of_loc].
  rewrite Hd.
  replace (Z.max (53 + e - prec) (3 - emax - prec) - e) with 0
    by (unfold prec, emax; lia).
  cbn [shr shr_m].
  destruct (Z.leb_spec e (emax - prec)) as [|Hgt]; [done|].
  unfold emax, prec in Hgt. lia.
Qed.

Lemma round_short (s : bool) (m : positive) (e : Z) :
  Zpos (digits2_pos m) <= 53 ->
  -1074 <= e - (53 - Zpos (digits2_pos m)) <= 971 ->
  binary_round prec emax s m e
  = S754_finite s (shiftlp m (53 - Zpos (digits2_pos m)))
      (e - (53 - Zpos (digits2_pos m))).
Proof.
  intros Hd He. unfold binary_round, shl_align, fexp, emin.
  replace (Z.max (Zpos (digits2_pos m) + e - prec) (3 - emax - prec) - e)
    with (Zpos (digits2_pos m) - 53) by (unfold prec, emax; lia).
  replace (Z.max (Zpos (digits2_pos m) + e - prec) (3 - emax - prec))
    with (e - (53 - Zpos (digits2_pos m))) by (unfold prec, emax; lia).
  destruct (Zpos (digits2_pos m) - 53) as [|j|j] eqn:Hj; [|lia|].
  - replace (53 - Zpos (digits2_pos m)) with 0 by lia. cbn [shiftlp].
    rewrite round_aux_canonical by lia. f_equal. lia.
  - replace (53 - Zpos (digits2_pos m)) with (Zpos j) by lia.
    cbn [shiftlp]. apply round_aux_canonical; [|lia].
    rewrite digits2_pos_iter_xO. lia.
Qed.

Lemma iter_pos_nat {A : Type} (f : A -> A) (n : positive) (x : A) :
  SpecFloat.iter_pos f n x = Nat.iter (Pos.to_nat n) f x.
Proof.
  revert x. induction n as [n IH|n IH|]; intros x; cbn [SpecFloat.iter_pos].
  - rewrite !IH, Pos2Nat.inj_xI.
    replace (S (2 * Pos.to_nat n))%nat
      with (Pos.to_nat n + (Pos.to_nat n + 1))%nat by lia.
    rewrite !Nat.iter_add. done.
  - rewrite !IH, Pos2Nat.inj_xO.
    replace (2 * Pos.to_nat n)%nat
      with (Pos.to_nat n + Pos.to_nat n)%nat by lia.
    by rewrite Nat.iter_add.
  - done.
Qed.

Lemma iter_shr_exact (j m : positive) :
  SpecFloat.iter_pos shr_1 j
    (Build_shr_record (Zpos (Pos.iter xO m j)) false false)
  = Build_shr_record (Zpos m) false false.
Proof.
  rewrite iter_pos_nat, Pos2Nat.inj_iter.
  generalize (Pos.to_nat j). intros n. revert m.
  induction n as [|n IH]; intros m; [done|].
  rewrite Nat.iter_succ_r.
  change (nat_rect (fun _ => positive) m (fun _ => xO) (S n))
    with (xO (nat_rect (fun _ => positive) m (fun _ => xO) n)).
  cbn [shr_1 orb]. apply IH.
Qed.

Lemma round_long (s : bool) (m : positive) (j : positive) (e : Z) :
  Zpos (digits2_pos m) = 53 -> -1074 <= e -> e + Zpos j <= 971 ->
  binary_round prec emax s (Pos.iter xO m j) e
  = S754_finite s m (e + Zpos j).
Proof.
  intros Hd He1 He2. unfold binary_round, shl_align, fexp, emin.
  rewrite digits2_pos_iter_xO, Pos2Z.inj_add, Hd.
  replace (Z.max (53 + Zpos j + e - prec) (3 - emax - prec) - e)
    with (Zpos j) by (unfold prec, emax; lia).
  replace (Z.max (53 + Zpos j + e - prec) (3 - emax - prec))
    with (e + Zpos j) by (unfold prec, emax; lia).
  unfold binary_round_aux, shr_fexp, fexp, emin.
  cbn [Zdigits2 shr_record_of_loc].
  rewrite digits2_pos_iter_xO, Pos2Z.inj_add, Hd.
  replace (Z.max (53 + Zpos j + e - prec) (3 - emax - prec) - e)
    with (Zpos j) by (unfold prec, emax; lia).
  cbn [shr]. rewrite iter_shr_exact.
  cbn [round_nearest_even shr_m loc_of_shr_record Zdigits2
       shr_record_of_loc].
  rewrite Hd.
  replace (Z.max (53 + (e + Zpos j) - prec) (3 - emax - prec) - (e + Zpos j))
    with 0 by (unfold prec, emax; lia).
  cbn [shr shr_m].
  destruct (Z.leb_spec (e + Zpos j) (emax - prec)) as [|Hgt]; [done|].
  unfold emax, prec in Hgt. lia.
Qed.

(** Rounding a number of at most 53 digits that comes scaled by a power of
    two. *)
Lemma round_scaled (s : bool) (q : positive) (k : Z) :
  Zpos (digits2_pos q) <= 53 -> 0 <= k <= 1000 ->
  binary_round prec emax s (shiftlp q k) (- k) = normal s q.
Proof.
  intros Hd Hk. unfold normal.
  pose proof (digits_shiftlp q k ltac:(lia)) as Hdk.
  destruct (Z.le_gt_cases (Zpos (digits2_pos q) + k) 53) as [Hle|Hgt].
  - rewrite round_short by lia. rewrite Hdk.
    rewrite shiftlp_shiftlp by lia. f_equal; [f_equal|]; lia.
  - assert (shiftlp q k
            = Pos.iter xO (shiftlp q (53 - Zpos (digits2_pos q)))
                (Z.to_pos (Zpos (digits2_pos q) + k - 53))) as ->.
    { change (Pos.iter xO ?p ?j) with (shiftlp p (Zpos j)).
      rewrite Z2Pos.id by lia. rewrite shiftlp_shiftlp by lia.
      f_equal. lia. }
    rewrite round_long.
    + f_equal. rewrite Z2Pos.id by lia. lia.
    + rewrite digits_shiftlp by lia. lia.
    + lia.
    + rewrite Z2Pos.id by lia. lia.
Qed.

Lemma ofZ_pos (p : positive) :
  Zpos p < 2 ^ 53 -> ofZ (Zpos p) = normal false p.
Proof.
  intros Hp. unfold ofZ. cbn [binary_normalize].
  apply (round_scaled false p 0); [by apply digits_le|lia].
Qed.

Lemma ofZ_neg (p : positive) :
  Zpos p < 2 ^ 53 -> ofZ (Zneg p) = normal true p.
Proof.
  intros Hp. unfold ofZ. cbn [binary_normalize].
  apply (round_scaled true p 0); [by apply digits_le|lia].
Qed.

(** Sums of integers below [2^53] in absolute value are exact. *)
Lemma add_exact (a b : Z) :
  Z.abs a < 2 ^ 53 -> Z.abs b < 2 ^ 53 -> Z.abs (a + b) < 2 ^ 53 ->
  add (ofZ a) (ofZ b) = ofZ (a + b).
Proof.
  intros Ha Hb Hab.
  assert (forall z, Z.abs z < 2 ^ 53 -> z <> 0 ->
            exists s p, ofZ z = normal s p /\ z = cond_Zopp s (Zpos p)
                        /\ Zpos (digits2_pos p) <= 53) as Hform.
  { intros [|p|p] Hz Hnz; [done| |].
    - exists false, p. split; [apply ofZ_pos; lia|]. split; [done|].
      apply digits_le; lia.
    - exists true, p. split; [apply ofZ_neg; lia|]. split; [done|].
      apply digits_le; lia. }
  destruct (decide (a = 0)) as [->|Hnza].
  { destruct (decide (b = 0)) as [->|Hnzb]; [done|]. rewrite Z.add_0_l.
    destruct (Hform b Hb Hnzb) as (s & p & -> & _ & _). done. }
  destruct (decide (b = 0)) as [->|Hnzb].
  { rewrite Z.add_0_r. destruct (Hform a Ha Hnza) as (s & p & -> & _ & _).
    done. }
  destruct (Hform a Ha Hnza) as (sa & pa & -> & Hva & Hda).
  destruct (Hform b Hb Hnzb) as (sb & pb & -> & Hvb & Hdb).
  unfold add, normal. cbn [SFadd].
  set (da := Zpos (digits2_pos pa)) in *.
  set (db := Zpos (digits2_pos pb)) in *.
  assert (0 < da /\ 0 < db) as [Hda0 Hdb0] by (unfold da, db; lia).
  set (ez := Z.min (da - 53) (db - 53)).
  assert (forall p d, d = Zpos (digits2_pos p) -> d <= 53 -> ez <= d - 53 ->
            fst (shl_align (shiftlp p (53 - d)) (d - 53) ez)
            = shiftlp p (- ez)) as Halign.
  { intros p d Hd Hd53 Hez. unfold shl_align.
    destruct (ez - (d - 53)) as [|j|j] eqn:Hj; cbn [fst].
    - f_equal. lia.
    - lia.
    - change (Pos.iter xO ?q j) with (shiftlp q (Zpos j)).
      rewrite shiftlp_shiftlp by lia. f_equal. lia. }
  rewrite (Halign pa da eq_refl Hda ltac:(unfold ez; lia)).
  rewrite (Halign pb db eq_refl Hdb ltac:(unfold ez; lia)).
  assert (0 <= - ez <= 52) as Hez by (unfold ez; lia).
  assert (cond_Zopp sa (Zpos (shiftlp pa (- ez)))
          + cond_Zopp sb (Zpos (shiftlp pb (- ez)))
          = (a + b) * 2 ^ (- ez)) as ->.
  { rewrite !Zpos_shiftlp by lia. subst a b.
    destruct sa, sb; cbn [cond_Zopp]; lia. }
  assert (0 < 2 ^ (- ez)) as Hpow by (apply Z.pow_pos_nonneg; lia).
  destruct (a + b) as [|q|q] eqn:Hsum.
  - done.
  - assert (Zpos q * 2 ^ (- ez) = Zpos (shiftlp q (- ez))) as ->
      by (rewrite Zpos_shiftlp; lia).
    cbn [binary_normalize].
    pose proof (round_scaled false q (- ez)) as Hr.
    rewrite Z.opp_involutive in Hr. rewrite Hr; [|apply digits_le|]; try lia.
    symmetry. apply ofZ_pos. lia.
  - assert (Zneg q * 2 ^ (- ez) = Zneg (shiftlp q (- ez))) as ->.
    { rewrite <- (Pos2Z.opp_pos (shiftlp q (- ez))), Zpos_shiftlp by lia.
      lia. }
    cbn [binary_normalize].
    pose proof (round_scaled true q (- ez)) as Hr.
    rewrite Z.opp_involutive in Hr. rewrite Hr; [|apply digits_le|]; try lia.
    symmetry. apply ofZ_neg. lia.
Qed.

Lemma abs_exact (a : Z) :
  Z.abs a < 2 ^ 53 -> SFabs (ofZ a) = ofZ (Z.abs a).
Proof.
  intros Ha. destruct a as [|p|p]; [done| |].
  - change (Z.abs (Z.pos p)) with (Z.pos p) in *.
    rewrite ofZ_pos by lia. done.
  - change (Z.abs (Z.neg p)) with (Z.pos p) in *.
    rewrite ofZ_neg, ofZ_pos by lia. done.
Qed.

Lemma lt_zero (a : Z) :
  Z.abs a < 2 ^ 53 -> lt (ofZ a) (ofZ 0) = (a <? 0).
Proof.
  intros Ha. destruct a as [|p|p]; [done| |].
  - rewrite ofZ_pos by lia. done.
  - rewrite ofZ_neg by lia. done.
Qed.

Lemma lt_exact (a b : Z) :
  0 <= a -> a < b -> b < 2 ^ 53 -> lt (ofZ a) (ofZ b) = true.
Proof.
  intros Ha Hab Hb. destruct b as [|q|q]; [lia| |lia].
  rewrite (ofZ_pos q) by lia.
  destruct a as [|p|p]; [done| |lia].
  rewrite (ofZ_pos p) by lia. unfold lt, SFltb, normal. cbn [SFcompare].
  pose proof (digits_mono p q ltac:(lia)) as Hd.
  pose proof (digits_le q 53 ltac:(lia) Hb) as Hq.
  destruct (Z.compare_spec (Zpos (digits2_pos p) - 53)
              (Zpos (digits2_pos q) - 53)) as [Heq|Hlt|Hgt]; [|done|lia].
  assert (Zpos (digits2_pos p) = Zpos (digits2_pos q)) as Hpq by lia.
  rewrite Hpq. change (Pos.compare_cont Eq ?x ?y) with (x ?= y)%positive.
  assert (shiftlp p (53 - Zpos (digits2_pos q))
          < shiftlp q (53 - Zpos (digits2_pos q)))%positive as Hlt.
  { assert (Z.pos (shiftlp p (53 - Zpos (digits2_pos q)))
            < Z.pos (shiftlp q (53 - Zpos (digits2_pos q)))); [|lia].
    rewrite !Zpos_shiftlp by lia.
    apply Z.mul_lt_mono_pos_r; [apply Z.pow_pos_nonneg; lia|lia]. }
  apply Pos.compare_lt_iff in Hlt. by rewrite Hlt.
Qed.

Lemma ofZ_inj (a b : Z) :
  Z.abs a < 2 ^ 53 -> Z.abs b < 2 ^ 53 -> ofZ a = ofZ b -> a = b.
Proof.
  assert (forall s p, Zpos p < 2 ^ 53 ->
            forall s' p', Zpos p' < 2 ^ 53 ->
              normal s p = normal s' p' -> s = s' /\ p = p') as Hn.
  { intros s p Hp s' p' Hp'. unfold normal. intros [= -> Hm He].
    split; [done|]. assert (Zpos (digits2_pos p) = Zpos (digits2_pos p'))
      as Hd by lia. rewrite Hd in Hm.
    pose proof (digits_le p' 53 ltac:(lia) Hp').
    apply (f_equal Zpos) in Hm. rewrite !Zpos_shiftlp in Hm by lia.
    apply Z.mul_cancel_r in Hm; [lia|].
    apply Z.pow_nonzero; lia. }
  intros Ha Hb.
  destruct a as [|p|p], b as [|q|q]; try done;
    rewrite ?ofZ_pos, ?ofZ_neg by lia; try done;
    intros Heq; apply Hn in Heq as [? ?]; try lia; congruence.
Qed.

Lemma toInteger_Some (x : number) (z : Z) :
  toInteger x = Some z -> x = ofZ z /\ Z.abs z < 2 ^ 53.
Proof.
  unfold toInteger. destruct x as [[|]| | |s m e]; try done.
  - intros [= <-]. split; [done|]. by apply Z.pow_pos_nonneg.
  - destruct (bool_decide _) eqn:Hd; [|done].
    destruct (Z.ltb_spec (Z.abs (cond_Zopp s (Z.shiftl (Z.pos m) e)))
                (2 ^ 53)) as [Hlt|]; [|done].
    cbn. intros [= <-]. apply bool_decide_eq_true in Hd. done.
Qed.

(** ** Decoded techniques *)

Lemma decode_foldl_lookup (l : list (string * PropValue))
    (acc : gmap string PropValue) (k : string) :
  NoDup l.*1 ->
  foldl decodeStep acc l !! k =
    match (list_to_map l : gmap string PropValue) !! k with
    | Some v => if instanceofExpr v then acc !! k else Some v
    | None => acc !! k
    end.
Proof.
  revert acc. induction l as [|[k' v] l IH]; intros acc Hnd; [done|].
  apply NoDup_cons in Hnd as [Hk' Hnd].
  cbn [foldl list_to_map foldr uncurry]. rewrite IH by done.
  destruct (decide (k' = k)) as [->|Hne].
  - rewrite lookup_insert_eq.
    rewrite (not_elem_of_list_to_map_1 l k) by done.
    unfold decodeStep. cbn.
    destruct (instanceofExpr v); [done|]. by rewrite lookup_insert_eq.
  - rewrite lookup_insert_ne by done.
    assert (decodeStep acc (k', v) !! k = acc !! k) as ->; [|done].
    unfold decodeStep. cbn. destruct (instanceofExpr v); [done|].
    by rewrite lookup_insert_ne.
Qed.

(** C9.  [makeDecodedTechnique] keeps exactly the own properties of the
    technique whose value is not an [Expr] instance, each with the value it
    had; a property whose value is an [Expr] instance is absent from the
    result. *)
Theorem makeDecodedTechnique_lookup (technique : IndexedTechnique)
    (attrName : string) :
  makeDecodedTechnique technique !! attrName =
    match technique !! attrName with
    | Some attrValue =>
        if instanceofExpr attrValue then None else Some attrValue
    | None => None
    end.
Proof.
  unfold makeDecodedTechnique.
  rewrite decode_foldl_lookup by apply NoDup_fst_map_to_list.
  rewrite list_to_map_to_list, lookup_empty. done.
Qed.

(** ** The technique list *)

Lemma grows_refl ts : grows ts ts.
Proof. split; [reflexivity|tauto]. Qed.

Lemma grows_trans ts1 ts2 ts3 : grows ts1 ts2 -> grows ts2 ts3 -> grows ts1 ts3.
Proof. intros [? ?] [? ?]. split; [by etrans|tauto]. Qed.

Lemma buildTechnique_index s p dynamicAttrs n :
  techniqueIndex (buildTechnique s p dynamicAttrs n) = Some (Z.of_nat n).
Proof.
  unfold techniqueIndex, buildTechnique.
  rewrite lookup_insert_ne by done. by rewrite lookup_insert_eq.
Qed.

Lemma createTechnique_grows s p dynamicAttrs ts :
  grows ts (createTechnique s p dynamicAttrs ts).2.
Proof.
  unfold createTechnique. cbn. split; [by apply prefix_app_r|].
  intros Hix i t Hi. destruct (decide (i < length ts)%nat) as [Hlt|Hge].
  - rewrite lookup_app_l in Hi by done. by apply Hix.
  - rewrite lookup_app_r in Hi by lia.
    destruct (i - length ts)%nat as [|k] eqn:Hk; [|done].
    cbn in Hi. simplify_eq. rewrite buildTechnique_index.
    do 2 f_equal. lia.
Qed.

(** A property of the state that every iteration maintains is maintained
    by the loop. *)
Lemma untilTrue_preserves {A S E : Type} (R : S -> S -> Prop)
    (body : A -> S -> A * S * Outcome E bool) (l : list A) :
  (forall st, R st st) ->
  (forall st1 st2 st3, R st1 st2 -> R st2 st3 -> R st1 st3) ->
  Forall (fun x => forall st, R st (body x st).1.2) l ->
  forall st, R st (untilTrue body l st).1.2.
Proof.
  intros Hrefl Htrans. induction 1 as [|x rest Hx _ IH]; intros st.
  - apply Hrefl.
  - cbn. specialize (Hx st). destruct (body x st) as [[x' st1] [[]|e]]; cbn in *.
    + done.
    + specialize (IH st1). destruct (untilTrue body rest st1) as [[rest' st2] o].
      cbn in *. by eapply Htrans.
    + done.
Qed.

Lemma checkWhen_techniques env s p st :
  w_techniques (checkWhen env s p st).1.2 = w_techniques st.
Proof.
  unfold checkWhen. destruct (when s) as [w|]; [|done].
  destruct (tryWhen env w p) as [p1 [b|err]]; done.
Qed.

Lemma applyTechnique_grows env s p styleStack st :
  grows (w_techniques st) (w_techniques (applyTechnique env s p styleStack st).1.2).
Proof.
  unfold applyTechnique.
  destruct (checkStyleDynamicAttributes s p styleStack) as [p1 [[]|err]];
    cbn; [|apply grows_refl].
  destruct (_dynamicTechniques p1) as [cache|].
  - destruct (evaluateTechniqueProperties p1 env) as [attrs|err];
      cbn; [|apply grows_refl].
    destruct (cache !! _) as [t|]; cbn; [apply grows_refl|].
    apply createTechnique_grows.
  - destruct (_staticTechnique p1) as [t|]; cbn; [apply grows_refl|].
    apply createTechnique_grows.
Qed.

Lemma processStyle_grows env style :
  forall styleStack st,
    grows (w_techniques st)
          (w_techniques (processStyle env styleStack style st).1.2).
Proof.
  induction style as [s p|s p l IH] using InternalStyle_tree_ind;
    intros styleStack st; cbn [processStyle];
    pose proof (checkWhen_techniques env s p st) as Hw;
    destruct (checkWhen env s p st) as [[p1 st1] [|]]; cbn in Hw;
    rewrite <- Hw; try apply grows_refl.
  - destruct (technique s) as [name|]; [|apply grows_refl].
    destruct (isNone_technique (Some name)); [apply grows_refl|].
    pose proof (applyTechnique_grows env s p1 styleStack st1) as Ha.
    destruct (applyTechnique env s p1 styleStack st1) as [[p2 st2] [[]|err]];
      exact Ha.
  - pose proof (untilTrue_preserves
                  (fun a b => grows (w_techniques a) (w_techniques b))
                  (processStyle env (styleStack ++ [s])) l
                  (fun st => grows_refl _)
                  (fun a b c => grows_trans _ _ _)) as Hloop.
    specialize (Hloop (Forall_impl _ _ _ IH (fun x Hx => Hx _)) st1).
    destruct (untilTrue _ l st1) as [[l' st2] o]. exact Hloop.
Qed.

Lemma getMatchingTechniques_grows env ev :
  grows (m_techniques ev) (m_techniques (getMatchingTechniques env ev).1.1).
Proof.
  unfold getMatchingTechniques, processStyles.
  pose proof (untilTrue_preserves
                (fun a b => grows (w_techniques a) (w_techniques b))
                (processStyle env []) (styleSet ev)
                (fun st => grows_refl _)
                (fun a b c => grows_trans _ _ _)) as Hloop.
  specialize (Hloop (Forall_true _ _ (fun x => processStyle_grows env x []))
                (mkWalk (m_techniques ev) [] [])).
  destruct (untilTrue _ _ _) as [[tree st] o]. exact Hloop.
Qed.

Lemma afterCalls_grows envs : forall ev,
  grows (m_techniques ev) (m_techniques (afterCalls envs ev)).
Proof.
  induction envs as [|env envs IH]; intros ev; [apply grows_refl|].
  cbn. eapply grows_trans; [apply getMatchingTechniques_grows|apply IH].
Qed.

Lemma new_StyleSetEvaluator_techniques input ev :
  new_StyleSetEvaluator input = Some ev -> m_techniques ev = [].
Proof.
  unfold new_StyleSetEvaluator. destruct (mapM cloneStyle input); [|done].
  destruct (forEach _ _ _). by intros [= <-].
Qed.

(** C8.  Take an evaluator as built by the constructor and then used for
    any sequence of [getMatchingTechniques] calls.  A technique created now
    gets the current length of the technique list as its [_index] and is
    appended to the list; one more call only appends to the list; and in the
    list after that call the technique at position [i] carries [_index = i].
    Hence an [_index] never changes, grows with the order of creation and
    is never given twice. *)
Theorem technique_index_stable (input : list StyleDeclaration)
    (ev0 : StyleSetEvaluator) (envs : list MapEnv) (env : MapEnv) :
  new_StyleSetEvaluator input = Some ev0 ->
  let ev := afterCalls envs ev0 in
  let ev' := (getMatchingTechniques env ev).1.1 in
  (forall s p dynamicAttrs,
      let created := createTechnique s p dynamicAttrs (m_techniques ev) in
      techniqueIndex created.1 = Some (Z.of_nat (length (m_techniques ev)))
      /\ created.2 = m_techniques ev ++ [created.1])
  /\ (exists appended, m_techniques ev' = m_techniques ev ++ appended)
  /\ (forall i t, m_techniques ev' !! i = Some t ->
        techniqueIndex t = Some (Z.of_nat i))
  /\ (forall i j ti tj,
        m_techniques ev' !! i = Some ti -> m_techniques ev' !! j = Some tj ->
        (i < j)%nat ->
        exists a b, techniqueIndex ti = Some a /\ techniqueIndex tj = Some b
                    /\ a < b).
Proof.
  intros Hnew ev ev'.
  assert (indexed (m_techniques ev')) as Hix.
  { pose proof (afterCalls_grows envs ev0) as [_ H1].
    pose proof (getMatchingTechniques_grows env ev) as [_ H2].
    apply H2, H1. rewrite (new_StyleSetEvaluator_techniques _ _ Hnew).
    intros i t Hi. done. }
  split; [|split; [|split]].
  - intros s p dynamicAttrs. cbn. split; [|done].
    apply buildTechnique_index.
  - destruct (getMatchingTechniques_grows env ev) as [[k Hk] _]. by exists k.
  - exact Hix.
  - intros i j ti tj Hi Hj Hlt. exists (Z.of_nat i), (Z.of_nat j).
    split; [by apply Hix|]. split; [by apply Hix|]. lia.
Qed.

(** ** Render orders: the constructor as a pass over the rules in pre-order *)

Lemma forEach_app {A S : Type} (body : A -> S -> A * S) (l1 l2 : list A)
    (c : S) :
  forEach body (l1 ++ l2) c =
    let '(l1', c1) := forEach body l1 c in
    let '(l2', c2) := forEach body l2 c1 in
    (l1' ++ l2', c2).
Proof.
  revert c. induction l1 as [|x l1 IH]; intros c; cbn.
  - by destruct (forEach body l2 c).
  - destruct (body x c) as [x' c1]. rewrite IH.
    destruct (forEach body l1 c1) as [l1' c2].
    by destruct (forEach body l2 c2).
Qed.

Lemma forEach_length {A S : Type} (body : A -> S -> A * S) (l : list A)
    (c : S) :
  length (forEach body l c).1 = length l.
Proof.
  revert c. induction l as [|x l IH]; intros c; cbn; [done|].
  destruct (body x c) as [x' c1]. specialize (IH c1).
  destruct (forEach body l c1). cbn in *. by rewrite IH.
Qed.

Lemma assignLeaf_params s p c :
  (assignLeaf s p c).1.1 = (assignLeaf s noParams c).1.1
  /\ (assignLeaf s p c).2 = (assignLeaf s noParams c).2.
Proof.
  unfold assignLeaf. by destruct (technique s), (renderOrder s).
Qed.

Lemma forEach_bind (body : InternalStyle -> CtorState -> InternalStyle * CtorState)
    (l : list InternalStyle) :
  Forall (fun x => forall c,
            forEach ruleStep (rulesOf x) c
            = (rulesOf (body x c).1, (body x c).2)) l ->
  forall c,
    forEach ruleStep (l ≫= rulesOf) c
    = ((forEach body l c).1 ≫= rulesOf, (forEach body l c).2).
Proof.
  induction 1 as [|x l Hx _ IH]; intros c; [done|].
  cbn [mbind list_bind]. change (list_bind _ _ rulesOf l) with (l ≫= rulesOf).
  rewrite forEach_app, Hx. cbn [forEach].
  destruct (body x c) as [x' c1]. cbn. rewrite IH.
  by destruct (forEach body l c1).
Qed.

Lemma computeDefaultRenderOrder_rules (x : InternalStyle) :
  forall c,
    forEach ruleStep (rulesOf x) c
    = (rulesOf (computeDefaultRenderOrder x c).1,
       (computeDefaultRenderOrder x c).2).
Proof.
  induction x as [s p|s p l IH] using InternalStyle_tree_ind; intros c.
  - cbn. unfold ruleStep. cbn.
    destruct (applyRenderOrderBias s c) as [s1 c1].
    destruct (assignLeaf_params s1 p c1) as [H1 H2].
    destruct (assignLeaf s1 p c1) as [[s2 p2] c2].
    destruct (assignLeaf s1 noParams c1) as [[s2' p2'] c2'].
    cbn in *. by subst.
  - cbn. unfold ruleStep at 1. cbn.
    destruct (applyRenderOrderBias s c) as [s1 c1].
    rewrite (forEach_bind computeDefaultRenderOrder l IH).
    by destruct (forEach computeDefaultRenderOrder l c1).
Qed.

Lemma cloneStyle_rules (d : StyleDeclaration) :
  declaredRules d = from_option rulesOf [] (cloneStyle d).
Proof.
  revert d. fix IH 1. intros [name|s [l|]]; [done| |done].
  cbn. f_equal. induction l as [|d l IHl]; [done|].
  cbn [mbind list_bind omap list_omap].
  change (list_bind _ _ declaredRules l) with (l ≫= declaredRules).
  change (list_omap _ _ cloneStyle l) with (omap cloneStyle l).
  rewrite IHl, (IH d). by destruct (cloneStyle d).
Qed.

Lemma mapM_cloneStyle_rules (input : list StyleDeclaration)
    (cloned : list InternalStyle) :
  mapM cloneStyle input = Some cloned ->
  styleSetRules input = cloned ≫= rulesOf.
Proof.
  revert cloned. induction input as [|d input IH]; intros cloned.
  - by intros [= <-].
  - cbn. destruct (cloneStyle d) as [x|] eqn:Hd; [|done]. cbn.
    destruct (mapM cloneStyle input) as [rest|]; [|done].
    intros [= <-]. cbn. unfold styleSetRules in *. cbn.
    rewrite (IH rest eq_refl), cloneStyle_rules, Hd. done.
Qed.

(** The resolved rules of a new evaluator are the result of running
    [ruleStep] over its declared rules, starting with both counters at
    zero and no group recorded. *)
Lemma new_StyleSetEvaluator_rules (input : list StyleDeclaration)
    (ev : StyleSetEvaluator) :
  new_StyleSetEvaluator input = Some ev ->
  forEach ruleStep (styleSetRules input) initialCtor
  = (resolvedRules ev,
     mkCtor (forEach ruleStep (styleSetRules input) initialCtor).2.(techniqueRenderOrder)
            (forEach ruleStep (styleSetRules input) initialCtor).2.(styleSetIndex)
            (m_renderOrderBiasGroups ev)
            (forEach ruleStep (styleSetRules input) initialCtor).2.(warned)).
Proof.
  unfold new_StyleSetEvaluator.
  destruct (mapM cloneStyle input) as [cloned|] eqn:Hc; [|done].
  rewrite (mapM_cloneStyle_rules _ _ Hc).
  rewrite (forEach_bind computeDefaultRenderOrder cloned)
    by (apply Forall_true, computeDefaultRenderOrder_rules).
  destruct (forEach computeDefaultRenderOrder cloned initialCtor) as [tree c].
  intros [= <-]. cbn. by destruct c.
Qed.

(** ** Render orders assigned from the counter *)

Lemma integerRange_Some (r : bool * Style) (a b : Z) :
  integerRange r = Some (a, b) ->
  renderOrderBiasRange r.2 = Some (ofZ a, ofZ b)
  /\ Z.abs a < 2 ^ 53 /\ Z.abs b < 2 ^ 53.
Proof.
  unfold integerRange.
  destruct (renderOrderBiasRange r.2) as [[mn mx]|]; [|done].
  destruct (toInteger mn) as [a'|] eqn:Ha; [|done].
  destruct (toInteger mx) as [b'|] eqn:Hb; [|done].
  intros [= <- <-].
  apply toInteger_Some in Ha as [-> ?], Hb as [-> ?]. done.
Qed.

Lemma counterCost_nonneg (r : bool * Style) : 0 <= counterCost r.
Proof.
  unfold counterCost. destruct (integerRange r) as [[a b]|], r.1; lia.
Qed.

Lemma counterBudget_nonneg (l : list (bool * Style)) : 0 <= counterBudget l.
Proof.
  induction l as [|r l IH]; cbn [counterBudget foldr]; [lia|].
  fold (counterBudget l). pose proof (counterCost_nonneg r). lia.
Qed.

(** The bias step keeps the counter an integer that is computed exactly,
    and never takes it back. *)
Lemma applyRenderOrderBias_exact (s : Style) (c : CtorState) (cz : Z) :
  wellFormedRange (false, s) = true ->
  techniqueRenderOrder c = ofZ cz -> 0 <= cz ->
  cz + counterCost (false, s) < 2 ^ 53 ->
  exists cz1,
    techniqueRenderOrder (applyRenderOrderBias s c).2 = ofZ cz1
    /\ cz <= cz1 <= cz + counterCost (false, s).
Proof.
  intros Hwf Hc Hcz Hbound.
  pose proof (counterCost_nonneg (false, s)) as Hcost.
  unfold applyRenderOrderBias.
  destruct (renderOrderBiasGroup s) as [g|]; [|exists cz; split; [done|lia]].
  unfold wellFormedRange in Hwf. cbn [snd] in Hwf.
  destruct (renderOrderBiasRange s) as [[mn mx]|] eqn:Hrange;
    destruct (if nonEmpty g then _ else _) as [o|];
    try destruct (ToBoolean o); try (exists cz; split; [done|lia]).
  destruct (integerRange (false, s)) as [[a b]|] eqn:Hint; [|done].
  apply Z.leb_le in Hwf.
  destruct (integerRange_Some _ _ _ Hint) as (Hr & Ha & Hb).
  cbn [snd] in Hr. rewrite Hrange in Hr. injection Hr as -> ->.
  unfold counterCost in Hbound, Hcost |- *. rewrite Hint in *.
  cbn [fst] in *. cbn [snd techniqueRenderOrder]. rewrite Hc.
  unfold Math_abs. rewrite abs_exact by done.
  rewrite (add_exact (Z.abs a) b) by lia.
  rewrite (add_exact cz (Z.abs a + b)) by lia.
  rewrite (add_exact (cz + (Z.abs a + b)) 1) by lia.
  eexists. split; [done|]. lia.
Qed.

(** One rule: the counter stays exact, a rule numbered from the counter
    gets its value and moves it on by one, and an order the leaf branch
    takes from the counter lies between the counter before and after. *)
Lemma ruleStep_exact (r : bool * Style) (c : CtorState) (cz : Z) :
  wellFormedRange r = true ->
  techniqueRenderOrder c = ofZ cz -> 0 <= cz ->
  cz + counterCost r < 2 ^ 53 ->
  exists cz',
    techniqueRenderOrder (ruleStep r c).2 = ofZ cz'
    /\ cz <= cz' <= cz + counterCost r
    /\ (autoAssignable r = true ->
        renderOrder (ruleStep r c).1.2 = Some (ofZ cz) /\ cz' = cz + 1)
    /\ (forall x, fromCounter r c = Some x ->
          exists z, x = ofZ z /\ cz <= z < cz').
Proof.
  destruct r as [leaf s]. intros Hwf Hc Hcz Hbound.
  assert (counterCost (leaf, s)
          = counterCost (false, s) + (if leaf then 1 else 0)) as Hcost.
  { unfold counterCost, integerRange. cbn [fst snd]. destruct leaf; lia. }
  rewrite Hcost in *.
  destruct (applyRenderOrderBias_exact s c cz Hwf Hc Hcz
              ltac:(destruct leaf; lia)) as (cz1 & Hc1 & Hcz1).
  assert (renderOrderBiasGroup s = None -> applyRenderOrderBias s c = (s, c))
    as Hnone by (unfold applyRenderOrderBias; by intros ->).
  unfold ruleStep, fromCounter, autoAssignable. cbn [fst snd].
  destruct (applyRenderOrderBias s c) as [s1 c1] eqn:Hbias. cbn [snd] in Hc1.
  destruct leaf.
  2:{ exists cz1. cbn. repeat split; try lia; done. }
  unfold assignLeaf.
  destruct (technique s1) as [name|] eqn:Ht1;
    [destruct (renderOrder s1) as [o|] eqn:Hr1|]; cbn [fst snd].
  - exists cz1. split; [done|]. split; [lia|]. split; [|done].
    destruct (technique s); [|done]. destruct (renderOrder s) eqn:Hr; [done|].
    destruct (renderOrderBiasGroup s) eqn:Hg; [done|].
    injection (Hnone eq_refl) as -> ->. congruence.
  - exists (cz1 + 1). cbn [techniqueRenderOrder]. rewrite Hc1.
    rewrite (add_exact cz1 1) by lia. split; [done|]. split; [lia|]. split.
    + destruct (technique s); [|done]. destruct (renderOrder s); [done|].
      destruct (renderOrderBiasGroup s) eqn:Hg; [done|]. intros _.
      injection (Hnone eq_refl) as -> ->.
      rewrite Hc in Hc1. apply ofZ_inj in Hc1; [|lia|lia]. subst cz1.
      by cbn.
    + intros x [= <-]. exists cz1. split; [done|]. lia.
  - exists cz1. split; [done|]. split; [lia|]. split; [|done].
    destruct (technique s) eqn:Ht; [|done].
    destruct (renderOrder s); [done|].
    destruct (renderOrderBiasGroup s) eqn:Hg; [done|].
    injection (Hnone eq_refl) as -> ->. congruence.
Qed.

Lemma forEach_ruleStep_exact (l : list (bool * Style)) :
  Forall (fun r => wellFormedRange r = true) l ->
  forall c cz,
    techniqueRenderOrder c = ofZ cz -> 0 <= cz ->
    cz + counterBudget l < 2 ^ 53 ->
    exists cz',
      techniqueRenderOrder (forEach ruleStep l c).2 = ofZ cz'
      /\ cz <= cz' <= cz + counterBudget l
      /\ (exists zs,
            autoAssigned l (forEach ruleStep l c).1 = Some ∘ ofZ <$> zs
            /\ StronglySorted Z.lt zs
            /\ Forall (fun z => cz <= z < cz') zs)
      /\ Forall (fun o => forall x, o = Some x ->
                   exists z, x = ofZ z /\ cz <= z < cz')
                (countedOrders l c).
Proof.
  induction 1 as [|r l Hr _ IH]; intros c cz Hc Hcz Hbound.
  - exists cz. cbn. split; [done|]. split; [lia|]. split; [|constructor].
    exists []. repeat split; constructor.
  - cbn [forEach countedOrders counterBudget foldr] in *.
    fold (counterBudget l) in *.
    pose proof (counterBudget_nonneg l) as Hl.
    destruct (ruleStep_exact r c cz Hr Hc Hcz ltac:(lia))
      as (cz1 & Hc1 & Hcz1 & Hauto & Hcount).
    destruct (ruleStep r c) as [r' c1]. cbn [fst snd] in *.
    destruct (IH c1 cz1 Hc1 ltac:(lia) ltac:(lia))
      as (cz2 & Hc2 & Hcz2 & (zs & Hzs & Hsorted & Hzb) & Hrest).
    destruct (forEach ruleStep l c1) as [l' c2]. cbn [fst snd] in *.
    exists cz2. split; [done|]. split; [lia|]. split.
    + unfold autoAssigned in *. cbn [zip zip_with omap list_omap].
      change (list_omap _ _ ?f ?l) with (omap f l).
      cbn [fst snd]. destruct (autoAssignable r).
      * destruct (Hauto eq_refl) as [Hro ->]. exists (cz :: zs).
        rewrite Hzs, Hro. split; [done|]. split.
        -- constructor; [done|]. eapply Forall_impl; [exact Hzb|].
           cbn. intros z Hz. lia.
        -- constructor; [lia|]. eapply Forall_impl; [exact Hzb|].
           cbn. intros z Hz. lia.
      * exists zs. split; [done|]. split; [done|].
        eapply Forall_impl; [exact Hzb|]. cbn. intros z Hz. lia.
    + constructor.
      * intros x Hx. destruct (Hcount x Hx) as (z & -> & Hz).
        exists z. split; [done|]. lia.
      * eapply Forall_impl; [exact Hrest|]. cbn.
        intros o Ho x Hx. destruct (Ho x Hx) as (z & -> & Hz).
        exists z. split; [done|]. lia.
Qed.

Lemma isInteger_ofZ (z : Z) : 0 <= z < 2 ^ 53 -> isInteger (ofZ z).
Proof.
  intros Hz. destruct z as [|p|p]; [by exists 0| |lia].
  rewrite ofZ_pos by lia. cbn. exists (Z.pos p). by rewrite ofZ_pos by lia.
Qed.

Lemma increasing_integers (zs : list Z) :
  StronglySorted Z.lt zs -> Forall (fun z => 0 <= z < 2 ^ 53) zs ->
  Forall isInteger (ofZ <$> zs)
  /\ StronglySorted (fun x y => lt x y = true) (ofZ <$> zs).
Proof.
  induction 1 as [|z zs Hs IH Hz]; intros Hb; [split; constructor|].
  apply Forall_cons in Hb as [Hzb Hb]. destruct (IH Hb) as [H1 H2].
  cbn. split; constructor; try done.
  - by apply isInteger_ofZ.
  - apply Forall_fmap. rewrite Forall_forall in Hz, Hb |- *.
    intros y Hy. cbn. specialize (Hz y Hy). specialize (Hb y Hy).
    apply lt_exact; lia.
Qed.

(** C2, amended.  Let every [renderOrderBiasRange] of the style set have
    integer bounds with [|min| + max >= -1] (as every range with
    [min <= max] has), and let the number of leaf rules plus the sum of
    [|min| + |max| + 1] over the ranges stay below [2^53], so that every
    number the counter takes is an integer that binary64 represents
    exactly.  Then the render orders the constructor assigns to the leaf
    rules that have a technique, no [renderOrder] of their own and no
    [renderOrderBiasGroup] are integers that strictly increase in
    pre-order. *)
Theorem autoAssigned_strictly_increasing (input : list StyleDeclaration)
    (ev : StyleSetEvaluator) :
  Forall (fun r => wellFormedRange r = true) (styleSetRules input) ->
  counterBudget (styleSetRules input) < 2 ^ 53 ->
  new_StyleSetEvaluator input = Some ev ->
  strictlyIncreasingIntegers
    (autoAssigned (styleSetRules input) (resolvedRules ev))
  /\ exists zs,
       autoAssigned (styleSetRules input) (resolvedRules ev)
       = Some ∘ ofZ <$> zs
       /\ StronglySorted Z.lt zs
       /\ Forall (fun z => 0 <= z < 2 ^ 53) zs.
Proof.
  intros Hwf Hbudget Hnew.
  destruct (forEach_ruleStep_exact _ Hwf initialCtor 0 eq_refl ltac:(lia)
              ltac:(lia)) as (cz' & _ & Hcz' & (zs & Hzs & Hs & Hb) & _).
  rewrite (new_StyleSetEvaluator_rules _ _ Hnew) in Hzs. cbn in Hzs.
  assert (Forall (fun z => 0 <= z < 2 ^ 53) zs) as Hb'.
  { eapply Forall_impl; [exact Hb|]. cbn. intros z Hz. lia. }
  destruct (increasing_integers zs Hs Hb') as [H1 H2].
  split; [|by exists zs].
  exists (ofZ <$> zs). rewrite Hzs. split; [|done].
  by rewrite <- list_fmap_compose.
Qed.

(** A range with integer bounds [min <= max] is well formed in the sense
    above. *)
Lemma ordered_range_wellFormed (r : bool * Style) (minRange maxRange : Z) :
  integerRange r = Some (minRange, maxRange) ->
  minRange <= maxRange -> wellFormedRange r = true.
Proof.
  unfold wellFormedRange. intros Hint Hle.
  destruct (integerRange_Some _ _ _ Hint) as (-> & _ & _). rewrite Hint.
  apply Z.leb_le. lia.
Qed.

(** ** Render-order bias groups *)

Lemma nonEmpty_true (g : string) : g <> "" -> nonEmpty g = true.
Proof.
  intros Hg. unfold nonEmpty. destruct (String.eqb_spec g ""); done.
Qed.

Lemma ruleStep_group (r : bool * Style) (c : CtorState) :
  renderOrderBiasGroup (ruleStep r c).1.2 = renderOrderBiasGroup r.2.
Proof.
  destruct r as [leaf s]. unfold ruleStep, applyRenderOrderBias. cbn.
  assert (forall s1 c1, renderOrderBiasGroup s1 = renderOrderBiasGroup s ->
            renderOrderBiasGroup
              (let '(s2, _, c2) := assignLeaf s1 noParams c1 in
               ((true, s2), c2)).1.2 = renderOrderBiasGroup s) as Hleaf.
  { intros s1 c1 <-. unfold assignLeaf.
    by destruct (technique s1), (renderOrder s1). }
  destruct (renderOrderBiasGroup s) as [g|] eqn:Hg.
  - destruct (renderOrderBiasRange s) as [[mn mx]|];
      destruct (if nonEmpty g then _ else _) as [o|];
      try destruct (ToBoolean o); destruct leaf; cbn; try done;
      by apply Hleaf.
  - destruct leaf; cbn; [by apply Hleaf|done].
Qed.

(** Once a non-empty group is recorded, its entry stays, and a rule of the
    group takes the recorded order when that order is truthy (neither zero
    nor NaN). *)
Lemma ruleStep_recorded (g : string) (n : number) (r : bool * Style)
    (c : CtorState) :
  g <> "" ->
  renderOrderBiasGroups c !! g = Some n ->
  renderOrderBiasGroups (ruleStep r c).2 !! g = Some n
  /\ (ToBoolean n = true -> inGroup g r ->
      renderOrder (ruleStep r c).1.2 = Some n).
Proof.
  intros Hg Hn. destruct r as [leaf s]. unfold inGroup, ruleStep. cbn.
  assert (forall s1 c1 o,
            renderOrderBiasGroups c1 !! g = Some n ->
            renderOrder s1 = Some o ->
            let out := (let '(s2, _, c2) := assignLeaf s1 noParams c1 in
                        ((true, s2), c2)) in
            renderOrderBiasGroups out.2 !! g = Some n
            /\ renderOrder out.1.2 = Some o) as Hleaf.
  { intros s1 c1 o Hc1 Ho. unfold assignLeaf. rewrite Ho.
    by destruct (technique s1). }
  assert (forall s1 c1,
            renderOrderBiasGroups c1 !! g = Some n ->
            renderOrderBiasGroups
              (let '(s2, _, c2) := assignLeaf s1 noParams c1 in
               ((true, s2), c2)).2 !! g = Some n) as Hleaf'.
  { intros s1 c1 Hc1. unfold assignLeaf.
    by destruct (technique s1), (renderOrder s1). }
  unfold applyRenderOrderBias.
  destruct (renderOrderBiasGroup s) as [g'|] eqn:Hg'.
  2:{ destruct leaf; cbn; [|done]. split; [by apply Hleaf'|done]. }
  destruct (decide (g' = g)) as [->|Hne].
  - rewrite (nonEmpty_true g Hg), Hn.
    destruct (renderOrderBiasRange s) as [[mn mx]|];
      (destruct (ToBoolean n) eqn:Hn0;
       [|destruct leaf; cbn; [split; [by apply Hleaf'|done]|done]]);
      (destruct leaf; cbn;
       [destruct (Hleaf (set_renderOrder (Some n) s)
                    (mkCtor (techniqueRenderOrder c) (styleSetIndex c)
                       (renderOrderBiasGroups c)
                       (warnOverridden s (warned c))) n Hn eq_refl);
        done|done]).
  - assert (forall v, (if nonEmpty g'
                       then <[g' := v]> (renderOrderBiasGroups c)
                       else renderOrderBiasGroups c) !! g = Some n) as Hins.
    { intros v. destruct (nonEmpty g'); [|done].
      by rewrite lookup_insert_ne. }
    split; [|congruence].
    destruct (renderOrderBiasRange s) as [[mn mx]|];
      destruct (if nonEmpty g' then renderOrderBiasGroups c !! g' else None)
        as [o|];
      try destruct (ToBoolean o); destruct leaf; cbn;
      try done; try (by apply Hleaf'); try apply Hins.
    all: apply Hleaf'; cbn; apply Hins.
Qed.

(** While a non-empty group is not recorded, a rule outside the group
    leaves it unrecorded, and a rule of the group that has a range records
    the order it is given. *)
Lemma ruleStep_fresh (g : string) (r : bool * Style) (c : CtorState) :
  g <> "" ->
  renderOrderBiasGroups c !! g = None ->
  (~ inGroup g r -> renderOrderBiasGroups (ruleStep r c).2 !! g = None)
  /\ (inGroup g r -> renderOrderBiasRange r.2 <> None ->
      exists n, renderOrderBiasGroups (ruleStep r c).2 !! g = Some n
                /\ renderOrder (ruleStep r c).1.2 = Some n).
Proof.
  intros Hg Hn. destruct r as [leaf s]. unfold inGroup, ruleStep. cbn.
  assert (forall s1 c1,
            renderOrderBiasGroups
              (let '(s2, _, c2) := assignLeaf s1 noParams c1 in
               ((true, s2), c2)).2 = renderOrderBiasGroups c1) as Hleaf.
  { intros s1 c1. unfold assignLeaf.
    by destruct (technique s1), (renderOrder s1). }
  assert (forall s1 c1 o,
            renderOrder s1 = Some o ->
            renderOrder
              (let '(s2, _, c2) := assignLeaf s1 noParams c1 in
               ((true, s2), c2)).1.2 = Some o) as Hleaf'.
  { intros s1 c1 o Ho. unfold assignLeaf. rewrite Ho.
    by destruct (technique s1). }
  unfold applyRenderOrderBias.
  destruct (renderOrderBiasGroup s) as [g'|] eqn:Hg'.
  2:{ split; [|done]. intros _. destruct leaf; cbn; [by rewrite Hleaf|done]. }
  destruct (decide (g' = g)) as [->|Hne].
  - split; [done|]. intros _ Hrange.
    rewrite (nonEmpty_true g Hg), Hn.
    destruct (renderOrderBiasRange s) as [[mn mx]|]; [|done].
    destruct leaf; cbn.
    + rewrite Hleaf. cbn. rewrite lookup_insert_eq.
      eexists. split; [done|]. by apply Hleaf'.
    + rewrite lookup_insert_eq. by eexists.
  - split; [|congruence]. intros _.
    assert (forall v, (if nonEmpty g'
                       then <[g' := v]> (renderOrderBiasGroups c)
                       else renderOrderBiasGroups c) !! g = None) as Hins.
    { intros v. destruct (nonEmpty g'); [|done].
      by rewrite lookup_insert_ne. }
    destruct (renderOrderBiasRange s) as [[mn mx]|];
      destruct (if nonEmpty g' then renderOrderBiasGroups c !! g' else None)
        as [o|];
      try destruct (ToBoolean o); destruct leaf; cbn;
      rewrite ?Hleaf; cbn; try done; apply Hins.
Qed.

Lemma forEach_ruleStep_recorded (g : string) (n : number)
    (l : list (bool * Style)) :
  g <> "" ->
  forall c,
    renderOrderBiasGroups c !! g = Some n ->
    renderOrderBiasGroups (forEach ruleStep l c).2 !! g = Some n
    /\ (ToBoolean n = true ->
        forall r, r ∈ (forEach ruleStep l c).1 -> inGroup g r ->
                  renderOrder r.2 = Some n).
Proof.
  intros Hg. induction l as [|r l IH]; intros c Hn.
  - cbn. split; [done|]. intros _ r Hr. by apply elem_of_nil in Hr.
  - cbn [forEach].
    destruct (ruleStep_recorded g n r c Hg Hn) as [Hn1 Hr1].
    pose proof (ruleStep_group r c) as Hgr.
    destruct (ruleStep r c) as [r' c1]. cbn [fst snd] in *.
    destruct (IH c1 Hn1) as [Hn2 Hrest].
    destruct (forEach ruleStep l c1) as [l' c2]. cbn [fst snd] in *.
    split; [done|]. intros Hn0 x Hx Hgx.
    apply elem_of_cons in Hx as [->|Hx]; [|by apply Hrest].
    apply Hr1; [done|]. unfold inGroup in *. congruence.
Qed.

Lemma forEach_ruleStep_fresh (g : string) (l : list (bool * Style))
    (r0 : bool * Style) :
  g <> "" ->
  firstInGroup g l = Some r0 ->
  renderOrderBiasRange r0.2 <> None ->
  forall c,
    renderOrderBiasGroups c !! g = None ->
    exists n,
      renderOrderBiasGroups (forEach ruleStep l c).2 !! g = Some n
      /\ (ToBoolean n = true ->
          forall r, r ∈ (forEach ruleStep l c).1 -> inGroup g r ->
                    renderOrder r.2 = Some n).
Proof.
  intros Hg. unfold firstInGroup. induction l as [|r l IH]; [done|].
  rewrite filter_cons. intros Hfirst Hrange c Hn. cbn [forEach].
  destruct (ruleStep_fresh g r c Hg Hn) as [Hout Hin].
  pose proof (ruleStep_group r c) as Hgr.
  destruct (decide (inGroup g r)) as [Hr|Hr].
  - cbn in Hfirst. simplify_eq.
    destruct (Hin Hr Hrange) as (n & Hn1 & Hro).
    destruct (ruleStep r0 c) as [r' c1]. cbn [fst snd] in *.
    destruct (forEach_ruleStep_recorded g n l Hg c1 Hn1) as [Hn2 Hrest].
    destruct (forEach ruleStep l c1) as [l' c2]. cbn [fst snd] in *.
    exists n. split; [done|]. intros Hn0 x Hx Hgx.
    apply elem_of_cons in Hx as [->|Hx]; [done|by apply Hrest].
  - specialize (Hout Hr).
    destruct (ruleStep r c) as [r' c1]. cbn [fst snd] in *.
    destruct (IH Hfirst Hrange c1 Hout) as (n & Hn2 & Hrest).
    destruct (forEach ruleStep l c1) as [l' c2]. cbn [fst snd] in *.
    exists n. split; [done|]. intros Hn0 x Hx Hgx.
    apply elem_of_cons in Hx as [->|Hx]; [|by apply Hrest].
    exfalso. apply Hr. unfold inGroup in *. congruence.
Qed.

(** C1, amended.  Let [g] be a non-empty render-order bias group whose first
    rule in pre-order has a [renderOrderBiasRange], and let the order
    recorded for [g] be truthy, that is, neither zero nor NaN (a recorded
    order is reused under [if (renderOrderBiasGroupOrder)]).  Then any two
    rules that carry [g] have the same resolved [renderOrder]. *)
Theorem biasGroup_orders_equal_when_recorded
    (input : list StyleDeclaration) (ev : StyleSetEvaluator) (g : string)
    (r0 r1 r2 : bool * Style) :
  new_StyleSetEvaluator input = Some ev ->
  g <> "" ->
  firstInGroup g (styleSetRules input) = Some r0 ->
  renderOrderBiasRange r0.2 <> None ->
  (forall n, m_renderOrderBiasGroups ev !! g = Some n ->
             ToBoolean n = true) ->
  r1 ∈ resolvedRules ev -> r2 ∈ resolvedRules ev ->
  inGroup g r1 -> inGroup g r2 ->
  renderOrder r1.2 = renderOrder r2.2.
Proof.
  intros Hnew Hg Hfirst Hrange Hnz H1 H2 Hg1 Hg2.
  destruct (forEach_ruleStep_fresh g _ r0 Hg Hfirst Hrange initialCtor)
    as (n & Hn & Hall); [done|].
  rewrite (new_StyleSetEvaluator_rules _ _ Hnew) in Hn, Hall.
  cbn [fst snd renderOrderBiasGroups] in Hn, Hall.
  pose proof (Hnz n Hn) as Hn0.
  rewrite (Hall Hn0 r1 H1 Hg1), (Hall Hn0 r2 H2 Hg2). done.
Qed.

(** ** One rule: the condition *)

Lemma tryWhen_params (env : MapEnv) (w : WhenDecl) (p : StyleInternalParams) :
  (tryWhen env w p).1 = p
  \/ (_whenExpr p = None
      /\ exists e, compileWhen w = Ret e /\ (tryWhen env w p).1 = set_whenExpr e p).
Proof.
  unfold tryWhen. destruct (_whenExpr p) as [e|] eqn:He.
  - left. by destruct (evaluate e env).
  - destruct (compileWhen w) as [e|err]; [|by left].
    right. split; [done|]. exists e. by destruct (evaluate e env).
Qed.

(** Running the [try] block again on the style it left behind changes
    nothing more, for whatever environment. *)
Lemma tryWhen_memo (env env' : MapEnv) (w : WhenDecl)
    (p : StyleInternalParams) :
  (tryWhen env' w (tryWhen env w p).1).1 = (tryWhen env w p).1.
Proof.
  unfold tryWhen at 2 3. destruct (_whenExpr p) as [e|] eqn:He.
  - destruct (evaluate e env); cbn; unfold tryWhen; rewrite He;
      by destruct (evaluate e env').
  - destruct (compileWhen w) as [e|err] eqn:Hc; cbn.
    + destruct (evaluate e env); cbn; unfold tryWhen; cbn;
        by destruct (evaluate e env').
    + unfold tryWhen. by rewrite He, Hc.
Qed.

(** The compiled condition is the one the first run evaluated. *)
Lemma tryWhen_again (env : MapEnv) (w : WhenDecl) (p : StyleInternalParams) :
  (tryWhen env w (tryWhen env w p).1).2 = (tryWhen env w p).2.
Proof.
  unfold tryWhen at 2 3. destruct (_whenExpr p) as [e|] eqn:He.
  - destruct (evaluate e env) eqn:Hv; cbn; unfold tryWhen;
      by rewrite He, Hv.
  - destruct (compileWhen w) as [e|err] eqn:Hc; cbn.
    + destruct (evaluate e env) eqn:Hv; cbn; unfold tryWhen; cbn;
        by rewrite Hv.
    + unfold tryWhen. by rewrite He, Hc.
Qed.

(** [checkWhen] in terms of [whenOutcome]. *)
Lemma checkWhen_outcome (env : MapEnv) (s : Style) (p : StyleInternalParams)
    (st : WalkState) :
  checkWhen env s p st =
    match when s with
    | None => (p, st, true)
    | Some w =>
        match whenOutcome env s p with
        | Ret b => ((tryWhen env w p).1, st, b)
        | Throw err =>
            ((tryWhen env w p).1, logFailure (FailedToEvaluate w err) st,
             false)
        end
    end.
Proof.
  unfold checkWhen, whenOutcome. destruct (when s) as [w|]; [|done].
  by destruct (tryWhen env w p) as [p1 [b|err]].
Qed.

(** The condition leaves everything but the compiled expression alone. *)
Lemma checkWhen_params (env : MapEnv) (s : Style) (p : StyleInternalParams)
    (st : WalkState) :
  (checkWhen env s p st).1.1 = p
  \/ exists e, (checkWhen env s p st).1.1 = set_whenExpr e p.
Proof.
  rewrite checkWhen_outcome. destruct (when s) as [w|]; [|by left].
  destruct (tryWhen_params env w p) as [H|(_ & e & _ & H)];
    destruct (whenOutcome env s p); cbn; rewrite H; eauto.
Qed.

(** ** One rule: resolving the technique *)

Lemma checkStyleDynamicAttributes_done (s : Style) (p : StyleInternalParams)
    (styleStack : list Style) :
  _dynamicTechniqueAttributes p <> None ->
  checkStyleDynamicAttributes s p styleStack = (p, Ret tt).
Proof.
  unfold checkStyleDynamicAttributes.
  by destruct (_dynamicTechniqueAttributes p).
Qed.

(** After [checkStyleDynamicAttributes] the partition is in place, unless
    the technique is ["none"]. *)
Lemma checkStyleDynamicAttributes_partitioned (s : Style)
    (p : StyleInternalParams) (styleStack : list Style) :
  isNone_technique (technique s) = false ->
  _dynamicTechniqueAttributes
    (checkStyleDynamicAttributes s p styleStack).1 <> None.
Proof.
  intros Hnone. unfold checkStyleDynamicAttributes. rewrite Hnone.
  destruct (_dynamicTechniqueAttributes p) eqn:Hp; [cbn; by rewrite Hp|].
  destruct (processAttributes _ _ _) as [a [[]|err]]; cbn; [|done].
  by destruct (dynamicTechniqueAttributes a).
Qed.

(** A cached technique is found again: it is pushed, and nothing else
    changes. *)
Lemma applyTechnique_hit (env : MapEnv) (s : Style) (p : StyleInternalParams)
    (styleStack : list Style) (st : WalkState) (t : IndexedTechnique) :
  resolvesTo env p t ->
  applyTechnique env s p styleStack st = (p, pushResult t st, Ret tt).
Proof.
  intros [Hpart Hcached]. unfold applyTechnique.
  rewrite checkStyleDynamicAttributes_done by done.
  unfold cachedTechnique in Hcached.
  destruct (_dynamicTechniques p) as [cache|].
  - destruct (evaluateTechniqueProperties p env) as [attrs|err]; [|done].
    by rewrite Hcached.
  - by rewrite Hcached.
Qed.

(** When the block returns, the technique it pushed is the one the rule
    now has cached for the environment. *)
Lemma applyTechnique_resolves (env : MapEnv) (s : Style)
    (p p' : StyleInternalParams) (styleStack : list Style)
    (st st' : WalkState) :
  isNone_technique (technique s) = false ->
  applyTechnique env s p styleStack st = (p', st', Ret tt) ->
  exists t, resolvesTo env p' t
            /\ w_result st' = w_result st ++ [t]
            /\ w_log st' = w_log st.
Proof.
  intros Hnone. unfold applyTechnique.
  pose proof (checkStyleDynamicAttributes_partitioned s p styleStack Hnone)
    as Hpart.
  destruct (checkStyleDynamicAttributes s p styleStack) as [p1 [[]|err]];
    [|done]. cbn in Hpart. unfold resolvesTo, cachedTechnique.
  destruct (_dynamicTechniques p1) as [cache|] eqn:Hcache.
  - destruct (evaluateTechniqueProperties p1 env) as [attrs|err] eqn:Hev;
      [|done].
    destruct (cache !! _) as [t|] eqn:Hl.
    + intros [= <- <-]. exists t. rewrite Hcache, Hev. done.
    + intros [= <- <-]. eexists. cbn.
      assert (evaluateTechniqueProperties
                (set_dynamicTechniques
                   (<[makeCacheKey (_styleSetIndex p1) (dynamicAttrKey attrs)
                      := buildTechnique s p1 attrs (length (w_techniques st))]>
                      cache) p1) env = Ret attrs) as -> by exact Hev.
      by rewrite lookup_insert_eq.
  - destruct (_staticTechnique p1) as [t|] eqn:Hs.
    + intros [= <- <-]. exists t. by rewrite Hcache.
    + intros [= <- <-]. eexists. cbn. by rewrite Hcache.
Qed.


(** Only the evaluated technique attributes tell environments apart. *)
Lemma resolvesTo_transfer (env1 env2 : MapEnv) (p : StyleInternalParams)
    (t : IndexedTechnique) :
  evaluateTechniqueProperties p env1 = evaluateTechniqueProperties p env2 ->
  resolvesTo env1 p t -> resolvesTo env2 p t.
Proof.
  unfold resolvesTo, cachedTechnique. intros Heq [? H]. split; [done|].
  destruct (_dynamicTechniques p); [|done]. by rewrite <- Heq.
Qed.

Lemma resolvesTo_set_whenExpr (env : MapEnv) (p : StyleInternalParams)
    (e : Expr) (t : IndexedTechnique) :
  resolvesTo env (set_whenExpr e p) t <-> resolvesTo env p t.
Proof. done. Qed.

(** ** The loops *)

Lemma untilTrue_cons_false {A S E : Type}
    (body : A -> S -> A * S * Outcome E bool) (x x' : A) (rest : list A)
    (st st1 : S) :
  body x st = (x', st1, Ret false) ->
  untilTrue body (x :: rest) st =
    let '(rest', st2, o) := untilTrue body rest st1 in (x' :: rest', st2, o).
Proof. intros H. cbn. by rewrite H. Qed.

Lemma untilTrue_cons_stop {A S E : Type}
    (body : A -> S -> A * S * Outcome E bool) (x x' : A) (rest : list A)
    (st st1 : S) (o : Outcome E bool) :
  body x st = (x', st1, o) -> o <> Ret false ->
  untilTrue body (x :: rest) st = (x' :: rest, st1, o).
Proof. intros H Ho. cbn. rewrite H. by destruct o as [[]|]. Qed.

Lemma untilTrue_app {A S E : Type}
    (body : A -> S -> A * S * Outcome E bool) (pre l : list A) (st : S) :
  untilTrue body (pre ++ l) st =
    match untilTrue body pre st with
    | (pre', st1, Ret false) =>
        let '(l', st2, o) := untilTrue body l st1 in (pre' ++ l', st2, o)
    | (pre', st1, o) => (pre' ++ l, st1, o)
    end.
Proof.
  revert st. induction pre as [|x pre IH]; intros st.
  - cbn. by destruct (untilTrue body l st) as [[l' st2] o].
  - cbn. destruct (body x st) as [[x' st1] [[]|err]]; [done| |done].
    rewrite IH. destruct (untilTrue body pre st1) as [[pre' st2] [[]|err]];
      [done| |done].
    by destruct (untilTrue body l st2) as [[l' st3] o].
Qed.

Lemma untilTrue_length {A S E : Type}
    (body : A -> S -> A * S * Outcome E bool) (l : list A) (st : S) :
  length (untilTrue body l st).1.1 = length l.
Proof.
  revert st. induction l as [|x l IH]; intros st; [done|].
  cbn. destruct (body x st) as [[x' st1] [[]|err]]; [done| |done].
  specialize (IH st1). destruct (untilTrue body l st1) as [[l' st2] o].
  cbn in *. by rewrite IH.
Qed.

(** A loop whose body commutes with a change of the state commutes with
    it. *)
Lemma untilTrue_commute {A S E : Type}
    (body : A -> S -> A * S * Outcome E bool) (f : S -> S) (l : list A) :
  Forall (fun x => forall st,
            body x (f st) = ((body x st).1.1, f (body x st).1.2,
                             (body x st).2)) l ->
  forall st,
    untilTrue body l (f st)
    = ((untilTrue body l st).1.1, f (untilTrue body l st).1.2,
       (untilTrue body l st).2).
Proof.
  induction 1 as [|x l Hx _ IH]; intros st; [done|].
  cbn. rewrite Hx. destruct (body x st) as [[x' st1] [[]|err]]; [done| |done].
  cbn. rewrite IH. by destruct (untilTrue body l st1) as [[l' st2] o].
Qed.

(** ** Results and log entries are only ever appended *)

Lemma checkWhen_shift (env : MapEnv) (s : Style) (p : StyleInternalParams)
    (res : list IndexedTechnique) (log : list LogEntry) (st : WalkState) :
  checkWhen env s p (shift res log st)
  = ((checkWhen env s p st).1.1, shift res log (checkWhen env s p st).1.2,
     (checkWhen env s p st).2).
Proof.
  unfold checkWhen. destruct (when s) as [w|]; [|done].
  destruct (tryWhen env w p) as [p1 [b|err]]; [done|].
  cbn. unfold logFailure, shift. cbn. by rewrite app_assoc.
Qed.

Lemma applyTechnique_shift (env : MapEnv) (s : Style)
    (p : StyleInternalParams) (styleStack : list Style)
    (res : list IndexedTechnique) (log : list LogEntry) (st : WalkState) :
  applyTechnique env s p styleStack (shift res log st)
  = ((applyTechnique env s p styleStack st).1.1,
     shift res log (applyTechnique env s p styleStack st).1.2,
     (applyTechnique env s p styleStack st).2).
Proof.
  unfold applyTechnique.
  destruct (checkStyleDynamicAttributes s p styleStack) as [p1 [[]|err]];
    [|done].
  destruct (_dynamicTechniques p1) as [cache|].
  - destruct (evaluateTechniqueProperties p1 env) as [attrs|err]; [|done].
    destruct (cache !! _) as [t|]; cbn; unfold shift, pushResult; cbn;
      by rewrite app_assoc.
  - destruct (_staticTechnique p1) as [t|]; cbn; unfold shift, pushResult;
      cbn; by rewrite app_assoc.
Qed.

Lemma processStyle_shift (env : MapEnv) (x : InternalStyle)
    (res : list IndexedTechnique) (log : list LogEntry) :
  forall styleStack st,
    processStyle env styleStack x (shift res log st)
    = ((processStyle env styleStack x st).1.1,
       shift res log (processStyle env styleStack x st).1.2,
       (processStyle env styleStack x st).2).
Proof.
  induction x as [s p|s p l IH] using InternalStyle_tree_ind;
    intros styleStack st; cbn [processStyle]; rewrite checkWhen_shift;
    destruct (checkWhen env s p st) as [[p1 st1] [|]]; cbn [fst snd];
    try done.
  - destruct (technique s) as [name|]; [|done].
    destruct (isNone_technique (Some name)); [done|].
    rewrite applyTechnique_shift.
    by destruct (applyTechnique env s p1 styleStack st1)
      as [[p2 st2] [[]|err]].
  - rewrite (untilTrue_commute (processStyle env (styleStack ++ [s]))
               (shift res log) l
               (Forall_impl _ _ _ IH (fun x Hx => Hx _))).
    by destruct (untilTrue _ l st1) as [[l' st2] o].
Qed.

Lemma processStyles_shift (env : MapEnv) (styleStack : list Style)
    (l : list InternalStyle) (res : list IndexedTechnique)
    (log : list LogEntry) (st : WalkState) :
  processStyles env styleStack l (shift res log st)
  = ((processStyles env styleStack l st).1.1,
     shift res log (processStyles env styleStack l st).1.2,
     (processStyles env styleStack l st).2).
Proof.
  apply untilTrue_commute, Forall_true. intros x st'.
  apply processStyle_shift.
Qed.

(** ** Errors in conditions *)

Lemma whenThrows_tryWhen (env : MapEnv) (w : WhenDecl)
    (p : StyleInternalParams) (err : ExprError) :
  whenThrows env w p err <-> (tryWhen env w p).2 = Throw err.
Proof.
  unfold whenThrows, tryWhen. destruct (_whenExpr p) as [e|].
  - destruct (evaluate e env); cbn; split; congruence.
  - destruct (compileWhen w) as [e|err']; cbn.
    + destruct (evaluate e env) as [v|err'] eqn:Hv; cbn; split.
      * intros [?|(e' & ? & ?)]; [done|]. simplify_eq. congruence.
      * done.
      * intros [?|(e' & ? & ?)]; [done|]. simplify_eq. congruence.
      * intros [= ->]. right. by exists e.
    + split; [intros [?|(e & ? & ?)]; congruence|]. intros [= ->]. by left.
Qed.

(** C6.  If compiling or evaluating the condition of a rule throws, then
    [processStyle] returns [false] for the rule rather than throwing: the
    result array and the technique list are as before, the failure is
    logged, and the loop the rule is in goes on with the next rule.  For a
    rule at the top level, [getMatchingTechniques] returns (or throws, on
    account of another rule) exactly what it does without the rule, and its
    log starts with the failure. *)
Theorem when_error_skips_rule (env : MapEnv) (styleStack : list Style)
    (s : Style) (p : StyleInternalParams)
    (sub : option (list InternalStyle)) (w : WhenDecl) (err : ExprError)
    (st : WalkState) (rest : list InternalStyle)
    (groups : gmap string number) (ts : list IndexedTechnique) :
  when s = Some w ->
  whenThrows env w p err ->
  let x := IStyle s p sub in
  let x' := IStyle s (tryWhen env w p).1 sub in
  let st1 := logFailure (FailedToEvaluate w err) st in
  processStyle env styleStack x st = (x', st1, Ret false)
  /\ w_result st1 = w_result st
  /\ w_techniques st1 = w_techniques st
  /\ w_log st1 = w_log st ++ [FailedToEvaluate w err]
  /\ processStyles env styleStack (x :: rest) st
     = (x' :: (processStyles env styleStack rest st1).1.1,
        (processStyles env styleStack rest st1).1.2,
        (processStyles env styleStack rest st1).2)
  /\ (getMatchingTechniques env (mkEvaluator (x :: rest) groups ts)).2
     = (getMatchingTechniques env (mkEvaluator rest groups ts)).2
  /\ (getMatchingTechniques env (mkEvaluator (x :: rest) groups ts)).1.2
     = FailedToEvaluate w err
       :: (getMatchingTechniques env (mkEvaluator rest groups ts)).1.2.
Proof.
  intros Hw Hthrows x x' st1.
  apply whenThrows_tryWhen in Hthrows.
  assert (forall stack st, processStyle env stack x st
            = (x', logFailure (FailedToEvaluate w err) st, Ret false)) as Hx.
  { intros stack0 st0. subst x x'. cbn [processStyle].
    rewrite checkWhen_outcome. unfold whenOutcome. rewrite Hw, Hthrows.
    done. }
  assert (forall stack st, processStyles env stack (x :: rest) st
            = (x' :: (processStyles env stack rest
                        (logFailure (FailedToEvaluate w err) st)).1.1,
               (processStyles env stack rest
                  (logFailure (FailedToEvaluate w err) st)).1.2,
               (processStyles env stack rest
                  (logFailure (FailedToEvaluate w err) st)).2)) as Hloop.
  { intros stack0 st0. unfold processStyles.
    rewrite (untilTrue_cons_false _ _ _ _ _ _ (Hx stack0 st0)).
    by destruct (untilTrue _ rest _) as [[rest' st2] o]. }
  split; [apply Hx|]. do 3 (split; [done|]). split; [apply Hloop|].
  unfold getMatchingTechniques. cbn [styleSet m_techniques].
  rewrite Hloop.
  change (logFailure (FailedToEvaluate w err) (mkWalk ts [] []))
    with (shift [] [FailedToEvaluate w err] (mkWalk ts [] [])).
  rewrite processStyles_shift.
  destruct (processStyles env [] rest (mkWalk ts [] [])) as [[rest' st2] o].
  cbn. by destruct o.
Qed.

(** ** What ends a walk *)

(** When [processStyle] on a rule the walk reaches returns [true] or throws,
    the walk over the whole list ends there, in that state and with that
    outcome. *)
Lemma reaches_stop (env : MapEnv) (styleStack stack' : list Style)
    (l : list InternalStyle) (st st' : WalkState) (x : InternalStyle) :
  Reaches env styleStack l st stack' x st' ->
  forall x' st'' o,
    processStyle env stack' x st' = (x', st'', o) ->
    o <> Ret false ->
    exists l', processStyles env styleStack l st = (l', st'', o).
Proof.
  induction 1 as [stack pre x post st pre' st1 Hpre
                 |stack pre s p l post st pre' st1 p1 st2 stack' x st'
                    Hpre Hwhen _ IH];
    intros x' st'' o Hx Ho; unfold processStyles in *;
    rewrite untilTrue_app, Hpre.
  - rewrite (untilTrue_cons_stop _ _ _ _ _ _ _ Hx Ho). eauto.
  - destruct (IH x' st'' o Hx Ho) as [l' Hl].
    assert (processStyle env stack (IStyle s p (Some l)) st1
            = (IStyle s p1 (Some l'), st'', o)) as Hnode.
    { cbn [processStyle]. by rewrite Hwhen, Hl. }
    rewrite (untilTrue_cons_stop _ _ _ _ _ _ _ Hnode Ho). eauto.
Qed.

Lemma mapOutcome_throw {A B : Type} (f : A -> Outcome ExprError B)
    (pre post : list A) (a : A) (err : ExprError) :
  Forall (fun b => isThrow (f b) = false) pre ->
  f a = Throw err ->
  mapOutcome f (pre ++ a :: post) = Throw err.
Proof.
  intros Hpre Ha. induction Hpre as [|b pre Hb _ IH]; cbn.
  - by rewrite Ha.
  - destruct (f b); [|done]. by rewrite IH.
Qed.

(** C7.  Let the walk reach a leaf rule whose condition holds and whose
    technique is not ["none"], let the rule have a map of dynamic
    techniques, and let the evaluation of one of its technique-scope
    attribute expressions throw (after those before it evaluated).  Then
    [getMatchingTechniques] throws that error. *)
Theorem attribute_error_propagates (env : MapEnv) (ev : StyleSetEvaluator)
    (styleStack : list Style) (s : Style) (p p1 p2 : StyleInternalParams)
    (st st1 : WalkState) (name : string)
    (cache : gmap string IndexedTechnique)
    (pre post : list (string * Expr)) (attrName : string) (attrExpr : Expr)
    (err : ExprError) :
  Reaches env [] (styleSet ev) (mkWalk (m_techniques ev) [] [])
          styleStack (IStyle s p None) st ->
  checkWhen env s p st = (p1, st1, true) ->
  technique s = Some name -> name <> "none" ->
  checkStyleDynamicAttributes s p1 styleStack = (p2, Ret tt) ->
  _dynamicTechniques p2 = Some cache ->
  _dynamicTechniqueAttributes p2 = Some (pre ++ (attrName, attrExpr) :: post) ->
  Forall (fun a => isThrow (evaluate a.2 env) = false) pre ->
  evaluate attrExpr env = Throw err ->
  (getMatchingTechniques env ev).2 = Throw err.
Proof.
  intros Hreach Hwhen Htech Hname Hcheck Hcache Hattrs Hpre Herr.
  assert (evaluateTechniqueProperties p2 env = Throw err) as Hev.
  { unfold evaluateTechniqueProperties. rewrite Hattrs.
    apply mapOutcome_throw.
    - eapply Forall_impl; [exact Hpre|]. cbn. intros a Ha.
      by destruct (evaluate a.2 env).
    - cbn. by rewrite Herr. }
  assert (processStyle env styleStack (IStyle s p None) st
          = (IStyle s p2 None, st1, Throw err)) as Hx.
  { cbn [processStyle]. rewrite Hwhen, Htech.
    assert (isNone_technique (Some name) = false) as ->.
    { cbn. by destruct (String.eqb_spec name "none"). }
    unfold applyTechnique. rewrite Hcheck, Hcache, Hev. done. }
  destruct (reaches_stop _ _ _ _ _ _ _ Hreach _ _ _ Hx) as [l' Hl]; [done|].
  unfold getMatchingTechniques. by rewrite Hl.
Qed.

(** ** Final rules *)

Lemma whenHolds_checkWhen (env : MapEnv) (s : Style)
    (p : StyleInternalParams) (st : WalkState) :
  whenHolds env s p = true ->
  exists p1, checkWhen env s p st = (p1, st, true).
Proof.
  unfold whenHolds. rewrite checkWhen_outcome. unfold whenOutcome.
  destruct (when s) as [w|]; [|by eexists].
  destruct (tryWhen env w p) as [p1 [[]|err]]; cbn; [by eexists|done|done].
Qed.

Lemma untilTrue_stops {A S E : Type}
    (body : A -> S -> A * S * Outcome E bool) (l : list A) (x : A) :
  x ∈ l ->
  (forall st, (body x st).2 <> Ret false) ->
  forall st, (untilTrue body l st).2 <> Ret false.
Proof.
  intros Hin Hx. induction l as [|y l IH]; intros st.
  - by apply elem_of_nil in Hin.
  - cbn. apply elem_of_cons in Hin as [<-|Hin].
    + specialize (Hx st). by destruct (body x st) as [[x' st1] [[]|err]].
    + destruct (body y st) as [[y' st1] [[]|err]]; [done| |done].
      specialize (IH Hin st1).
      by destruct (untilTrue body l st1) as [[l' st2] o].
Qed.

(** A rule on the path to a matching final leaf never makes
    [processStyle] return [false]. *)
Lemma finalMatch_stops (env : MapEnv) (x : InternalStyle) :
  finalMatch env x = true ->
  forall styleStack st, (processStyle env styleStack x st).2 <> Ret false.
Proof.
  induction x as [s p|s p l IH] using InternalStyle_tree_ind;
    cbn [finalMatch]; intros [Hwhen Hrest]%andb_prop styleStack st;
    destruct (whenHolds_checkWhen env s p st Hwhen) as [p1 Hc];
    cbn [processStyle]; rewrite Hc.
  - apply andb_prop in Hrest as [Htech Hfinal].
    apply bool_decide_eq_true in Htech as [name Htech]. rewrite Htech.
    destruct (isNone_technique (Some name)); cbn; [by rewrite Hfinal|].
    destruct (applyTechnique env s p1 styleStack st) as [[p2 st2] [[]|err]];
      cbn; [by rewrite Hfinal|done].
  - apply existsb_exists in Hrest as (c & Hc_in & Hc_final).
    apply list_elem_of_In in Hc_in.
    pose proof (untilTrue_stops (processStyle env (styleStack ++ [s])) l c
                  Hc_in) as Hstop.
    rewrite Forall_forall in IH.
    specialize (Hstop (fun st' => IH c Hc_in Hc_final _ st') st).
    by destruct (untilTrue _ l st) as [[l' st2] o].
Qed.

(** A loop that cannot get past [r] neither touches nor depends on what
    follows [r]. *)
Lemma untilTrue_ignores {A St E : Type}
    (body : A -> St -> A * St * Outcome E bool) (pre post post' : list A)
    (r : A) (st : St) :
  (forall st, (body r st).2 <> Ret false) ->
  let run := untilTrue body (pre ++ r :: post) st in
  let run' := untilTrue body (pre ++ r :: post') st in
  run.1.2 = run'.1.2
  /\ run.2 = run'.2
  /\ run.2 <> Ret false
  /\ exists l, length l = S (length pre)
               /\ run.1.1 = l ++ post /\ run'.1.1 = l ++ post'.
Proof.
  intros Hr. cbn zeta. rewrite !untilTrue_app.
  pose proof (untilTrue_length body pre st) as Hlen.
  destruct (untilTrue body pre st) as [[pre' st1] o]. cbn in Hlen.
  assert (forall post0, (pre' ++ r :: post0 = (pre' ++ [r]) ++ post0))
    as Hassoc by (intros; by rewrite <- app_assoc).
  destruct o as [[]|err].
  - cbn. repeat split; [done|]. exists (pre' ++ [r]).
    rewrite length_app, Hlen, (Hassoc post), (Hassoc post'). cbn.
    repeat split; lia.
  - specialize (Hr st1).
    destruct (body r st1) as [[r' st2] o] eqn:Hb. cbn in Hr.
    rewrite !(untilTrue_cons_stop body r r' _ st1 st2 o Hb Hr). cbn.
    repeat split; [done|]. exists (pre' ++ [r']).
    rewrite length_app, Hlen, <- !app_assoc. cbn. repeat split; lia.
  - cbn. repeat split; [done|]. exists (pre' ++ [r]).
    rewrite length_app, Hlen, (Hassoc post), (Hassoc post'). cbn.
    repeat split; lia.
Qed.

(** C4, amended.  Let a rule be a matching leaf that has a technique and
    [final: true], or a rule whose condition holds and that contains such a
    leaf under conditions that hold ([finalMatch]).  Then, in whatever list
    of sibling rules it stands and at whatever depth, the rules that follow
    it in that list are not evaluated: they are left untouched, the walk
    does not return [false], and state and outcome do not depend on them.
    In particular [getMatchingTechniques] returns the same array, logs the
    same and creates the same techniques whatever top-level rules follow
    such a rule. *)
Theorem final_leaf_short_circuits (env : MapEnv) (styleStack : list Style)
    (pre : list InternalStyle) (r : InternalStyle)
    (post : list InternalStyle) (st : WalkState)
    (groups : gmap string number) (ts : list IndexedTechnique) :
  finalMatch env r = true ->
  laterRulesIgnored env styleStack pre r post st
  /\ (processStyles env styleStack (pre ++ r :: post) st).2 <> Ret false
  /\ forall post',
       let call := getMatchingTechniques env
                     (mkEvaluator (pre ++ r :: post) groups ts) in
       let call' := getMatchingTechniques env
                      (mkEvaluator (pre ++ r :: post') groups ts) in
       call.2 = call'.2
       /\ call.1.2 = call'.1.2
       /\ m_techniques call.1.1 = m_techniques call'.1.1
       /\ exists l, length l = S (length pre)
                    /\ styleSet call.1.1 = l ++ post
                    /\ styleSet call'.1.1 = l ++ post'.
Proof.
  intros Hfinal.
  pose proof (fun stack => untilTrue_ignores (processStyle env stack) pre post)
    as Hloop.
  split; [|split].
  - intros post'. cbn zeta. unfold processStyles.
    destruct (Hloop styleStack post' r st (finalMatch_stops env r Hfinal _))
      as (H1 & H2 & _ & H4). done.
  - unfold processStyles.
    destruct (Hloop styleStack post r st (finalMatch_stops env r Hfinal _))
      as (_ & _ & H3 & _). done.
  - intros post'. cbn zeta. unfold getMatchingTechniques, processStyles.
    cbn [styleSet m_techniques m_renderOrderBiasGroups].
    destruct (Hloop [] post' r (mkWalk ts [] [])
                (finalMatch_stops env r Hfinal _)) as (H1 & H2 & _ & H4).
    destruct (untilTrue _ (pre ++ r :: post) _) as [[l1 st1] o1].
    destruct (untilTrue _ (pre ++ r :: post') _) as [[l2 st2] o2].
    cbn in *. subst. done.
Qed.

(** ** Matching again *)

Lemma extend_nil (st : WalkState) : extend st [] [] = st.
Proof. destruct st. unfold extend. cbn. by rewrite !app_nil_r. Qed.

Lemma extend_extend (st : WalkState) (res1 res2 : list IndexedTechnique)
    (log1 log2 : list LogEntry) :
  extend (extend st res1 log1) res2 log2
  = extend st (res1 ++ res2) (log1 ++ log2).
Proof. unfold extend. cbn. by rewrite !app_assoc. Qed.

Lemma logFailure_extend (e : LogEntry) (st : WalkState) :
  logFailure e st = extend st [] [e].
Proof. unfold logFailure, extend. by rewrite app_nil_r. Qed.

Lemma agreeOn_nested (env1 env2 : MapEnv) (l : list InternalStyle) :
  foldr (fun y acc => agreeOn env1 env2 y /\ acc) True l
  <-> Forall (agreeOn env1 env2) l.
Proof.
  induction l as [|y l IH]; cbn; [by split|].
  rewrite Forall_cons. by rewrite IH.
Qed.

Lemma whenOutcome_whenExpr (env : MapEnv) (s : Style)
    (p p' : StyleInternalParams) :
  _whenExpr p = _whenExpr p' -> whenOutcome env s p = whenOutcome env s p'.
Proof.
  intros H. unfold whenOutcome, tryWhen. rewrite H.
  destruct (when s) as [w|]; [|done].
  destruct (_whenExpr p') as [e|]; [by destruct (evaluate e env)|].
  destruct (compileWhen w) as [e|]; [|done]. by destruct (evaluate e env).
Qed.


Lemma tryWhen_memoized (env : MapEnv) (w : WhenDecl)
    (p : StyleInternalParams) :
  _whenExpr p <> None -> (tryWhen env w p).1 = p.
Proof.
  unfold tryWhen. destruct (_whenExpr p) as [e|]; [|done].
  by destruct (evaluate e env).
Qed.

Lemma tryWhen_fixed (env1 env2 : MapEnv) (w : WhenDecl)
    (p p2 : StyleInternalParams) :
  _whenExpr p2 = _whenExpr (tryWhen env1 w p).1 ->
  (tryWhen env2 w p2).1 = p2.
Proof.
  unfold tryWhen at 1. destruct (_whenExpr p) as [e|] eqn:He.
  - intros H2. apply tryWhen_memoized.
    destruct (evaluate e env1); cbn in H2; by rewrite H2, He.
  - destruct (compileWhen w) as [e|err] eqn:Hc.
    + intros H2. apply tryWhen_memoized.
      destruct (evaluate e env1); cbn in H2; by rewrite H2.
    + cbn. rewrite He. intros H2. unfold tryWhen. by rewrite H2, Hc.
Qed.

(** The condition, checked a second time on a style that has the compiled
    expression the first check left behind, for an environment with the
    same outcome. *)
Lemma checkWhen_again (env1 env2 : MapEnv) (s : Style)
    (p p1 p2 : StyleInternalParams) (st st1 : WalkState) (b : bool) :
  checkWhen env1 s p st = (p1, st1, b) ->
  _whenExpr p2 = _whenExpr p1 ->
  whenOutcome env1 s p2 = whenOutcome env2 s p2 ->
  exists log,
    st1 = extend st [] log
    /\ forall st2, checkWhen env2 s p2 st2 = (p2, extend st2 [] log, b).
Proof.
  intros Hfirst Hexpr Hagree.
  assert (forall st2, checkWhen env2 s p2 st2
            = match when s with
              | None => (p2, st2, true)
              | Some w =>
                  match whenOutcome env1 s p1 with
                  | Ret b => (p2, st2, b)
                  | Throw err =>
                      (p2, logFailure (FailedToEvaluate w err) st2, false)
                  end
              end) as Hsecond.
  { intros st2. rewrite checkWhen_outcome, <- Hagree.
    rewrite (whenOutcome_whenExpr env1 s p2 p1 Hexpr).
    destruct (when s) as [w|] eqn:Hw; [|done].
    assert ((tryWhen env2 w p2).1 = p2) as ->; [|done].
    apply (tryWhen_fixed env1 env2 w p p2). rewrite Hexpr.
    rewrite checkWhen_outcome, Hw in Hfirst.
    by destruct (whenOutcome env1 s p); simplify_eq. }
  rewrite checkWhen_outcome in Hfirst.
  destruct (when s) as [w|] eqn:Hw.
  2:{ simplify_eq. exists []. split; [by rewrite extend_nil|].
      intros st2. by rewrite Hsecond, extend_nil. }
  assert (whenOutcome env1 s p1 = whenOutcome env1 s p) as Hsame.
  { unfold whenOutcome. rewrite Hw.
    assert (p1 = (tryWhen env1 w p).1) as ->
      by (by destruct (whenOutcome env1 s p); simplify_eq).
    apply tryWhen_again. }
  rewrite Hsame in Hsecond.
  destruct (whenOutcome env1 s p) as [b'|err]; simplify_eq.
  - exists []. split; [by rewrite extend_nil|].
    intros st2. by rewrite Hsecond, extend_nil.
  - exists [FailedToEvaluate w err]. split; [apply logFailure_extend|].
    intros st2. by rewrite Hsecond, logFailure_extend.
Qed.

Lemma applyTechnique_whenExpr (env : MapEnv) (s : Style)
    (p : StyleInternalParams) (styleStack : list Style) (st : WalkState) :
  _whenExpr (applyTechnique env s p styleStack st).1.1 = _whenExpr p.
Proof.
  unfold applyTechnique, checkStyleDynamicAttributes.
  destruct (_dynamicTechniqueAttributes p).
  - destruct (_dynamicTechniques p) as [cache|].
    + destruct (evaluateTechniqueProperties p env); [|done].
      by destruct (cache !! _).
    + by destruct (_staticTechnique p).
  - destruct (isNone_technique (technique s)).
    + destruct (_dynamicTechniques p) as [cache|].
      * destruct (evaluateTechniqueProperties p env); [|done].
        by destruct (cache !! _).
      * by destruct (_staticTechnique p).
    + destruct (processAttributes _ _ _) as [a [[]|err]]; [|done].
      destruct (dynamicTechniqueAttributes a); cbn.
      * destruct (_dynamicTechniques p) as [cache|].
        -- destruct (evaluateTechniqueProperties _ env); [|done].
           by destruct (cache !! _).
        -- by destruct (_staticTechnique p).
      * destruct (evaluateTechniqueProperties _ env); [|done].
        by destruct (∅ !! _).
Qed.

Lemma untilTrue_repeats (env1 env2 : MapEnv) (l : list InternalStyle) :
  Forall (repeats env1 env2) l ->
  forall styleStack st l' st' b,
    untilTrue (processStyle env1 styleStack) l st = (l', st', Ret b) ->
    Forall (agreeOn env1 env2) l' ->
    exists res log,
      st' = mkWalk (w_techniques st') (w_result st ++ res) (w_log st ++ log)
      /\ forall stack2 st2,
           untilTrue (processStyle env2 stack2) l' st2
           = (l', extend st2 res log, Ret b).
Proof.
  induction 1 as [|c l Hc _ IH]; intros styleStack st l' st' b Hrun Hagree.
  - cbn in Hrun. simplify_eq. exists [], []. split.
    + destruct st'. cbn. by rewrite !app_nil_r.
    + intros stack2 st2. cbn. by rewrite extend_nil.
  - cbn in Hrun.
    destruct (processStyle env1 styleStack c st) as [[c' st1] [[]|err]]
      eqn:Hc1; [| |done].
    + simplify_eq. apply Forall_cons in Hagree as [Hc' _].
      destruct (Hc _ _ _ _ _ Hc1 Hc') as (res & log & Hst & Hagain).
      exists res, log. split; [done|]. intros stack2 st2.
      by rewrite (untilTrue_cons_stop _ _ _ _ _ _ _ (Hagain stack2 st2)).
    + destruct (untilTrue (processStyle env1 styleStack) l st1)
        as [[l1 st2] o] eqn:Hl1. simplify_eq.
      apply Forall_cons in Hagree as [Hc' Hl'].
      destruct (Hc _ _ _ _ _ Hc1 Hc') as (res1 & log1 & Hst1 & Hagain1).
      destruct (IH _ _ _ _ _ Hl1 Hl') as (res2 & log2 & Hst2 & Hagain2).
      exists (res1 ++ res2), (log1 ++ log2). split.
      * rewrite Hst2. cbn. rewrite Hst1. cbn. by rewrite !app_assoc.
      * intros stack2 st0.
        rewrite (untilTrue_cons_false _ _ _ _ _ _ (Hagain1 stack2 st0)).
        by rewrite Hagain2, extend_extend.
Qed.

Lemma processStyle_repeats (env1 env2 : MapEnv) (x : InternalStyle) :
  repeats env1 env2 x.
Proof.
  induction x as [s p|s p l IH] using InternalStyle_tree_ind;
    intros styleStack st x' st' b Hrun Hagree; cbn [processStyle] in Hrun;
    destruct (checkWhen env1 s p st) as [[p1 st1] matched] eqn:Hwhen.
  - (* a leaf *)
    destruct matched;
      [destruct (technique s) as [name|] eqn:Htech;
       [destruct (isNone_technique (Some name)) eqn:Hnone|]|].
    + (* the technique "none" *)
      injection Hrun as <- <- <-. destruct Hagree as (Hw & _ & _).
      destruct (checkWhen_again env1 env2 s p p1 p1 st st1 true Hwhen
                  eq_refl Hw) as (log & Hst1 & Hagain).
      exists [], log. split; [by rewrite Hst1|].
      intros stack2 st2. cbn [processStyle].
      by rewrite Hagain, Htech, Hnone.
    + (* a technique *)
      pose proof (applyTechnique_whenExpr env1 s p1 styleStack st1) as Hexpr.
      destruct (applyTechnique env1 s p1 styleStack st1)
        as [[p2 st2] [[]|err]] eqn:Happly; [|done].
      injection Hrun as <- <- <-. cbn in Hexpr.
      destruct Hagree as (Hw & Hattrs & _).
      destruct (checkWhen_again env1 env2 s p p1 p2 st st1 true Hwhen
                  Hexpr Hw) as (log & Hst1 & Hagain).
      assert (isNone_technique (technique s) = false) as Hnone'
        by (by rewrite Htech).
      destruct (applyTechnique_resolves _ _ _ _ _ _ _ Hnone' Happly)
        as (t & Hres & Hresult & Hlog).
      exists [t], log. split.
      * destruct st2. cbn in *. rewrite Hresult, Hlog, Hst1. cbn.
        by rewrite app_nil_r.
      * intros stack2 st0. cbn [processStyle].
        rewrite Hagain, Htech, Hnone.
        rewrite (applyTechnique_hit env2 s p2 stack2 _ t
                   (resolvesTo_transfer _ _ _ _ Hattrs Hres)).
        unfold pushResult, extend. cbn. by rewrite app_nil_r.
    + (* no technique *)
      injection Hrun as <- <- <-. destruct Hagree as (Hw & _ & _).
      destruct (checkWhen_again env1 env2 s p p1 p1 st st1 true Hwhen
                  eq_refl Hw) as (log & Hst1 & Hagain).
      exists [], log. split; [by rewrite Hst1|].
      intros stack2 st2. cbn [processStyle]. by rewrite Hagain, Htech.
    + (* the condition does not hold *)
      injection Hrun as <- <- <-. destruct Hagree as (Hw & _ & _).
      destruct (checkWhen_again env1 env2 s p p1 p1 st st1 false Hwhen
                  eq_refl Hw) as (log & Hst1 & Hagain).
      exists [], log. split; [by rewrite Hst1|].
      intros stack2 st2. cbn [processStyle]. by rewrite Hagain.
  - (* nested styles *)
    destruct matched.
    2:{ injection Hrun as <- <- <-. destruct Hagree as (Hw & _ & _).
        destruct (checkWhen_again env1 env2 s p p1 p1 st st1 false Hwhen
                    eq_refl Hw) as (log & Hst1 & Hagain).
        exists [], log. split; [by rewrite Hst1|].
        intros stack2 st2. cbn [processStyle]. by rewrite Hagain. }
    destruct (untilTrue (processStyle env1 (styleStack ++ [s])) l st1)
      as [[l' st2] o] eqn:Hloop.
    injection Hrun as <- <- ->. destruct Hagree as (Hw & _ & Hnested).
    apply agreeOn_nested in Hnested.
    destruct (checkWhen_again env1 env2 s p p1 p1 st st1 true Hwhen
                eq_refl Hw) as (log1 & Hst1 & Hagain1).
    destruct (untilTrue_repeats env1 env2 l IH _ _ _ _ _ Hloop Hnested)
      as (res & log2 & Hst2 & Hagain2).
    exists res, (log1 ++ log2). split.
    + rewrite Hst2, Hst1. unfold extend. cbn.
      by rewrite app_nil_r, app_assoc.
    + intros stack2 st0. cbn [processStyle].
      by rewrite Hagain1, Hagain2, extend_extend.
Qed.

Lemma mapOutcome_ext {A B : Type} (f g : A -> Outcome ExprError B)
    (l : list A) :
  (forall a, f a = g a) -> mapOutcome f l = mapOutcome g l.
Proof.
  intros Hfg. induction l as [|a l IH]; [done|].
  cbn. by rewrite Hfg, IH.
Qed.

(** Environments with the same content cannot be told apart by any rule. *)
Lemma agreeOn_equivalent (env1 env2 : MapEnv) (x : InternalStyle) :
  (forall e, evaluate e env1 = evaluate e env2) -> agreeOn env1 env2 x.
Proof.
  intros Heq.
  induction x as [s p|s p l IH] using InternalStyle_tree_ind;
    cbn [agreeOn];
    (split; [|split]).
  - unfold whenOutcome, tryWhen. destruct (when s) as [w|]; [|done].
    destruct (_whenExpr p) as [e|]; [by rewrite Heq|].
    destruct (compileWhen w) as [e|]; [by rewrite Heq|done].
  - unfold evaluateTechniqueProperties.
    destruct (_dynamicTechniqueAttributes p) as [attrs|]; [|done].
    apply mapOutcome_ext. intros a. by rewrite Heq.
  - done.
  - unfold whenOutcome, tryWhen. destruct (when s) as [w|]; [|done].
    destruct (_whenExpr p) as [e|]; [by rewrite Heq|].
    destruct (compileWhen w) as [e|]; [by rewrite Heq|done].
  - unfold evaluateTechniqueProperties.
    destruct (_dynamicTechniqueAttributes p) as [attrs|]; [|done].
    apply mapOutcome_ext. intros a. by rewrite Heq.
  - by apply agreeOn_nested.
Qed.

(** A second call for an environment the style set cannot tell from the
    one of the first call returns the same techniques, logs the same and
    leaves the evaluator as the first call left it. *)
Lemma getMatchingTechniques_again (env1 env2 : MapEnv)
    (ev ev1 : StyleSetEvaluator) (log1 : list LogEntry)
    (result : list IndexedTechnique) :
  getMatchingTechniques env1 ev = (ev1, log1, Ret result) ->
  Forall (agreeOn env1 env2) (styleSet ev1) ->
  getMatchingTechniques env2 ev1 = (ev1, log1, Ret result).
Proof.
  unfold getMatchingTechniques, processStyles.
  destruct (untilTrue (processStyle env1 []) (styleSet ev) _)
    as [[tree st] o] eqn:Hrun.
  destruct o as [b|err]; [|done]. intros [= <- <- <-] Hagree.
  cbn [styleSet m_techniques m_renderOrderBiasGroups] in *.
  destruct (untilTrue_repeats env1 env2 (styleSet ev)
              (Forall_true _ _ (processStyle_repeats env1 env2))
              _ _ _ _ _ Hrun Hagree) as (res & log & Hst & Hagain).
  rewrite Hagain. cbn. rewrite Hst. done.
Qed.

(** C3.  For two environments with the same content (every expression
    evaluates to the same for both; they need not be the same instance), a
    call of [getMatchingTechniques] for the first that returns, followed by
    a call for the second, has the second return the same list of
    techniques, the same instances with the same [_index] at every
    position; the second call creates no technique and leaves the evaluator
    as it found it. *)
Theorem getMatchingTechniques_idempotent (env1 env2 : MapEnv)
    (ev ev1 : StyleSetEvaluator) (log1 : list LogEntry)
    (result : list IndexedTechnique) :
  (forall e, evaluate e env1 = evaluate e env2) ->
  getMatchingTechniques env1 ev = (ev1, log1, Ret result) ->
  getMatchingTechniques env2 ev1 = (ev1, log1, Ret result)
  /\ (forall result',
        (getMatchingTechniques env2 ev1).2 = Ret result' ->
        techniqueIndex <$> result' = techniqueIndex <$> result)
  /\ m_techniques (getMatchingTechniques env2 ev1).1.1 = m_techniques ev1.
Proof.
  intros Heq Hfirst.
  assert (getMatchingTechniques env2 ev1 = (ev1, log1, Ret result)) as H.
  { eapply getMatchingTechniques_again; [exact Hfirst|].
    apply Forall_true. intros x. by apply agreeOn_equivalent. }
  rewrite H. cbn. split; [done|]. split; [|done]. by intros ? [= <-].
Qed.

(** ** Environments that differ in feature-scope attributes only *)








(** ** Static attributes of a leaf and of its ancestors *)

Lemma assigned_app {A : Type} (a : string) (l1 l2 : list (string * A)) :
  assigned a (l1 ++ l2) =
    match assigned a l2 with
    | Some y => Some y
    | None => assigned a l1
    end.
Proof.
  induction l1 as [|[n x] l1 IH]; cbn.
  - by destruct (assigned a l2).
  - rewrite IH. by destruct (assigned a l2).
Qed.

Lemma assigned_None {A : Type} (a : string) (l : list (string * A)) :
  a ∉ l.*1 -> assigned a l = None.
Proof.
  induction l as [|[n x] l IH]; [done|]. cbn.
  intros [Hn Hl]%not_elem_of_cons. rewrite (IH Hl).
  by destruct (decide (n = a)).
Qed.

(** The assignments, read off the resulting object. *)
Lemma assignAll_lookup {A : Type} (f : A -> PropValue)
    (l : list (string * A)) (t : IndexedTechnique) (a : string) :
  assignAll f l t !! a =
    match assigned a l with
    | Some x => Some (f x)
    | None => t !! a
    end.
Proof.
  unfold assignAll. revert t. induction l as [|[n x] l IH]; intros t; [done|].
  cbn. rewrite IH. destruct (assigned a l) as [y|]; [done|].
  destruct (decide (n = a)) as [->|Hne].
  - by rewrite lookup_insert_eq.
  - by rewrite lookup_insert_ne.
Qed.

(** The technique [createTechnique] builds carries the last static value of
    an attribute that is neither dynamic nor one of the two indices. *)
Lemma buildTechnique_carries (s : Style) (p : StyleInternalParams)
    (dynamicAttrs : list (string * option Val)) (n : nat)
    (statics : list (string * Val)) (a : string) (v : Val) :
  _staticAttributes p = Some statics ->
  assigned a statics = Some v ->
  a ∉ dynamicAttrs.*1 ->
  a ∉ (default [] (_dynamicFeatureAttributes p)).*1 ->
  a ∉ (default [] (_dynamicForwaredAttributes p)).*1 ->
  a <> "_index" -> a <> "_styleSetIndex" ->
  carries a v (buildTechnique s p dynamicAttrs n).
Proof.
  intros Hstatics Hv Hdyn Hfeat Hfwd Hi Hs. unfold carries, buildTechnique.
  rewrite lookup_insert_ne by done. rewrite lookup_insert_ne by done.
  rewrite assignAll_lookup, assigned_None.
  2:{ intros Hin. apply Hfwd. unfold forwardable in Hin.
      apply list_elem_of_fmap in Hin as (x & -> & Hx).
      apply list_elem_of_filter in Hx as [_ Hx].
      apply list_elem_of_fmap. by exists x. }
  rewrite assignAll_lookup, assigned_None by done.
  rewrite assignAll_lookup, assigned_None by done.
  rewrite assignAll_lookup, Hstatics. cbn. by rewrite Hv.
Qed.

Lemma processAttribute_static (tech : option string) (a0 : AttrLists)
    (n : string) (d : AttrDecl) :
  (processAttribute tech a0 n d).2 = Ret tt ->
  staticAttributes (processAttribute tech a0 n d).1
  = staticAttributes a0 ++ staticDecls [(n, d)].
Proof.
  unfold processAttribute, staticDecls. destruct d as [v|j|def]; cbn.
  - done.
  - destruct (Expr_fromJSON j); [|done].
    destruct (techniqueAttrType n tech); cbn; by rewrite app_nil_r.
  - destruct (createInterpolatedProperty def); [|by rewrite app_nil_r].
    destruct (techniqueAttrType n tech); cbn; by rewrite app_nil_r.
Qed.

(** A declaration only adds its own name to the dynamic attributes, and
    only when it is not a static value. *)
Lemma processAttribute_dynamic (tech : option string) (a0 : AttrLists)
    (n : string) (d : AttrDecl) (a : string) :
  (n = a -> exists v, d = AttrValue v) ->
  let a1 := (processAttribute tech a0 n d).1 in
  (a ∉ (dynamicTechniqueAttributes a0).*1 ->
   a ∉ (dynamicTechniqueAttributes a1).*1)
  /\ (a ∉ (dynamicFeatureAttributes a0).*1 ->
      a ∉ (dynamicFeatureAttributes a1).*1)
  /\ (a ∉ (dynamicForwardedAttributes a0).*1 ->
      a ∉ (dynamicForwardedAttributes a1).*1).
Proof.
  intros Hstatic. cbn zeta. unfold processAttribute.
  assert (forall (B : Type) (l : list (string * B)) (x : B),
            n <> a -> a ∉ l.*1 -> a ∉ (l ++ [(n, x)]).*1) as Hsnoc.
  { intros B l x Hne Hl. rewrite fmap_app. cbn.
    intros [?|Hin]%elem_of_app; [done|].
    apply list_elem_of_singleton in Hin. done. }
  destruct d as [v|j|def]; cbn; [done| |].
  - assert (n <> a) as Hne by (intros ->; by destruct Hstatic).
    destruct (Expr_fromJSON j); [|done].
    destruct (techniqueAttrType n tech); cbn; repeat split; auto.
  - assert (n <> a) as Hne by (intros ->; by destruct Hstatic).
    destruct (createInterpolatedProperty def); [|done].
    destruct (techniqueAttrType n tech); cbn; repeat split; auto.
Qed.

Lemma processAttributes_partition (tech : option string)
    (decls : list (string * AttrDecl)) (a : string) :
  declaredStaticOnly a decls ->
  forall a0 a1,
    processAttributes tech decls a0 = (a1, Ret tt) ->
    staticAttributes a1 = staticAttributes a0 ++ staticDecls decls
    /\ (a ∉ (dynamicTechniqueAttributes a0).*1 ->
        a ∉ (dynamicTechniqueAttributes a1).*1)
    /\ (a ∉ (dynamicFeatureAttributes a0).*1 ->
        a ∉ (dynamicFeatureAttributes a1).*1)
    /\ (a ∉ (dynamicForwardedAttributes a0).*1 ->
        a ∉ (dynamicForwardedAttributes a1).*1).
Proof.
  induction 1 as [|[n d] decls Hd _ IH]; intros a0 a1.
  - cbn. intros [= <-]. by rewrite app_nil_r.
  - cbn [processAttributes].
    pose proof (processAttribute_static tech a0 n d) as Hs.
    pose proof (processAttribute_dynamic tech a0 n d a Hd) as (Ht & Hf & Hw).
    destruct (processAttribute tech a0 n d) as [a' [[]|err]]; [|done].
    cbn in *. intros Hrest. destruct (IH _ _ Hrest) as (Hs' & Ht' & Hf' & Hw').
    split; [|by auto].
    rewrite Hs', Hs by done. rewrite <- app_assoc. f_equal.
    unfold staticDecls. cbn. by destruct d.
Qed.

Lemma unmatched_checkWhen (env : MapEnv) (s : Style)
    (p : StyleInternalParams) (st : WalkState) :
  unmatched p -> unmatched (checkWhen env s p st).1.1.
Proof.
  intros Hp. by destruct (checkWhen_params env s p st) as [->|[e ->]].
Qed.

(** The first partition of the attributes of an unmatched rule. *)
Lemma checkStyleDynamicAttributes_partitionedFor (s : Style)
    (p p' : StyleInternalParams) (styleStack : list Style) (a : string)
    (v : Val) :
  unmatched p ->
  isNone_technique (technique s) = false ->
  declaredStaticOnly a (chainAttributes styleStack s) ->
  checkStyleDynamicAttributes s p styleStack = (p', Ret tt) ->
  partitionedFor a v (staticDecls (chainAttributes styleStack s)) p'.
Proof.
  intros (Hattrs & Hcache & Hstatic) Hnone Hdecl.
  unfold checkStyleDynamicAttributes. rewrite Hattrs, Hnone.
  destruct (processAttributes _ _ _) as [al [[]|err]] eqn:Hrun; [|done].
  destruct (processAttributes_partition _ _ a Hdecl _ _ Hrun)
    as (Hs & Ht & Hf & Hw).
  cbn in Hs, Ht, Hf, Hw.
  assert (a ∉ ([] : list string)) as Hnil by apply not_elem_of_nil.
  specialize (Ht Hnil). specialize (Hf Hnil). specialize (Hw Hnil).
  intros [= <-]. unfold partitionedFor.
  destruct (dynamicTechniqueAttributes al) as [|x l] eqn:Hl; cbn;
    rewrite ?Hs, ?Hl, ?Hstatic, ?Hcache;
    (split; [done|]); (split; [eexists; by split|]);
    (split; [done|]); (split; [done|]); (split; [done|]);
    intros cache k t [= <-]; by rewrite ?lookup_empty.
Qed.

Lemma partitionedFor_set_whenExpr (a : string) (v : Val)
    (statics : list (string * Val)) (p : StyleInternalParams) (e : Expr) :
  partitionedFor a v statics p -> partitionedFor a v statics (set_whenExpr e p).
Proof. done. Qed.

Lemma mapOutcome_names (env : MapEnv) (l : list (string * Expr))
    (attrs : list (string * option Val)) :
  mapOutcome (fun a => match evaluate a.2 env with
                       | Ret evaluatedValue => Ret (a.1, evaluatedValue)
                       | Throw err => Throw err
                       end) l = Ret attrs ->
  attrs.*1 = l.*1.
Proof.
  revert attrs. induction l as [|[n e] l IH]; intros attrs; cbn.
  - by intros [= <-].
  - destruct (evaluate e env) as [v|]; [|done].
    destruct (mapOutcome _ l) as [rest|]; [|done].
    intros [= <-]. cbn. by rewrite (IH rest eq_refl).
Qed.

(** A rule whose attributes are partitioned stays so through the technique
    block, and what the block pushes carries the static value. *)
Lemma applyTechnique_partitionedFor (env : MapEnv) (s : Style)
    (p : StyleInternalParams) (styleStack : list Style) (st : WalkState)
    (a : string) (v : Val) (statics : list (string * Val)) :
  partitionedFor a v statics p ->
  assigned a statics = Some v ->
  a <> "_index" -> a <> "_styleSetIndex" ->
  partitionedFor a v statics (applyTechnique env s p styleStack st).1.1
  /\ exists res,
       w_result (applyTechnique env s p styleStack st).1.2
       = w_result st ++ res
       /\ Forall (carries a v) res
       /\ ((applyTechnique env s p styleStack st).2 = Ret tt ->
           length res = 1%nat).
Proof.
  intros Hp Hv Hi Hs.
  pose proof Hp as (Hstat & (l & Hl & Hal) & Hf & Hw & Hst & Hdt).
  unfold applyTechnique.
  rewrite checkStyleDynamicAttributes_done by (by rewrite Hl).
  destruct (_dynamicTechniques p) as [cache|] eqn:Hcache.
  - destruct (evaluateTechniqueProperties p env) as [attrs|err] eqn:Hev.
    2:{ cbn. split; [done|]. exists []. by rewrite app_nil_r. }
    assert (attrs.*1 = l.*1) as Hnames.
    { unfold evaluateTechniqueProperties in Hev. rewrite Hl in Hev.
      by apply mapOutcome_names in Hev. }
    destruct (cache !! _) as [t|] eqn:Hk; cbn.
    + split; [done|]. exists [t]. split; [done|]. split; [|done].
      constructor; [|done]. by eapply Hdt.
    + assert (carries a v (buildTechnique s p attrs
                             (length (w_techniques st)))) as Hc.
      { eapply buildTechnique_carries; try done. by rewrite Hnames. }
      split.
      * unfold partitionedFor. cbn. rewrite Hstat, Hl.
        split; [done|]. split; [by exists l|]. split; [done|].
        split; [done|]. split; [done|].
        intros cache' k t [= <-] Hlook.
        apply lookup_insert_Some in Hlook as [[_ <-]|[_ Hlook]]; [done|].
        by eapply Hdt.
      * eexists [_]. split; [done|]. split; [|done]. by constructor.
  - destruct (_staticTechnique p) as [t|] eqn:Hstc; cbn.
    + split; [done|]. exists [t]. split; [done|]. split; [|done].
      constructor; [|done]. by apply Hst.
    + assert (carries a v (buildTechnique s p []
                             (length (w_techniques st)))) as Hc.
      { eapply buildTechnique_carries; try done. cbn. apply not_elem_of_nil. }
      split.
      * unfold partitionedFor. cbn. rewrite Hstat, Hl, Hcache.
        split; [done|]. split; [by exists l|]. split; [done|].
        split; [done|]. split; [by intros t [= <-]|]. done.
      * eexists [_]. split; [done|]. split; [|done]. by constructor.
Qed.

Lemma applyTechnique_after_check (env : MapEnv) (s : Style)
    (p pc : StyleInternalParams) (styleStack : list Style) (st : WalkState) :
  isNone_technique (technique s) = false ->
  checkStyleDynamicAttributes s p styleStack = (pc, Ret tt) ->
  applyTechnique env s p styleStack st = applyTechnique env s pc styleStack st.
Proof.
  intros Hnone Hcheck.
  pose proof (checkStyleDynamicAttributes_partitioned s p styleStack Hnone)
    as Hpart.
  rewrite Hcheck in Hpart. cbn in Hpart. unfold applyTechnique.
  by rewrite Hcheck, (checkStyleDynamicAttributes_done s pc styleStack Hpart).
Qed.

Lemma processStyle_leafPartitionedFor (env : MapEnv) (s : Style)
    (x : InternalStyle) (styleStack : list Style) (st : WalkState)
    (a : string) (v : Val) (statics : list (string * Val)) :
  leafPartitionedFor a v statics s x ->
  assigned a statics = Some v ->
  a <> "_index" -> a <> "_styleSetIndex" ->
  leafPartitionedFor a v statics s (processStyle env styleStack x st).1.1
  /\ exists res,
       w_result (processStyle env styleStack x st).1.2 = w_result st ++ res
       /\ Forall (carries a v) res.
Proof.
  intros (p & -> & Hp) Hv Hi Hs. cbn [processStyle].
  assert (partitionedFor a v statics (checkWhen env s p st).1.1) as Hp1.
  { destruct (checkWhen_params env s p st) as [->|[e ->]]; [done|].
    by apply partitionedFor_set_whenExpr. }
  assert (w_result (checkWhen env s p st).1.2 = w_result st) as Hres.
  { rewrite checkWhen_outcome. destruct (when s); [|done].
    by destruct (whenOutcome env s p). }
  destruct (checkWhen env s p st) as [[p1 st1] matched]. cbn in Hp1, Hres.
  assert (leafPartitionedFor a v statics s (IStyle s p1 None)
          /\ exists res, w_result st1 = w_result st ++ res
                         /\ Forall (carries a v) res) as Hsame.
  { split; [by exists p1|]. exists []. by rewrite app_nil_r. }
  destruct matched; [|exact Hsame].
  destruct (technique s) as [name|]; [|exact Hsame].
  destruct (isNone_technique (Some name)); [exact Hsame|].
  destruct (applyTechnique_partitionedFor env s p1 styleStack st1 a v statics
              Hp1 Hv Hi Hs) as (Hp2 & res & Hres2 & Hall & _).
  destruct (applyTechnique env s p1 styleStack st1) as [[p2 st2] [[]|err]];
    cbn in *; (split; [by exists p2|]); exists res; by rewrite Hres2, Hres.
Qed.

Lemma laterCalls_leafPartitionedFor (s : Style) (a : string) (v : Val)
    (statics : list (string * Val))
    (calls : list (MapEnv * list Style * WalkState)) :
  assigned a statics = Some v ->
  a <> "_index" -> a <> "_styleSetIndex" ->
  forall x,
    leafPartitionedFor a v statics s x ->
    leafPartitionedFor a v statics s (laterCalls calls x).
Proof.
  intros Hv Hi Hs. induction calls as [|c calls IH]; intros x Hx; [done|].
  cbn. apply IH.
  by apply (processStyle_leafPartitionedFor c.1.1 s x c.1.2 c.2 a v statics).
Qed.

Lemma staticDecls_app (l1 l2 : list (string * AttrDecl)) :
  staticDecls (l1 ++ l2) = staticDecls l1 ++ staticDecls l2.
Proof. unfold staticDecls. apply omap_app. Qed.

(** C10, amended.  Take a leaf rule with a technique other than ["none"]
    that has not been matched before, under a stack of ancestors, and a call
    of [processStyle] for which it matches and which returns (in particular
    no attribute expression failed to parse).  The static attributes are
    then collected from the ancestors first, outermost first, and from the
    rule itself last.  Let the rule declare the static value [v] for an
    attribute [a] that is not [_index] or [_styleSetIndex] and that no rule
    of the chain declares as an expression or an interpolated property.
    Then the technique that this call pushes carries [v] under [a],
    whatever static values the ancestors declare for [a]; and so does every
    technique that any later call on the rule pushes. *)
Theorem leaf_static_value_wins (env1 env2 : MapEnv) (s : Style)
    (p : StyleInternalParams) (name : string)
    (stack1 stack2 : list Style) (st1 st1' st2 : WalkState)
    (x1 : InternalStyle) (b : bool)
    (calls : list (MapEnv * list Style * WalkState))
    (a : string) (v : Val) :
  technique s = Some name -> name <> "none" ->
  unmatched p ->
  whenHolds env1 s p = true ->
  processStyle env1 stack1 (IStyle s p None) st1 = (x1, st1', Ret b) ->
  staticValue a (styleAttributes s) = Some v ->
  declaredStaticOnly a (chainAttributes stack1 s) ->
  a <> "_index" -> a <> "_styleSetIndex" ->
  _staticAttributes (params x1)
  = Some (staticDecls (concat (map styleAttributes stack1))
          ++ staticDecls (styleAttributes s))
  /\ (exists t, w_result st1' = w_result st1 ++ [t] /\ carries a v t)
  /\ (exists res,
        w_result (processStyle env2 stack2 (laterCalls calls x1) st2).1.2
        = w_result st2 ++ res
        /\ Forall (carries a v) res).
Proof.
  intros Htech Hname Hun Hwhen Hrun Hval Hdecl Hi Hs.
  assert (isNone_technique (technique s) = false) as Hnone.
  { rewrite Htech. cbn. by destruct (String.eqb_spec name "none"). }
  set (statics := staticDecls (chainAttributes stack1 s)).
  assert (assigned a statics = Some v) as Hv.
  { unfold statics, chainAttributes. rewrite staticDecls_app, assigned_app.
    unfold staticValue in Hval. by rewrite Hval. }
  cbn [processStyle] in Hrun.
  pose proof (unmatched_checkWhen env1 s p st1 Hun) as Hun1.
  destruct (whenHolds_checkWhen env1 s p st1 Hwhen) as [p1 Hc1].
  rewrite Hc1 in Hun1, Hrun. cbn in Hun1.
  rewrite Htech in Hrun. rewrite Htech in Hnone. rewrite Hnone in Hrun.
  rewrite <- Htech in Hnone.
  destruct (checkStyleDynamicAttributes s p1 stack1) as [pc [[]|err]]
    eqn:Hcheck.
  2:{ unfold applyTechnique in Hrun. by rewrite Hcheck in Hrun. }
  pose proof (checkStyleDynamicAttributes_partitionedFor s p1 pc stack1 a v
                Hun1 Hnone Hdecl Hcheck) as Hpc.
  fold statics in Hpc.
  rewrite (applyTechnique_after_check env1 s p1 pc stack1 st1 Hnone Hcheck)
    in Hrun.
  destruct (applyTechnique_partitionedFor env1 s pc stack1 st1 a v statics
              Hpc Hv Hi Hs) as (Hp2 & res & Hres & Hall & Hone).
  destruct (applyTechnique env1 s pc stack1 st1) as [[p2 st'] [[]|err]];
    [|done].
  injection Hrun as <- <- <-. cbn in *.
  split; [|split].
  - destruct Hp2 as (Hstat & _). rewrite Hstat. f_equal.
    unfold statics, chainAttributes. apply staticDecls_app.
  - specialize (Hone eq_refl). destruct res as [|t [|? ?]]; [done| |done].
    exists t. split; [done|]. by apply Forall_cons in Hall as [? _].
  - assert (leafPartitionedFor a v statics s (laterCalls calls (IStyle s p2 None)))
      as Hlater.
    { apply laterCalls_leafPartitionedFor; try done. by exists p2. }
    by destruct (processStyle_leafPartitionedFor env2 s _ stack2 st2 a v
                   statics Hlater Hv Hi Hs) as [_ ?].
Qed.

(** * Further properties of the constructor *)

(** X1.  The constructor fails exactly when a top-level declaration is a
    reference: the top-level [map] turns it into [undefined] without
    filtering, and [computeDefaultRenderOrder] reads a property of it. *)
Theorem constructor_fails_on_toplevel_reference
    (input : list StyleDeclaration) :
  new_StyleSetEvaluator input = None
  <-> exists name, Reference name ∈ input.
Proof.
  unfold new_StyleSetEvaluator.
  assert (is_Some (mapM cloneStyle input)
          <-> Forall (fun d => is_Some (cloneStyle d)) input) as Hm
    by apply mapM_is_Some.
  split.
  - destruct (mapM cloneStyle input) as [cloned|] eqn:Hc.
    { by destruct (forEach _ _ _). }
    intros _. assert (~ Forall (fun d => is_Some (cloneStyle d)) input) as Hn.
    { rewrite <- Hm. by intros []. }
    apply not_Forall_Exists in Hn; [|intros d; apply _].
    apply Exists_exists in Hn as (d & Hin & Hd).
    destruct d as [name|s sub]; [by exists name|].
    exfalso. apply Hd. by eexists.
  - intros (name & Hin).
    destruct (mapM cloneStyle input) as [cloned|] eqn:Hc; [|done].
    exfalso. assert (Forall (fun d => is_Some (cloneStyle d)) input) as Hs
      by (by apply Hm).
    rewrite Forall_forall in Hs. by destruct (Hs _ Hin).
Qed.

Lemma applyRenderOrderBias_declared (s : Style) (c : CtorState) :
  set_renderOrder None (applyRenderOrderBias s c).1 = set_renderOrder None s.
Proof.
  unfold applyRenderOrderBias.
  destruct (renderOrderBiasGroup s) as [g|]; [|done].
  destruct (renderOrderBiasRange s) as [[mn mx]|];
    destruct (if nonEmpty g then _ else _) as [o|];
    try destruct (ToBoolean o); done.
Qed.

Lemma ruleStep_declared (r : bool * Style) (c : CtorState) :
  declaredPart (ruleStep r c).1 = declaredPart r.
Proof.
  destruct r as [leaf s]. unfold ruleStep, declaredPart. cbn.
  pose proof (applyRenderOrderBias_declared s c) as Hb.
  destruct (applyRenderOrderBias s c) as [s1 c1]. cbn in Hb.
  destruct leaf; cbn; [|by rewrite Hb].
  unfold assignLeaf. destruct (technique s1) eqn:Ht, (renderOrder s1) eqn:Hr;
    cbn; rewrite <- Hb; done.
Qed.

Lemma forEach_ruleStep_declared (l : list (bool * Style)) (c : CtorState) :
  declaredPart <$> (forEach ruleStep l c).1 = declaredPart <$> l.
Proof.
  revert c. induction l as [|r l IH]; intros c; [done|].
  cbn [forEach]. pose proof (ruleStep_declared r c) as Hr.
  destruct (ruleStep r c) as [r' c1]. specialize (IH c1).
  destruct (forEach ruleStep l c1) as [l' c2]. cbn in *. by rewrite Hr, IH.
Qed.

(** X2.  The constructor keeps every rule that is not a reference, in
    pre-order, leaves as leaves, and changes nothing of a rule but its
    [renderOrder]. *)
Theorem constructor_keeps_declarations (input : list StyleDeclaration)
    (ev : StyleSetEvaluator) :
  new_StyleSetEvaluator input = Some ev ->
  declaredPart <$> resolvedRules ev = declaredPart <$> styleSetRules input.
Proof.
  intros Hnew.
  pose proof (forEach_ruleStep_declared (styleSetRules input) initialCtor)
    as H.
  by rewrite (new_StyleSetEvaluator_rules _ _ Hnew) in H.
Qed.

(** The element a [for ... of] loop leaves at a position is what the body
    made of the element it found there, in some state. *)
Lemma forEach_lookup {A S : Type} (body : A -> S -> A * S) (l : list A)
    (c : S) (i : nat) (x : A) :
  l !! i = Some x ->
  exists c', (forEach body l c).1 !! i = Some (body x c').1.
Proof.
  revert c i. induction l as [|y l IH]; intros c i; [done|].
  cbn [forEach]. destruct (body y c) as [y' c1] eqn:Hy.
  specialize (IH c1). destruct (forEach body l c1) as [l' c2].
  destruct i as [|i]; cbn.
  - intros [= ->]. exists c. by rewrite Hy.
  - intros Hi. by apply IH.
Qed.

Lemma ruleStep_explicit (r : bool * Style) (c : CtorState) (z : number) :
  renderOrderBiasGroup r.2 = None ->
  renderOrder r.2 = Some z ->
  renderOrder (ruleStep r c).1.2 = Some z.
Proof.
  destruct r as [leaf s]. unfold ruleStep, applyRenderOrderBias. cbn.
  intros -> Hz. destruct leaf; cbn; [|done].
  unfold assignLeaf. rewrite Hz. by destruct (technique s).
Qed.

(** X4.  A rule that declares a [renderOrder] and no [renderOrderBiasGroup]
    keeps the render order it declares. *)
Theorem explicit_renderOrder_respected (input : list StyleDeclaration)
    (ev : StyleSetEvaluator) (i : nat) (d : bool * Style) (z : number) :
  new_StyleSetEvaluator input = Some ev ->
  styleSetRules input !! i = Some d ->
  renderOrderBiasGroup d.2 = None ->
  renderOrder d.2 = Some z ->
  exists r, resolvedRules ev !! i = Some r /\ renderOrder r.2 = Some z.
Proof.
  intros Hnew Hi Hg Hz.
  destruct (forEach_lookup ruleStep _ initialCtor i d Hi) as [c' Hc'].
  rewrite (new_StyleSetEvaluator_rules _ _ Hnew) in Hc'. cbn in Hc'.
  eexists. split; [exact Hc'|]. by apply ruleStep_explicit.
Qed.

Lemma forEach_flat {A B S T : Type} (f : A -> list B)
    (step : B -> T -> B * T) (body : A -> S -> A * S) (proj : S -> T)
    (l : list A) :
  Forall (fun x => forall c,
            forEach step (f x) (proj c)
            = (f (body x c).1, proj (body x c).2)) l ->
  forall c,
    forEach step (l ≫= f) (proj c)
    = ((forEach body l c).1 ≫= f, proj (forEach body l c).2).
Proof.
  induction 1 as [|x l Hx _ IH]; intros c; [done|].
  cbn [mbind list_bind]. change (list_bind _ _ f l) with (l ≫= f).
  rewrite forEach_app, Hx. cbn [forEach].
  destruct (body x c) as [x' c1]. cbn. rewrite IH.
  by destruct (forEach body l c1).
Qed.

Lemma applyRenderOrderBias_styleSetIndex (s : Style) (c : CtorState) :
  styleSetIndex (applyRenderOrderBias s c).2 = styleSetIndex c.
Proof.
  unfold applyRenderOrderBias.
  destruct (renderOrderBiasGroup s) as [g|]; [|done].
  destruct (renderOrderBiasRange s) as [[mn mx]|];
    destruct (if nonEmpty g then _ else _) as [o|];
    try destruct (ToBoolean o); done.
Qed.

Lemma computeDefaultRenderOrder_indices (x : InternalStyle) :
  forall c,
    forEach indexStep (indicesOf x) (styleSetIndex c)
    = (indicesOf (computeDefaultRenderOrder x c).1,
       styleSetIndex (computeDefaultRenderOrder x c).2).
Proof.
  induction x as [s p|s p l IH] using InternalStyle_tree_ind; intros c.
  - cbn. pose proof (applyRenderOrderBias_styleSetIndex s c) as Hi.
    destruct (applyRenderOrderBias s c) as [s1 c1]. cbn in Hi.
    unfold assignLeaf, indexStep.
    destruct (technique s1), (renderOrder s1); cbn; by rewrite Hi.
  - cbn. pose proof (applyRenderOrderBias_styleSetIndex s c) as Hi.
    destruct (applyRenderOrderBias s c) as [s1 c1]. cbn in Hi.
    unfold indexStep at 1. cbn. rewrite <- Hi.
    rewrite (forEach_flat indicesOf indexStep computeDefaultRenderOrder
               styleSetIndex l IH).
    by destruct (forEach computeDefaultRenderOrder l c1).
Qed.

Lemma indexStep_numbering (l : list (bool * option nat)) :
  Forall (fun e => e.2 = None) l ->
  forall n, (forEach indexStep l n).1 = numbering (fst <$> l) n.
Proof.
  induction 1 as [|[leaf i] l Hi _ IH]; intros n; [done|].
  cbn in Hi. subst i. cbn [forEach]. unfold indexStep at 1. cbn.
  destruct leaf; cbn.
  - specialize (IH (S n)). destruct (forEach indexStep l (S n)). cbn in *.
    by rewrite IH.
  - specialize (IH n). destruct (forEach indexStep l n). cbn in *.
    by rewrite IH.
Qed.

Lemma indicesOf_leaf_flags (x : InternalStyle) :
  fst <$> indicesOf x = fst <$> rulesOf x.
Proof.
  induction x as [s p|s p l IH] using InternalStyle_tree_ind; [done|].
  cbn. f_equal. induction IH as [|x l Hx _ IHl]; [done|].
  cbn. by rewrite !fmap_app, Hx, IHl.
Qed.

Lemma cloneStyle_unnumbered (d : StyleDeclaration) :
  Forall (fun e => e.2 = None) (from_option indicesOf [] (cloneStyle d)).
Proof.
  revert d. fix IH 1. intros [name|s [l|]]; cbn.
  - constructor.
  - constructor; [done|].
    induction l as [|d l IHl]; [constructor|].
    cbn [omap list_omap]. change (list_omap _ _ cloneStyle l)
      with (omap cloneStyle l).
    specialize (IH d). destruct (cloneStyle d) as [x|]; [|done].
    cbn in *. by apply Forall_app.
  - by repeat constructor.
Qed.

Lemma mapM_cloneStyle_unnumbered (input : list StyleDeclaration)
    (cloned : list InternalStyle) :
  mapM cloneStyle input = Some cloned ->
  Forall (fun e => e.2 = None) (cloned ≫= indicesOf).
Proof.
  revert cloned. induction input as [|d input IH]; intros cloned.
  - intros [= <-]. constructor.
  - cbn. pose proof (cloneStyle_unnumbered d) as Hd.
    destruct (cloneStyle d) as [x|]; [|done]. cbn.
    destruct (mapM cloneStyle input) as [rest|]; [|done].
    intros [= <-]. cbn. apply Forall_app. split; [done|by apply IH].
Qed.

(** X3.  The constructor numbers the leaf rules 0, 1, 2, ... in pre-order
    ([_styleSetIndex]); a rule with nested styles gets no number. *)
Theorem styleSetIndex_numbers_leaves (input : list StyleDeclaration)
    (ev : StyleSetEvaluator) :
  new_StyleSetEvaluator input = Some ev ->
  styleSet ev ≫= indicesOf = numbering (fst <$> styleSetRules input) 0.
Proof.
  unfold new_StyleSetEvaluator.
  destruct (mapM cloneStyle input) as [cloned|] eqn:Hc; [|done].
  pose proof (forEach_flat indicesOf indexStep computeDefaultRenderOrder
                styleSetIndex cloned) as Hflat.
  specialize (Hflat ltac:(apply Forall_forall; intros x _;
                          apply computeDefaultRenderOrder_indices)
                    initialCtor).
  destruct (forEach computeDefaultRenderOrder cloned initialCtor)
    as [tree c]. intros [= <-]. cbn in *.
  rewrite (mapM_cloneStyle_rules _ _ Hc).
  assert (fst <$> (cloned ≫= rulesOf) = fst <$> (cloned ≫= indicesOf)) as ->.
  { clear. induction cloned as [|x l IH]; [done|].
    cbn. by rewrite !fmap_app, IH, indicesOf_leaf_flags. }
  rewrite <- (indexStep_numbering _ (mapM_cloneStyle_unnumbered _ _ Hc)).
  by rewrite Hflat.
Qed.

(** * Further properties of the walk *)

(** What every iteration leaves as it was, the loop leaves as it was. *)
Lemma untilTrue_bind_fixed {A S E B : Type} (g : A -> list B)
    (body : A -> S -> A * S * Outcome E bool) (l : list A) :
  Forall (fun x => forall st, g (body x st).1.1 = g x) l ->
  forall st, (untilTrue body l st).1.1 ≫= g = l ≫= g.
Proof.
  induction 1 as [|x rest Hx _ IH]; intros st; [done|].
  cbn. specialize (Hx st).
  destruct (body x st) as [[x' st1] [[]|e]]; cbn in *.
  - by rewrite Hx.
  - specialize (IH st1).
    destruct (untilTrue body rest st1) as [[rest' st2] o]. cbn in *.
    by rewrite Hx, IH.
  - by rewrite Hx.
Qed.

Lemma checkWhen_styleSetIndex (env : MapEnv) (s : Style)
    (p : StyleInternalParams) (st : WalkState) :
  _styleSetIndex (checkWhen env s p st).1.1 = _styleSetIndex p.
Proof.
  by destruct (checkWhen_params env s p st) as [->|[e ->]].
Qed.

Lemma checkStyleDynamicAttributes_styleSetIndex (s : Style)
    (p : StyleInternalParams) (styleStack : list Style) :
  _styleSetIndex (checkStyleDynamicAttributes s p styleStack).1
  = _styleSetIndex p.
Proof.
  unfold checkStyleDynamicAttributes.
  destruct (_dynamicTechniqueAttributes p); [done|].
  destruct (isNone_technique (technique s)); [done|].
  destruct (processAttributes _ _ _) as [a [[]|err]]; [|done].
  by destruct (dynamicTechniqueAttributes a).
Qed.

Lemma applyTechnique_styleSetIndex (env : MapEnv) (s : Style)
    (p : StyleInternalParams) (styleStack : list Style) (st : WalkState) :
  _styleSetIndex (applyTechnique env s p styleStack st).1.1
  = _styleSetIndex p.
Proof.
  unfold applyTechnique.
  pose proof (checkStyleDynamicAttributes_styleSetIndex s p styleStack) as H.
  destruct (checkStyleDynamicAttributes s p styleStack) as [p1 [[]|err]];
    cbn in H; [|done].
  destruct (_dynamicTechniques p1) as [cache|].
  - destruct (evaluateTechniqueProperties p1 env) as [attrs|err]; [|done].
    by destruct (cache !! _).
  - by destruct (_staticTechnique p1).
Qed.

Lemma processStyle_rulesOf (env : MapEnv) (x : InternalStyle) :
  forall styleStack st,
    rulesOf (processStyle env styleStack x st).1.1 = rulesOf x.
Proof.
  induction x as [s p|s p l IH] using InternalStyle_tree_ind;
    intros styleStack st; cbn [processStyle];
    destruct (checkWhen env s p st) as [[p1 st1] [|]]; try done.
  - destruct (technique s) as [name|]; [|done].
    destruct (isNone_technique (Some name)); [done|].
    by destruct (applyTechnique env s p1 styleStack st1)
      as [[p2 st2] [[]|err]].
  - pose proof (untilTrue_bind_fixed rulesOf
                  (processStyle env (styleStack ++ [s])) l
                  (Forall_impl _ _ _ IH (fun x Hx => Hx _)) st1) as Hloop.
    destruct (untilTrue _ l st1) as [[l' st2] o]. cbn in *. by rewrite Hloop.
Qed.

Lemma processStyle_indicesOf (env : MapEnv) (x : InternalStyle) :
  forall styleStack st,
    indicesOf (processStyle env styleStack x st).1.1 = indicesOf x.
Proof.
  induction x as [s p|s p l IH] using InternalStyle_tree_ind;
    intros styleStack st; cbn [processStyle];
    pose proof (checkWhen_styleSetIndex env s p st) as Hw;
    destruct (checkWhen env s p st) as [[p1 st1] [|]]; cbn in Hw;
    try (cbn; by rewrite Hw).
  - destruct (technique s) as [name|]; [cbn|cbn; by rewrite Hw].
    destruct (String.eqb name "none"); [cbn; by rewrite Hw|].
    pose proof (applyTechnique_styleSetIndex env s p1 styleStack st1) as Ha.
    destruct (applyTechnique env s p1 styleStack st1)
      as [[p2 st2] [[]|err]]; cbn in *; by rewrite Ha, Hw.
  - pose proof (untilTrue_bind_fixed indicesOf
                  (processStyle env (styleStack ++ [s])) l
                  (Forall_impl _ _ _ IH (fun x Hx => Hx _)) st1) as Hloop.
    destruct (untilTrue _ l st1) as [[l' st2] o]. cbn in *.
    by rewrite Hloop, Hw.
Qed.

(** X5.  A call of [getMatchingTechniques], whether it returns or throws,
    changes no declared field of a rule, no render order, no
    [_styleSetIndex], neither the shape of the tree nor the table of the
    bias groups: all it writes are compiled conditions, attribute
    partitions and cached techniques. *)
Theorem getMatchingTechniques_keeps_rules (env : MapEnv)
    (ev : StyleSetEvaluator) :
  let ev' := (getMatchingTechniques env ev).1.1 in
  resolvedRules ev' = resolvedRules ev
  /\ styleSet ev' ≫= indicesOf = styleSet ev ≫= indicesOf
  /\ m_renderOrderBiasGroups ev' = m_renderOrderBiasGroups ev.
Proof.
  unfold getMatchingTechniques, processStyles, resolvedRules.
  pose proof (untilTrue_bind_fixed rulesOf (processStyle env []) (styleSet ev)
                (Forall_true _ _ (fun x => processStyle_rulesOf env x []))
                (mkWalk (m_techniques ev) [] [])) as H1.
  pose proof (untilTrue_bind_fixed indicesOf (processStyle env [])
                (styleSet ev)
                (Forall_true _ _ (fun x => processStyle_indicesOf env x []))
                (mkWalk (m_techniques ev) [] [])) as H2.
  destruct (untilTrue _ _ _) as [[tree st] o]. done.
Qed.

(** An invariant of the elements that survives a growing state, together
    with an invariant of the state, is kept by the loop. *)
Lemma untilTrue_invariant {A S E : Type} (I : A -> S -> Prop) (Q : S -> Prop)
    (R : S -> S -> Prop) (body : A -> S -> A * S * Outcome E bool)
    (l : list A) :
  (forall st, R st st) ->
  (forall st1 st2 st3, R st1 st2 -> R st2 st3 -> R st1 st3) ->
  (forall x st st', I x st -> R st st' -> I x st') ->
  Forall (fun x => forall st, I x st -> Q st ->
            I (body x st).1.1 (body x st).1.2 /\ Q (body x st).1.2
            /\ R st (body x st).1.2) l ->
  forall st, Forall (fun x => I x st) l -> Q st ->
    Forall (fun x => I x (untilTrue body l st).1.2) (untilTrue body l st).1.1
    /\ Q (untilTrue body l st).1.2
    /\ R st (untilTrue body l st).1.2.
Proof.
  intros Hrefl Htrans Hmono.
  induction 1 as [|x rest Hx _ IH]; intros st Hall HQ.
  - cbn. auto.
  - apply Forall_cons in Hall as [Hx0 Hrest]. cbn.
    destruct (Hx st Hx0 HQ) as (HI & HQ1 & HR).
    destruct (body x st) as [[x' st1] [[]|e]]; cbn in *.
    + split; [|done]. constructor; [done|].
      eapply Forall_impl; [exact Hrest|]. intros y Hy. exact (Hmono _ _ _ Hy HR).
    + assert (Forall (fun y => I y st1) rest) as Hrest1.
      { eapply Forall_impl; [exact Hrest|]. intros y Hy. exact (Hmono _ _ _ Hy HR). }
      destruct (IH st1 Hrest1 HQ1) as (HI2 & HQ2 & HR2).
      destruct (untilTrue body rest st1) as [[rest' st2] o]. cbn in *.
      split; [|split; [done|by eapply Htrans]].
      constructor; [exact (Hmono _ _ _ HI HR2)|done].
    + split; [|done]. constructor; [done|].
      eapply Forall_impl; [exact Hrest|]. intros y Hy. exact (Hmono _ _ _ Hy HR).
Qed.

Lemma cachedTechniques_set_whenExpr (e : Expr) (p : StyleInternalParams) :
  cachedTechniques (set_whenExpr e p) = cachedTechniques p.
Proof. done. Qed.

Lemma checkWhen_cached (env : MapEnv) (s : Style) (p : StyleInternalParams)
    (st : WalkState) :
  cachedTechniques (checkWhen env s p st).1.1 = cachedTechniques p
  /\ w_result (checkWhen env s p st).1.2 = w_result st.
Proof.
  split; [by destruct (checkWhen_params env s p st) as [->|[e ->]]|].
  unfold checkWhen. destruct (when s) as [w|]; [|done].
  by destruct (tryWhen env w p) as [p1 [b|err]].
Qed.

Lemma checkStyleDynamicAttributes_cached (s : Style)
    (p : StyleInternalParams) (styleStack : list Style) :
  cachedTechniques (checkStyleDynamicAttributes s p styleStack).1
  ⊆ cachedTechniques p.
Proof.
  unfold checkStyleDynamicAttributes.
  destruct (_dynamicTechniqueAttributes p); [done|].
  destruct (isNone_technique (technique s)); [done|].
  destruct (processAttributes _ _ _) as [a [[]|err]]; [|done].
  destruct (dynamicTechniqueAttributes a); [done|].
  unfold cachedTechniques. cbn. rewrite map_to_list_empty. cbn.
  rewrite app_nil_r. intros t Ht. apply elem_of_app. by left.
Qed.

Lemma cached_insert (cache : gmap string IndexedTechnique) (key : string)
    (t t' : IndexedTechnique) :
  t' ∈ (map_to_list (<[key := t]> cache)).*2 ->
  t' = t \/ t' ∈ (map_to_list cache).*2.
Proof.
  intros ([k v] & -> & Hin)%list_elem_of_fmap.
  apply elem_of_map_to_list in Hin. cbn.
  destruct (decide (k = key)) as [->|Hne].
  - rewrite lookup_insert_eq in Hin. left. congruence.
  - rewrite lookup_insert_ne in Hin by done. right.
    apply list_elem_of_fmap. exists (k, v). split; [done|].
    by apply elem_of_map_to_list.
Qed.

Lemma applyTechnique_listed (env : MapEnv) (s : Style)
    (p : StyleInternalParams) (styleStack : list Style) (st : WalkState) :
  cachedTechniques p ⊆ w_techniques st ->
  resultListed st ->
  cachedTechniques (applyTechnique env s p styleStack st).1.1
    ⊆ w_techniques (applyTechnique env s p styleStack st).1.2
  /\ resultListed (applyTechnique env s p styleStack st).1.2.
Proof.
  intros Hc Hr. unfold applyTechnique.
  pose proof (checkStyleDynamicAttributes_cached s p styleStack) as Hsub.
  destruct (checkStyleDynamicAttributes s p styleStack) as [p1 [[]|err]];
    cbn in Hsub; [|split; [by etrans|done]].
  assert (cachedTechniques p1 ⊆ w_techniques st) as Hc1 by (by etrans).
  clear Hc Hsub. unfold resultListed in *. unfold cachedTechniques in *.
  destruct (_dynamicTechniques p1) as [cache|] eqn:Hcache.
  - destruct (evaluateTechniqueProperties p1 env) as [attrs|err];
      [|cbn; by rewrite Hcache].
    destruct (cache !! _) as [t|] eqn:Hl; cbn.
    + rewrite Hcache. split; [done|].
      intros t' [Ht'|Ht']%elem_of_app; [by apply Hr|].
      apply list_elem_of_singleton in Ht' as ->. apply Hc1.
      apply elem_of_app. right. apply list_elem_of_fmap.
      exists (makeCacheKey (_styleSetIndex p1) (dynamicAttrKey attrs), t).
      split; [done|]. by apply elem_of_map_to_list.
    + split.
      * intros t' [Ht'|Ht']%elem_of_app.
        -- apply elem_of_app. left. apply Hc1. apply elem_of_app. by left.
        -- apply cached_insert in Ht' as [->|Ht'].
           ++ apply elem_of_app. right. by apply list_elem_of_singleton.
           ++ apply elem_of_app. left. apply Hc1. apply elem_of_app.
              by right.
      * intros t' [Ht'|Ht']%elem_of_app; apply elem_of_app;
          [left; by apply Hr|by right].
  - destruct (_staticTechnique p1) as [t|] eqn:Hs; cbn.
    + rewrite Hcache, Hs. split; [done|].
      intros t' [Ht'|Ht']%elem_of_app; [by apply Hr|].
      apply list_elem_of_singleton in Ht' as ->. apply Hc1.
      apply elem_of_app. left. by apply list_elem_of_singleton.
    + rewrite Hcache. split.
      * intros t' Ht'. apply elem_of_app. by right.
      * intros t' [Ht'|Ht']%elem_of_app; apply elem_of_app;
          [left; by apply Hr|by right].
Qed.

Lemma bind_subseteq {A B : Type} (f : A -> list B) (l : list A)
    (ts : list B) :
  l ≫= f ⊆ ts <-> Forall (fun x => f x ⊆ ts) l.
Proof.
  rewrite Forall_forall. split.
  - intros H x Hx t Ht. apply H. apply list_elem_of_bind. eauto.
  - intros H t (x & Ht & Hx)%list_elem_of_bind. by eapply H.
Qed.

Lemma processStyle_listed (env : MapEnv) (x : InternalStyle) :
  forall styleStack st,
    cachesListed x st -> resultListed st ->
    cachesListed (processStyle env styleStack x st).1.1
                 (processStyle env styleStack x st).1.2
    /\ resultListed (processStyle env styleStack x st).1.2.
Proof.
  unfold cachesListed, resultListed.
  induction x as [s p|s p l IH] using InternalStyle_tree_ind;
    intros styleStack st Hc Hr; cbn [processStyle];
    pose proof (checkWhen_techniques env s p st) as Hw;
    destruct (checkWhen_cached env s p st) as [Hcw Hrw];
    destruct (checkWhen env s p st) as [[p1 st1] [|]]; cbn in Hw, Hcw, Hrw;
    cbn [allCached fst snd] in *; rewrite <- ?Hcw in Hc;
    rewrite <- Hw, <- Hrw in *; try done.
  - destruct (technique s) as [name|]; [|done].
    destruct (isNone_technique (Some name)); [done|].
    pose proof (applyTechnique_listed env s p1 styleStack st1 Hc Hr) as Ha.
    by destruct (applyTechnique env s p1 styleStack st1)
      as [[p2 st2] [[]|err]].
  - pose proof (untilTrue_invariant cachesListed resultListed
                  (fun a b => grows (w_techniques a) (w_techniques b))
                  (processStyle env (styleStack ++ [s])) l
                  (fun st => grows_refl _)
                  (fun a b c => grows_trans _ _ _)) as Hloop.
    unfold cachesListed, resultListed in Hloop.
    specialize (Hloop ltac:(intros y a b Hy [[k ->] _] t Ht;
                            apply elem_of_app; left; by apply Hy)).
    specialize (Hloop ltac:(eapply Forall_impl; [exact IH|];
                            intros y Hy st' H1 H2; split; [by apply Hy|];
                            split; [by apply Hy|apply processStyle_grows])).
    assert (cachedTechniques p1 ⊆ w_techniques st1
            /\ l ≫= allCached ⊆ w_techniques st1) as [Hp Hl].
    { split; intros t Ht; apply Hc, elem_of_app; auto. }
    apply bind_subseteq in Hl.
    specialize (Hloop st1 Hl Hr).
    destruct (untilTrue _ l st1) as [[l' st2] o]. cbn in *.
    destruct Hloop as (H1 & H2 & [[k Hk] _]). split; [|done].
    apply bind_subseteq in H1.
    intros t [Ht|Ht]%elem_of_app; [|by apply H1].
    rewrite Hk. apply elem_of_app. left. by apply Hp.
Qed.

Lemma getMatchingTechniques_listed (env : MapEnv) (ev : StyleSetEvaluator) :
  styleSet ev ≫= allCached ⊆ m_techniques ev ->
  styleSet (getMatchingTechniques env ev).1.1 ≫= allCached
    ⊆ m_techniques (getMatchingTechniques env ev).1.1
  /\ returned [] (getMatchingTechniques env ev).2
     ⊆ m_techniques (getMatchingTechniques env ev).1.1.
Proof.
  intros Hinv. unfold getMatchingTechniques, processStyles.
  pose proof (untilTrue_invariant cachesListed resultListed
                (fun a b => grows (w_techniques a) (w_techniques b))
                (processStyle env []) (styleSet ev)
                (fun st => grows_refl _)
                (fun a b c => grows_trans _ _ _)) as Hloop.
  unfold cachesListed, resultListed in Hloop.
  specialize (Hloop ltac:(intros y a b Hy [[k ->] _] t Ht;
                          apply elem_of_app; left; by apply Hy)).
  specialize (Hloop ltac:(apply Forall_forall; intros y _ st' H1 H2;
                          pose proof (processStyle_listed env y [] st' H1 H2)
                            as [? ?];
                          split; [done|]; split; [done|];
                          apply processStyle_grows)).
  apply bind_subseteq in Hinv.
  specialize (Hloop (mkWalk (m_techniques ev) [] []) Hinv
                ltac:(by intros t Ht%elem_of_nil)).
  destruct (untilTrue _ _ _) as [[tree st] o]. cbn in *.
  destruct Hloop as (H1 & H2 & _). split; [by apply bind_subseteq|].
  destruct o; cbn; [done|by intros t Ht%elem_of_nil].
Qed.

Lemma forEach_bind_fixed {A S B : Type} (g : A -> list B)
    (body : A -> S -> A * S) (l : list A) :
  Forall (fun x => forall c, g (body x c).1 = g x) l ->
  forall c, (forEach body l c).1 ≫= g = l ≫= g.
Proof.
  induction 1 as [|x rest Hx _ IH]; intros c; [done|].
  cbn [forEach]. specialize (Hx c). destruct (body x c) as [x' c1].
  specialize (IH c1). destruct (forEach body rest c1) as [rest' c2].
  cbn in *. by rewrite Hx, IH.
Qed.

Lemma computeDefaultRenderOrder_cached (x : InternalStyle) :
  forall c, allCached (computeDefaultRenderOrder x c).1 = allCached x.
Proof.
  induction x as [s p|s p l IH] using InternalStyle_tree_ind; intros c;
    cbn; destruct (applyRenderOrderBias s c) as [s1 c1].
  - unfold assignLeaf. by destruct (technique s1), (renderOrder s1).
  - pose proof (forEach_bind_fixed allCached computeDefaultRenderOrder l IH
                  c1) as Hl.
    destruct (forEach computeDefaultRenderOrder l c1). cbn in *.
    by rewrite Hl.
Qed.

Lemma cloneStyle_cached (d : StyleDeclaration) :
  from_option allCached [] (cloneStyle d) = [].
Proof.
  revert d. fix IH 1. intros [name|s [l|]]; [done| |done].
  cbn. induction l as [|d l IHl]; [done|].
  cbn [omap list_omap]. change (list_omap _ _ cloneStyle l)
    with (omap cloneStyle l).
  specialize (IH d). destruct (cloneStyle d) as [x|]; [|done].
  cbn in *. by rewrite IH, IHl.
Qed.

Lemma new_StyleSetEvaluator_cached (input : list StyleDeclaration)
    (ev : StyleSetEvaluator) :
  new_StyleSetEvaluator input = Some ev -> styleSet ev ≫= allCached = [].
Proof.
  unfold new_StyleSetEvaluator.
  destruct (mapM cloneStyle input) as [cloned|] eqn:Hc; [|done].
  pose proof (forEach_bind_fixed allCached computeDefaultRenderOrder cloned
                ltac:(apply Forall_forall; intros x _;
                      apply computeDefaultRenderOrder_cached)
                initialCtor) as Hflat.
  destruct (forEach computeDefaultRenderOrder cloned initialCtor)
    as [tree c]. intros [= <-]. cbn in *. rewrite Hflat. clear Hflat.
  revert cloned Hc. induction input as [|d input IH]; intros cloned.
  - by intros [= <-].
  - cbn. pose proof (cloneStyle_cached d) as Hd.
    destruct (cloneStyle d) as [x|]; [|done]. cbn.
    destruct (mapM cloneStyle input) as [rest|]; [|done].
    intros [= <-]. cbn in *. by rewrite Hd, (IH rest).
Qed.

Lemma afterCalls_listed (envs : list MapEnv) : forall ev,
  styleSet ev ≫= allCached ⊆ m_techniques ev ->
  styleSet (afterCalls envs ev) ≫= allCached
    ⊆ m_techniques (afterCalls envs ev).
Proof.
  induction envs as [|env envs IH]; intros ev Hinv; [done|].
  cbn. apply IH. by apply getMatchingTechniques_listed.
Qed.

Lemma afterCalls_indexed (input : list StyleDeclaration)
    (ev0 : StyleSetEvaluator) (envs : list MapEnv) :
  new_StyleSetEvaluator input = Some ev0 ->
  indexed (m_techniques (afterCalls envs ev0)).
Proof.
  intros Hnew. pose proof (afterCalls_grows envs ev0) as [_ H1].
  apply H1. rewrite (new_StyleSetEvaluator_techniques _ _ Hnew).
  by intros i t Hi.
Qed.

(** X6.  Take an evaluator as built by the constructor and then used for
    any sequence of calls.  Every technique a call of
    [getMatchingTechniques] returns is in the technique list after the
    call, at the position its [_index] names, whether it was created by
    this call or found in a cache. *)
Theorem returned_techniques_listed (input : list StyleDeclaration)
    (ev0 : StyleSetEvaluator) (envs : list MapEnv) (env : MapEnv) :
  new_StyleSetEvaluator input = Some ev0 ->
  let r := getMatchingTechniques env (afterCalls envs ev0) in
  Forall (fun t => exists i : nat,
            techniques r.1.1 !! i = Some t
            /\ techniqueIndex t = Some (Z.of_nat i))
         (returned [] r.2).
Proof.
  intros Hnew r. apply Forall_forall. intros t Ht.
  assert (styleSet (afterCalls envs ev0) ≫= allCached
          ⊆ m_techniques (afterCalls envs ev0)) as Hinv.
  { apply afterCalls_listed.
    rewrite (new_StyleSetEvaluator_cached _ _ Hnew).
    by intros t' Ht'%elem_of_nil. }
  destruct (getMatchingTechniques_listed env _ Hinv) as [_ Hres].
  apply Hres, list_elem_of_lookup in Ht as [i Hi]. exists i.
  split; [exact Hi|].
  pose proof (afterCalls_indexed input ev0 (envs ++ [env]) Hnew) as Hix.
  unfold afterCalls in Hix. rewrite foldl_app in Hix. cbn in Hix.
  by apply Hix.
Qed.

(** * Further properties of the decoded techniques *)

(** [makeDecodedTechnique] is the filter that drops the [Expr] values. *)
Lemma makeDecodedTechnique_filter (t : IndexedTechnique) :
  makeDecodedTechnique t
  = filter (fun a : string * PropValue => instanceofExpr a.2 = false) t.
Proof.
  apply map_eq. intros k. unfold makeDecodedTechnique.
  rewrite decode_foldl_lookup by apply NoDup_fst_map_to_list.
  rewrite list_to_map_to_list, lookup_empty.
  destruct (t !! k) as [v|] eqn:Hk.
  - destruct (instanceofExpr v) eqn:Hv; symmetry.
    + apply map_lookup_filter_None. right. intros v' Hv'. cbn.
      simplify_eq. by rewrite Hv.
    + by apply map_lookup_filter_Some.
  - symmetry. apply map_lookup_filter_None. by left.
Qed.

(** X7.  Decoding a decoded technique changes nothing; decoding leaves a
    technique as it is exactly if none of its values is an [Expr]; and the
    decoded technique has the [_index] of the technique. *)
Theorem makeDecodedTechnique_idempotent (t : IndexedTechnique) :
  makeDecodedTechnique (makeDecodedTechnique t) = makeDecodedTechnique t
  /\ (makeDecodedTechnique t = t
      <-> forall k v, t !! k = Some v -> instanceofExpr v = false)
  /\ techniqueIndex (makeDecodedTechnique t) = techniqueIndex t.
Proof.
  rewrite !makeDecodedTechnique_filter. split; [|split].
  - apply map_eq. intros k. apply option_eq. intros v.
    rewrite !map_lookup_filter_Some. tauto.
  - split.
    + intros Heq k v Hk. rewrite <- Heq in Hk.
      by apply map_lookup_filter_Some in Hk as [_ Hv].
    + intros Hall. apply map_eq. intros k. apply option_eq. intros v.
      rewrite map_lookup_filter_Some. split; [tauto|].
      intros Hk. split; [done|]. by apply (Hall k).
  - unfold techniqueIndex.
    destruct (t !! "_index") as [v|] eqn:Hk.
    + destruct (instanceofExpr v) eqn:Hv.
      * assert (filter (fun a : string * PropValue =>
                          instanceofExpr a.2 = false) t !! "_index" = None)
          as ->.
        { apply map_lookup_filter_None. right. intros v' Hv'. cbn.
          simplify_eq. by rewrite Hv. }
        by destruct v.
      * assert (filter (fun a : string * PropValue =>
                          instanceofExpr a.2 = false) t !! "_index" = Some v)
          as -> by (by apply map_lookup_filter_Some). done.
    + assert (filter (fun a : string * PropValue =>
                        instanceofExpr a.2 = false) t !! "_index" = None)
        as -> by (apply map_lookup_filter_None; by left). done.
Qed.

(** X8.  Take an evaluator as built by the constructor and then used for
    any sequence of calls.  [decodedTechniques] has one entry for each
    entry of [techniques], the entry at position [i] is the decoded form
    of the technique at position [i], it carries [_index = i], and none of
    its values is an [Expr]. *)
Theorem decodedTechniques_aligned (input : list StyleDeclaration)
    (ev0 : StyleSetEvaluator) (envs : list MapEnv) :
  new_StyleSetEvaluator input = Some ev0 ->
  let ev := afterCalls envs ev0 in
  length (decodedTechniques ev) = length (techniques ev)
  /\ forall (i : nat) d, decodedTechniques ev !! i = Some d ->
       (exists t, techniques ev !! i = Some t /\ d = makeDecodedTechnique t)
       /\ techniqueIndex d = Some (Z.of_nat i)
       /\ forall k v, d !! k = Some v -> instanceofExpr v = false.
Proof.
  intros Hnew ev. unfold decodedTechniques, techniques.
  split; [by rewrite length_map|].
  intros i d Hd.
  change (map makeDecodedTechnique (m_techniques ev))
    with (makeDecodedTechnique <$> m_techniques ev) in Hd.
  rewrite list_lookup_fmap in Hd.
  destruct (m_techniques ev !! i) as [t|] eqn:Ht; [|done].
  cbn in Hd. simplify_eq. split; [by exists t|]. split.
  - pose proof (afterCalls_indexed input ev0 envs Hnew i t Ht) as Hix.
    rewrite makeDecodedTechnique_filter. unfold techniqueIndex in *.
    destruct (t !! "_index") as [[| x | e | ip]|] eqn:Hk; try done.
    assert (filter (fun a : string * PropValue =>
                      instanceofExpr a.2 = false) t !! "_index"
            = Some (PValue x)) as ->
      by (by apply map_lookup_filter_Some). done.
  - intros k v. rewrite makeDecodedTechnique_filter.
    by intros [_ Hv]%map_lookup_filter_Some.
Qed.

(** * Further properties of the attribute partition *)

(** When the partition throws, it throws at a declaration that does not
    parse, with the static values declared before it collected. *)
Lemma processAttributes_throw (tech : option string)
    (decls : list (string * AttrDecl)) :
  forall a0 a1 err,
    processAttributes tech decls a0 = (a1, Throw err) ->
    exists pre n j post,
      decls = pre ++ (n, AttrJsonExpr j) :: post
      /\ Expr_fromJSON j = Throw err
      /\ staticAttributes a1 = staticAttributes a0 ++ staticDecls pre.
Proof.
  induction decls as [|[n d] decls IH]; intros a0 a1 err; [done|].
  cbn [processAttributes].
  pose proof (processAttribute_static tech a0 n d) as Hs.
  destruct (processAttribute tech a0 n d) as [a' [[]|err']] eqn:Hp.
  - intros (pre & n' & j & post & -> & Hj & Hst)%IH.
    exists ((n, d) :: pre), n', j, post. split; [done|]. split; [done|].
    rewrite Hst. cbn in Hs. rewrite (Hs eq_refl).
    change ((n, d) :: pre) with ([(n, d)] ++ pre).
    by rewrite staticDecls_app, app_assoc.
  - intros [= <- <-]. exists [], n. unfold processAttribute in Hp.
    destruct d as [v|j|def]; [done| |].
    + exists j, decls. split; [done|]. cbn. rewrite app_nil_r.
      destruct (Expr_fromJSON j) as [e|err0]; [|by simplify_eq].
      by destruct (techniqueAttrType n tech).
    + destruct (createInterpolatedProperty def); [|done].
      by destruct (techniqueAttrType n tech).
Qed.

Lemma createdOrReused_None (build : nat -> IndexedTechnique)
    (cached cached' : option IndexedTechnique) (st st' : WalkState) :
  cached = None ->
  createdOrReused build cached cached' st st' ->
  let t := build (length (w_techniques st)) in
  w_result st' = w_result st ++ [t]
  /\ w_techniques st' = w_techniques st ++ [t]
  /\ cached' = Some t.
Proof. by intros ->. Qed.

Lemma createdOrReused_Some (build : nat -> IndexedTechnique)
    (cached cached' : option IndexedTechnique) (st st' : WalkState)
    (t : IndexedTechnique) :
  cached = Some t ->
  createdOrReused build cached cached' st st' ->
  w_result st' = w_result st ++ [t]
  /\ w_techniques st' = w_techniques st
  /\ cached' = Some t.
Proof. by intros ->. Qed.

Lemma checkWhen_whenHolds (env : MapEnv) (s : Style)
    (p : StyleInternalParams) (st : WalkState) :
  (checkWhen env s p st).2 = whenHolds env s p.
Proof.
  rewrite checkWhen_outcome. unfold whenHolds.
  destruct (when s) as [w|] eqn:Hw.
  - by destruct (whenOutcome env s p) as [[]|].
  - unfold whenOutcome. by rewrite Hw.
Qed.

Lemma sameAttributes_checkWhen (env : MapEnv) (s : Style)
    (p0 p : StyleInternalParams) (st : WalkState) :
  sameAttributes p0 p ->
  sameAttributes p0 (checkWhen env s p st).1.1
  /\ _staticTechnique (checkWhen env s p st).1.1 = _staticTechnique p.
Proof.
  intros Hp. by destruct (checkWhen_params env s p st) as [->|[e ->]].
Qed.

Lemma buildTechnique_sameAttributes (s : Style) (p0 p : StyleInternalParams)
    (dynamicAttrs : list (string * option Val)) (i : nat) :
  sameAttributes p0 p ->
  buildTechnique s p dynamicAttrs i = buildTechnique s p0 dynamicAttrs i.
Proof.
  intros (H1 & _ & H3 & H4 & _ & H6). unfold buildTechnique.
  by rewrite H1, H3, H4, H6.
Qed.

(** One call for a leaf whose attribute lists are in place and that has
    no map of dynamic techniques: the call does not throw, the lists stay,
    and a static technique is created when there is none and returned
    again when there is one. *)
Lemma processStyle_partitioned (env : MapEnv) (styleStack : list Style)
    (s : Style) (p0 p : StyleInternalParams) (st : WalkState)
    (name : string) :
  technique s = Some name ->
  isNone_technique (technique s) = false ->
  is_Some (_dynamicTechniqueAttributes p0) ->
  _dynamicTechniques p0 = None ->
  sameAttributes p0 p ->
  let later := processStyle env styleStack (IStyle s p None) st in
  exists p',
    later.1.1 = IStyle s p' None
    /\ sameAttributes p0 p'
    /\ (whenHolds env s p = true ->
        later.2 = Ret (isFinal s)
        /\ createdOrReused (buildTechnique s p0 [])
             (_staticTechnique p) (_staticTechnique p') st later.1.2)
    /\ (whenHolds env s p = false ->
        later.2 = Ret false
        /\ w_result later.1.2 = w_result st
        /\ w_techniques later.1.2 = w_techniques st
        /\ _staticTechnique p' = _staticTechnique p).
Proof.
  intros Htech Hnone [l Hdta] Hdt Hp. cbn zeta. cbn [processStyle].
  pose proof (checkWhen_whenHolds env s p st) as Hb.
  destruct (sameAttributes_checkWhen env s p0 p st Hp) as [Hp1 Hst1].
  destruct (checkWhen_cached env s p st) as [_ Hres].
  pose proof (checkWhen_techniques env s p st) as Hts.
  destruct (checkWhen env s p st) as [[p1 st1] b]. cbn [fst snd] in *.
  subst b. destruct (whenHolds env s p).
  - rewrite Htech, <- Htech, Hnone.
    unfold applyTechnique, checkStyleDynamicAttributes.
    pose proof Hp1 as (_ & H2 & _ & _ & H5 & _).
    rewrite H2, Hdta, H5, Hdt. unfold createdOrReused. rewrite <- Hst1.
    destruct (_staticTechnique p1) as [t|] eqn:Ht.
    + exists p1. cbn. rewrite Hres, Hts. split; [done|]. split; [done|].
      split; [|done]. intros _. auto.
    + unfold createTechnique.
      rewrite (buildTechnique_sameAttributes s p0 p1 [] _ Hp1).
      eexists. cbn. rewrite Hres, Hts.
      destruct Hp1 as (? & ? & ? & ? & ? & ?). by repeat split.
  - exists p1. cbn. split; [done|]. split; [done|]. split; [done|].
    intros _. auto.
Qed.

Lemma laterCalls_partitioned (s : Style) (p0 : StyleInternalParams)
    (name : string) (calls : list (MapEnv * list Style * WalkState)) :
  technique s = Some name ->
  isNone_technique (technique s) = false ->
  is_Some (_dynamicTechniqueAttributes p0) ->
  _dynamicTechniques p0 = None ->
  forall p,
    sameAttributes p0 p ->
    exists p', laterCalls calls (IStyle s p None) = IStyle s p' None
               /\ sameAttributes p0 p'.
Proof.
  intros Htech Hnone Hdta Hdt.
  induction calls as [|[[env styleStack] st] calls IH]; intros p Hp.
  - by exists p.
  - unfold laterCalls. cbn [foldl fst snd]. fold (laterCalls calls).
    destruct (processStyle_partitioned env styleStack s p0 p st name
                Htech Hnone Hdta Hdt Hp) as (p1 & -> & Hp1 & _).
    by apply IH.
Qed.

(** X9.  A leaf rule that matches for the first time and one of whose
    attribute declarations, its own or an ancestor's, does not parse: the
    call throws the parse error without creating a technique, and the rule
    is left with the partition as far as it got and without a static
    technique.  After any number of further calls, each with an
    environment, a stack and a state of its own, one more call does not
    throw.  When the rule matches in it, the call returns the static
    technique the rule holds, if it holds one, and creates nothing;
    otherwise it creates the technique from the static values declared
    before the one that does not parse, appends it to the technique list
    and keeps it as the static technique of the rule.  When the rule does
    not match, the call collects and creates nothing and leaves the static
    technique as it is. *)
Theorem parse_error_reported_once (env1 : MapEnv) (stack1 : list Style)
    (s : Style) (p : StyleInternalParams) (st1 : WalkState) (name : string)
    (err : ExprError) :
  unmatched p ->
  technique s = Some name ->
  isNone_technique (technique s) = false ->
  whenHolds env1 s p = true ->
  (processAttributes (technique s) (chainAttributes stack1 s) noLists).2
  = Throw err ->
  let first := processStyle env1 stack1 (IStyle s p None) st1 in
  first.2 = Throw err
  /\ first.1.2 = st1
  /\ _staticTechnique (params first.1.1) = None
  /\ (exists pre n j post,
        chainAttributes stack1 s = pre ++ (n, AttrJsonExpr j) :: post
        /\ Expr_fromJSON j = Throw err
        /\ _staticAttributes (params first.1.1) = Some (staticDecls pre))
  /\ forall (calls : list (MapEnv * list Style * WalkState))
       (env2 : MapEnv) (stack2 : list Style) (st2 : WalkState),
       let x := laterCalls calls first.1.1 in
       let later := processStyle env2 stack2 x st2 in
       decl x = s
       /\ sameAttributes (params first.1.1) (params x)
       /\ (whenHolds env2 s (params x) = true ->
           later.2 = Ret (isFinal s)
           /\ createdOrReused (buildTechnique s (params first.1.1) [])
                (_staticTechnique (params x))
                (_staticTechnique (params later.1.1)) st2 later.1.2)
       /\ (whenHolds env2 s (params x) = false ->
           later.2 = Ret false
           /\ w_result later.1.2 = w_result st2
           /\ w_techniques later.1.2 = w_techniques st2
           /\ _staticTechnique (params later.1.1)
              = _staticTechnique (params x)).
Proof.
  intros (Hdta & Hdt & Hst) Htech Hnone Hwhen Hthrow. cbn zeta.
  destruct (whenHolds_checkWhen env1 s p st1 Hwhen) as [p1 Hcw].
  pose proof (checkWhen_params env1 s p st1) as Hp1.
  rewrite Hcw in Hp1. cbn in Hp1.
  assert (_dynamicTechniqueAttributes p1 = None /\ _dynamicTechniques p1 = None
          /\ _staticTechnique p1 = None) as (Hdta1 & Hdt1 & Hst1)
    by (by destruct Hp1 as [->|[e ->]]).
  destruct (processAttributes (technique s) (chainAttributes stack1 s)
              noLists) as [a o] eqn:Hpa.
  cbn in Hthrow. subst o.
  assert (processStyle env1 stack1 (IStyle s p None) st1
          = (IStyle s (set_attrLists a p1) None, st1, Throw err)) as ->.
  { cbn [processStyle]. rewrite Hcw, Htech, <- Htech, Hnone.
    unfold applyTechnique, checkStyleDynamicAttributes.
    by rewrite Hdta1, Hnone, Hpa. }
  cbn [fst snd params].
  split; [done|]. split; [done|]. split; [done|]. split.
  { apply processAttributes_throw in Hpa
      as (pre & n & j & post & Hdecls & Hj & Hs).
    exists pre, n, j, post. split; [done|]. split; [done|].
    cbn. by rewrite Hs. }
  intros calls env2 stack2 st2.
  set (p0 := set_attrLists a p1).
  assert (is_Some (_dynamicTechniqueAttributes p0)) as Hdta0 by (by eexists).
  assert (sameAttributes p0 p0) as Hp0 by (by repeat split).
  destruct (laterCalls_partitioned s p0 name calls Htech Hnone Hdta0 Hdt1
              p0 Hp0) as (px & -> & Hpx).
  destruct (processStyle_partitioned env2 stack2 s p0 px st2 name
              Htech Hnone Hdta0 Hdt1 Hpx) as (p' & Hlater & _ & Hyes & Hno).
  cbn [decl params]. split; [done|]. split; [done|].
  rewrite Hlater in *. cbn [params]. by split.
Qed.

(** * How much a call can collect and create *)

Lemma collectedWithin_refl (n : nat) (st : WalkState) :
  collectedWithin n st st.
Proof. exists 0%nat, 0%nat. lia. Qed.

Lemma collectedWithin_trans (n m : nat) (st1 st2 st3 : WalkState) :
  collectedWithin n st1 st2 -> collectedWithin m st2 st3 ->
  collectedWithin (n + m) st1 st3.
Proof.
  intros (a & b & ? & ? & ? & ?) (a' & b' & ? & ? & ? & ?).
  exists (a + a')%nat, (b + b')%nat. lia.
Qed.

Lemma collectedWithin_mono (n m : nat) (st st' : WalkState) :
  (n <= m)%nat -> collectedWithin n st st' -> collectedWithin m st st'.
Proof. intros ? (a & b & ? & ? & ? & ?). exists a, b. lia. Qed.

Lemma checkWhen_collected (env : MapEnv) (s : Style)
    (p : StyleInternalParams) (st : WalkState) :
  collectedWithin 0 st (checkWhen env s p st).1.2.
Proof.
  unfold checkWhen. destruct (when s) as [w|]; [|apply collectedWithin_refl].
  destruct (tryWhen env w p) as [p1 [b|err]]; [apply collectedWithin_refl|].
  exists 0%nat, 0%nat. cbn. lia.
Qed.

Lemma applyTechnique_collected (env : MapEnv) (s : Style)
    (p : StyleInternalParams) (styleStack : list Style) (st : WalkState) :
  collectedWithin 1 st (applyTechnique env s p styleStack st).1.2.
Proof.
  unfold applyTechnique.
  destruct (checkStyleDynamicAttributes s p styleStack) as [p1 [[]|err]];
    [|apply collectedWithin_mono with 0%nat; [lia|apply collectedWithin_refl]].
  assert (forall t, collectedWithin 1 st (pushResult t st)) as Hpush.
  { intros t. exists 1%nat, 0%nat. cbn. rewrite length_app. cbn. lia. }
  assert (forall t, collectedWithin 1 st
                      (mkWalk (w_techniques st ++ [t]) (w_result st ++ [t])
                         (w_log st))) as Hnew.
  { intros t. exists 1%nat, 1%nat. cbn. rewrite !length_app. cbn. lia. }
  destruct (_dynamicTechniques p1) as [cache|].
  - destruct (evaluateTechniqueProperties p1 env) as [attrs|err];
      [|apply collectedWithin_mono with 0%nat;
        [lia|apply collectedWithin_refl]].
    destruct (cache !! _) as [t|]; [apply Hpush|apply Hnew].
  - destruct (_staticTechnique p1) as [t|]; [apply Hpush|apply Hnew].
Qed.

Lemma leafCount_cons (x : InternalStyle) (l : list InternalStyle) :
  leafCount (x :: l) = (leafCount [x] + leafCount l)%nat.
Proof.
  unfold leafCount. cbn. rewrite app_nil_r, filter_app, length_app. done.
Qed.

Lemma untilTrue_collected {E : Type}
    (body : InternalStyle -> WalkState
            -> InternalStyle * WalkState * Outcome E bool)
    (l : list InternalStyle) :
  Forall (fun x => forall st,
            collectedWithin (leafCount [x]) st (body x st).1.2) l ->
  forall st, collectedWithin (leafCount l) st (untilTrue body l st).1.2.
Proof.
  induction 1 as [|x rest Hx _ IH]; intros st.
  - apply collectedWithin_refl.
  - rewrite leafCount_cons. cbn. specialize (Hx st).
    destruct (body x st) as [[x' st1] [[]|e]]; cbn in *.
    + eapply collectedWithin_mono; [|exact Hx]. lia.
    + specialize (IH st1).
      destruct (untilTrue body rest st1) as [[rest' st2] o]. cbn in *.
      by eapply collectedWithin_trans.
    + eapply collectedWithin_mono; [|exact Hx]. lia.
Qed.

Lemma processStyle_collected (env : MapEnv) (x : InternalStyle) :
  forall styleStack st,
    collectedWithin (leafCount [x]) st
                    (processStyle env styleStack x st).1.2.
Proof.
  induction x as [s p|s p l IH] using InternalStyle_tree_ind;
    intros styleStack st; cbn [processStyle];
    pose proof (checkWhen_collected env s p st) as Hw;
    destruct (checkWhen env s p st) as [[p1 st1] [|]]; cbn in Hw;
    try (eapply collectedWithin_mono; [|exact Hw]; lia).
  - destruct (technique s) as [name|];
      [|eapply collectedWithin_mono; [|exact Hw]; lia].
    destruct (isNone_technique (Some name));
      [eapply collectedWithin_mono; [|exact Hw]; lia|].
    pose proof (applyTechnique_collected env s p1 styleStack st1) as Ha.
    change (leafCount [IStyle s p None]) with (0 + 1)%nat.
    destruct (applyTechnique env s p1 styleStack st1)
      as [[p2 st2] [[]|err]];
      exact (collectedWithin_trans 0 1 _ _ _ Hw Ha).
  - pose proof (untilTrue_collected (processStyle env (styleStack ++ [s])) l
                  (Forall_impl _ _ _ IH (fun x Hx => Hx _)) st1) as Hloop.
    assert (leafCount [IStyle s p (Some l)] = (0 + leafCount l)%nat) as ->.
    { unfold leafCount. cbn. rewrite app_nil_r.
      by destruct (decide (false = true)). }
    destruct (untilTrue _ l st1) as [[l' st2] o].
    exact (collectedWithin_trans 0 _ _ _ _ Hw Hloop).
Qed.

(** X10.  One call of [getMatchingTechniques] returns at most one technique
    for each leaf rule of the style set and creates at most one technique
    for each leaf rule; when it returns, every technique it created is
    among those it returns. *)
Theorem getMatchingTechniques_bounded (env : MapEnv)
    (ev : StyleSetEvaluator) :
  let r := getMatchingTechniques env ev in
  (length (returned [] r.2) <= leafCount (styleSet ev))%nat
  /\ (length (techniques r.1.1)
      <= length (techniques ev) + leafCount (styleSet ev))%nat
  /\ (isThrow r.2 = false ->
      (length (techniques r.1.1)
       <= length (techniques ev) + length (returned [] r.2))%nat).
Proof.
  unfold getMatchingTechniques, processStyles, techniques.
  pose proof (untilTrue_collected (processStyle env []) (styleSet ev)
                (Forall_true _ _ (fun x => processStyle_collected env x []))
                (mkWalk (m_techniques ev) [] [])) as Hloop.
  destruct (untilTrue _ _ _) as [[tree st] o]. cbn in *.
  destruct Hloop as (a & b & Ha & Hb & Hab & Hn). cbn in *.
  destruct o as [v|err]; cbn; repeat split; try lia; done.
Qed.

(** * The block of render orders a bias group reserves *)

(** An order the leaf branch takes from the counter is the resolved
    render order of the rule. *)
Lemma fromCounter_renderOrder (r : bool * Style) (c : CtorState)
    (x : number) :
  fromCounter r c = Some x -> renderOrder (ruleStep r c).1.2 = Some x.
Proof.
  destruct r as [leaf s]. unfold fromCounter, ruleStep. cbn [fst snd].
  destruct (applyRenderOrderBias s c) as [s1 c1]. destruct leaf; [|done].
  unfold assignLeaf. destruct (technique s1); [|done].
  destruct (renderOrder s1); [done|]. by intros [= <-].
Qed.

Lemma countedOrders_resolved (l : list (bool * Style)) (c : CtorState)
    (i : nat) (x : number) :
  countedOrders l c !! i = Some (Some x) ->
  exists r, (forEach ruleStep l c).1 !! i = Some r
            /\ renderOrder r.2 = Some x.
Proof.
  revert c i. induction l as [|r l IH]; intros c i; [done|].
  cbn [countedOrders forEach].
  pose proof (fromCounter_renderOrder r c) as Hr.
  destruct (ruleStep r c) as [r' c1]. cbn [fst snd] in *.
  specialize (IH c1). destruct (forEach ruleStep l c1) as [l' c2].
  destruct i as [|i]; cbn.
  - intros [= Hx]. exists r'. split; [done|]. by apply Hr.
  - apply IH.
Qed.

(** The first rule of a group, when it has a range, takes no order at the
    leaf branch and records an order whose block lies between the counter
    before and the counter after. *)
Lemma ruleStep_reserves (g : string) (r : bool * Style) (c : CtorState)
    (cz minRange maxRange : Z) :
  g <> "" ->
  renderOrderBiasGroups c !! g = None ->
  inGroup g r ->
  integerRange r = Some (minRange, maxRange) ->
  wellFormedRange r = true ->
  techniqueRenderOrder c = ofZ cz -> 0 <= cz ->
  cz + counterCost r < 2 ^ 53 ->
  fromCounter r c = None
  /\ exists nz cz',
       renderOrderBiasGroups (ruleStep r c).2 !! g = Some (ofZ nz)
       /\ techniqueRenderOrder (ruleStep r c).2 = ofZ cz'
       /\ cz <= nz + minRange /\ nz + maxRange < cz'
       /\ cz <= cz' <= cz + counterCost r.
Proof.
  intros Hg Hn. destruct r as [leaf s]. unfold inGroup. cbn [snd].
  intros Hgr Hint Hwf Hc Hcz Hbound.
  destruct (integerRange_Some _ _ _ Hint) as (Hrange & Ha & Hb).
  cbn [snd] in Hrange.
  unfold wellFormedRange in Hwf. cbn [snd] in Hwf.
  rewrite Hrange, Hint in Hwf. apply Z.leb_le in Hwf.
  unfold counterCost in Hbound |- *. rewrite Hint in *. cbn [fst] in *.
  unfold fromCounter, ruleStep, applyRenderOrderBias. cbn [fst snd].
  rewrite Hgr, Hrange, (nonEmpty_true g Hg), Hn. cbn [techniqueRenderOrder].
  rewrite Hc. unfold Math_abs.
  assert (0 <= if leaf then 1 else 0) as Hleaf by (by destruct leaf).
  rewrite (lt_zero minRange), (abs_exact minRange) by done.
  rewrite (add_exact (Z.abs minRange) maxRange) by lia.
  rewrite (add_exact cz (Z.abs minRange)) by lia.
  rewrite (add_exact cz (Z.abs minRange + maxRange)) by lia.
  rewrite (add_exact (cz + (Z.abs minRange + maxRange)) 1) by lia.
  assert (exists nz,
            (if minRange <? 0 then ofZ (cz + Z.abs minRange) else ofZ cz)
            = ofZ nz
            /\ cz <= nz + minRange
            /\ nz + maxRange < cz + (Z.abs minRange + maxRange) + 1)
    as (nz & -> & Hlo & Hhi).
  { destruct (Z.ltb_spec minRange 0); eexists; (split; [done|]); lia. }
  destruct leaf.
  - unfold assignLeaf. cbn. split; [by destruct (technique s)|].
    exists nz, (cz + (Z.abs minRange + maxRange) + 1).
    destruct (technique s); cbn; rewrite lookup_insert_eq;
      repeat split; try done; lia.
  - cbn. split; [done|].
    exists nz, (cz + (Z.abs minRange + maxRange) + 1).
    rewrite lookup_insert_eq. repeat split; try done; lia.
Qed.

Lemma forEach_ruleStep_block (g : string) (l : list (bool * Style))
    (r0 : bool * Style) (minRange maxRange : Z) :
  g <> "" ->
  firstInGroup g l = Some r0 ->
  integerRange r0 = Some (minRange, maxRange) ->
  Forall (fun r => wellFormedRange r = true) l ->
  forall c cz,
    renderOrderBiasGroups c !! g = None ->
    techniqueRenderOrder c = ofZ cz -> 0 <= cz ->
    cz + counterBudget l < 2 ^ 53 ->
    exists nz,
      renderOrderBiasGroups (forEach ruleStep l c).2 !! g = Some (ofZ nz)
      /\ cz <= nz + minRange
      /\ Forall (fun o => forall x, o = Some x ->
                   outsideBlock nz minRange maxRange x)
                (countedOrders l c).
Proof.
  intros Hg. unfold firstInGroup. induction l as [|r l IH]; [done|].
  rewrite filter_cons. intros Hfirst Hint Hwf c cz Hn Hc Hcz Hbound.
  apply Forall_cons in Hwf as [Hr_wf Hwf].
  cbn [forEach countedOrders counterBudget foldr] in *.
  fold (counterBudget l) in *.
  pose proof (counterBudget_nonneg l) as Hl.
  pose proof (counterCost_nonneg r) as Hr_cost.
  destruct (ruleStep_fresh g r c Hg Hn) as [Hout _].
  destruct (decide (inGroup g r)) as [Hr|Hr].
  - cbn in Hfirst. simplify_eq.
    destruct (ruleStep_reserves g r0 c cz minRange maxRange Hg Hn Hr Hint
                Hr_wf Hc Hcz ltac:(lia))
      as (Hnone & nz & cz' & Hn1 & Hc1 & Hlo & Hhi & Hcz').
    destruct (ruleStep r0 c) as [r' c1]. cbn [fst snd] in *.
    destruct (forEach_ruleStep_recorded g (ofZ nz) l Hg c1 Hn1) as [Hn2 _].
    destruct (forEach_ruleStep_exact l Hwf c1 cz' Hc1 ltac:(lia) ltac:(lia))
      as (cz2 & _ & _ & _ & Hrest).
    destruct (forEach ruleStep l c1) as [l' c2]. cbn [fst snd] in *.
    exists nz. split; [done|]. split; [done|]. constructor.
    + rewrite Hnone. by intros x.
    + eapply Forall_impl; [exact Hrest|]. cbn.
      intros o Ho x Hx. destruct (Ho x Hx) as (z & -> & Hz).
      exists z. split; [done|]. lia.
  - specialize (Hout Hr).
    destruct (ruleStep_exact r c cz Hr_wf Hc Hcz ltac:(lia))
      as (cz1 & Hc1 & Hcz1 & _ & Hcount).
    destruct (ruleStep r c) as [r' c1]. cbn [fst snd] in *.
    destruct (IH Hfirst Hint Hwf c1 cz1 Hout Hc1 ltac:(lia) ltac:(lia))
      as (nz & Hn2 & Hlo & Hrest).
    destruct (forEach ruleStep l c1) as [l' c2]. cbn [fst snd] in *.
    exists nz. split; [done|]. split; [lia|]. constructor; [|done].
    intros x Hx. destruct (Hcount x Hx) as (z & -> & Hz).
    exists z. split; [done|]. lia.
Qed.

(** X11.  Let every [renderOrderBiasRange] of the style set have integer
    bounds with [|min| + max >= -1], let the number of leaf rules plus the
    sum of [|min| + |max| + 1] over the ranges stay below [2^53], and let
    the first rule, in pre-order, of a non-empty bias group have the range
    [(minRange, maxRange)].  The constructor records an integer order [n]
    for the group, and no leaf rule whose render order is assigned by
    [style.renderOrder = techniqueRenderOrder++], with or without a group
    of its own, gets one of [n + minRange .. n + maxRange]: each such
    order is the resolved render order of its rule and an integer outside
    the block, which is reserved for the group. *)
Theorem biasGroup_block_reserved (input : list StyleDeclaration)
    (ev : StyleSetEvaluator) (g : string) (r0 : bool * Style)
    (minRange maxRange : Z) :
  Forall (fun r => wellFormedRange r = true) (styleSetRules input) ->
  counterBudget (styleSetRules input) < 2 ^ 53 ->
  new_StyleSetEvaluator input = Some ev ->
  g <> "" ->
  firstInGroup g (styleSetRules input) = Some r0 ->
  integerRange r0 = Some (minRange, maxRange) ->
  exists n,
    m_renderOrderBiasGroups ev !! g = Some (ofZ n)
    /\ 0 <= n + minRange
    /\ forall i x,
         countedOrders (styleSetRules input) initialCtor !! i
         = Some (Some x) ->
         (exists r, resolvedRules ev !! i = Some r
                    /\ renderOrder r.2 = Some x)
         /\ outsideBlock n minRange maxRange x.
Proof.
  intros Hwf Hbudget Hnew Hg Hfirst Hint.
  destruct (forEach_ruleStep_block g _ r0 minRange maxRange Hg Hfirst Hint
              Hwf initialCtor 0 eq_refl eq_refl ltac:(lia) ltac:(lia))
    as (n & Hn & Hlo & Hall).
  pose proof (countedOrders_resolved (styleSetRules input) initialCtor)
    as Hres.
  rewrite (new_StyleSetEvaluator_rules _ _ Hnew) in Hn, Hres.
  cbn [fst snd renderOrderBiasGroups] in Hn, Hres.
  exists n. split; [done|]. split; [done|]. intros i x Hi.
  split; [by apply Hres|].
  rewrite Forall_lookup in Hall. by apply (Hall i (Some x)).
Qed.

(** * Technique descriptors *)

Lemma mergeStep_lookup (result : TechniqueDescriptor.TechniqueDescriptor)
    (d : TechniqueDescriptor.PartialTechniqueDescriptor) (a : string) :
  TechniqueDescriptor.attrScopes (TechniqueDescriptor.mergeStep result d) !! a
  = match TechniqueDescriptor.partial_attrScopes d
          ≫= (fun scopes => scopes !! a) with
    | Some scope => Some scope
    | None => TechniqueDescriptor.attrScopes result !! a
    end.
Proof.
  unfold TechniqueDescriptor.mergeStep.
  destruct (TechniqueDescriptor.partial_attrScopes d) as [scopes|]; [|done].
  cbn [TechniqueDescriptor.attrScopes mbind option_bind].
  rewrite lookup_union. by destruct (scopes !! a), (_ !! a).
Qed.

Lemma merge_foldl_lookup
    (ds : list TechniqueDescriptor.PartialTechniqueDescriptor) (a : string) :
  forall acc,
    TechniqueDescriptor.attrScopes
      (foldl TechniqueDescriptor.mergeStep acc ds) !! a
    = match TechniqueDescriptor.lastScope a ds with
      | Some scope => Some scope
      | None => TechniqueDescriptor.attrScopes acc !! a
      end.
Proof.
  induction ds as [|d ds IH]; intros acc; [done|].
  cbn [foldl TechniqueDescriptor.lastScope]. rewrite IH, mergeStep_lookup.
  by destruct (TechniqueDescriptor.lastScope a ds).
Qed.

Lemma lastScope_app (a : string)
    (l1 l2 : list TechniqueDescriptor.PartialTechniqueDescriptor) :
  TechniqueDescriptor.lastScope a (l1 ++ l2)
  = match TechniqueDescriptor.lastScope a l2 with
    | Some scope => Some scope
    | None => TechniqueDescriptor.lastScope a l1
    end.
Proof.
  induction l1 as [|d l1 IH]; cbn.
  - by destruct (TechniqueDescriptor.lastScope a l2).
  - rewrite IH. by destruct (TechniqueDescriptor.lastScope a l2).
Qed.

Lemma descriptor_eq (d1 d2 : TechniqueDescriptor.TechniqueDescriptor) :
  (forall a, TechniqueDescriptor.attrScopes d1 !! a
             = TechniqueDescriptor.attrScopes d2 !! a) ->
  d1 = d2.
Proof. destruct d1, d2. cbn. intros H. f_equal. by apply map_eq. Qed.

(** X12.  In the descriptor [mergeTechniqueDescriptor] returns, a property
    has the scope that the last of the given descriptors that mentions it
    gives to it, and no scope if none mentions it; descriptors without
    [attrScopes] count for nothing. *)
Theorem mergeTechniqueDescriptor_last_wins
    (descriptors : list TechniqueDescriptor.PartialTechniqueDescriptor)
    (a : string) :
  TechniqueDescriptor.attrScopes
    (TechniqueDescriptor.mergeTechniqueDescriptor descriptors) !! a
  = TechniqueDescriptor.lastScope a descriptors.
Proof.
  unfold TechniqueDescriptor.mergeTechniqueDescriptor.
  rewrite merge_foldl_lookup. cbn. rewrite lookup_empty.
  by destruct (TechniqueDescriptor.lastScope a descriptors).
Qed.

(** X13.  Merging is flat: a merged descriptor among the arguments counts
    as the descriptors it was merged from.  In particular, merging a
    descriptor [d] with a descriptor that was itself merged from [d] and
    others adds nothing (as Techniques.ts does for the squares and circles
    techniques with the base descriptor). *)
Theorem mergeTechniqueDescriptor_flat
    (before inner after : list TechniqueDescriptor.PartialTechniqueDescriptor)
    (d : TechniqueDescriptor.TechniqueDescriptor) :
  TechniqueDescriptor.mergeTechniqueDescriptor
    (before
     ++ TechniqueDescriptor.partial
          (TechniqueDescriptor.mergeTechniqueDescriptor inner) :: after)
  = TechniqueDescriptor.mergeTechniqueDescriptor (before ++ inner ++ after)
  /\ TechniqueDescriptor.mergeTechniqueDescriptor
       [TechniqueDescriptor.partial d;
        TechniqueDescriptor.partial
          (TechniqueDescriptor.mergeTechniqueDescriptor
             (TechniqueDescriptor.partial d :: inner))]
     = TechniqueDescriptor.mergeTechniqueDescriptor
         (TechniqueDescriptor.partial d :: inner).
Proof.
  assert (forall a l,
            TechniqueDescriptor.lastScope a
              [TechniqueDescriptor.partial
                 (TechniqueDescriptor.mergeTechniqueDescriptor l)]
            = TechniqueDescriptor.lastScope a l) as Hone.
  { intros a l. cbn.
    pose proof (merge_foldl_lookup l a (TechniqueDescriptor.mkDescriptor ∅))
      as H. cbn in H. rewrite lookup_empty in H.
    unfold TechniqueDescriptor.mergeTechniqueDescriptor. rewrite H.
    by destruct (TechniqueDescriptor.lastScope a l). }
  split; apply descriptor_eq; intros a;
    unfold TechniqueDescriptor.mergeTechniqueDescriptor;
    rewrite !merge_foldl_lookup; f_equal.
  - change (?x :: after) with ([x] ++ after).
    rewrite !lastScope_app, Hone.
    by destruct (TechniqueDescriptor.lastScope a after),
                (TechniqueDescriptor.lastScope a inner).
  - change [TechniqueDescriptor.partial d; ?x]
      with ([TechniqueDescriptor.partial d] ++ [x]).
    rewrite lastScope_app, Hone. cbn.
    by destruct (TechniqueDescriptor.lastScope a inner),
                (TechniqueDescriptor.attrScopes d !! a).
Qed.

(** * What a created technique holds *)

(** X14.  The technique [createTechnique] builds carries the position it
    gets in the technique list under [_index] and the index of the rule
    under [_styleSetIndex], whatever the attributes of the rule are called;
    under any other name it carries what the last assignment left there:
    a forwarded attribute before a feature attribute, before an evaluated
    technique attribute, before a static attribute, before the technique
    name (which an attribute called [name] therefore replaces). *)
Theorem createTechnique_precedence (s : Style) (p : StyleInternalParams)
    (dynamicAttrs : list (string * option Val))
    (ts : list IndexedTechnique) :
  let t := (createTechnique s p dynamicAttrs ts).1 in
  t !! "_index" = Some (PValue (VNum (Z.of_nat (length ts))))
  /\ t !! "_styleSetIndex"
     = Some (propOfOption (VNum ∘ Z.of_nat <$> _styleSetIndex p))
  /\ forall a, a <> "_index" -> a <> "_styleSetIndex" ->
       t !! a = createdProperty s p dynamicAttrs a.
Proof.
  cbn. unfold buildTechnique. split; [|split].
  - rewrite lookup_insert_ne by done. by rewrite lookup_insert_eq.
  - by rewrite lookup_insert_eq.
  - intros a Hi Hs. rewrite !lookup_insert_ne by done.
    rewrite !assignAll_lookup. unfold createdProperty.
    destruct (assigned a (forwardable _)); [done|].
    destruct (assigned a (default [] (_dynamicFeatureAttributes p)));
      [done|].
    destruct (assigned a dynamicAttrs); [done|].
    destruct (assigned a (default [] (_staticAttributes p))); [done|].
    destruct (decide (a = "name")) as [->|Hn].
    + by rewrite lookup_insert_eq.
    + rewrite lookup_insert_ne by done. apply lookup_empty.
Qed.

(** * Readers of technique objects *)

Lemma getProperty_decoded (t : IndexedTechnique) (k : string) :
  getProperty (makeDecodedTechnique t) k
  = if instanceofExpr (getProperty t k) then PUndefined
    else getProperty t k.
Proof.
  unfold getProperty. rewrite makeDecodedTechnique_filter.
  destruct (t !! k) as [v|] eqn:Hk; cbn.
  - destruct (instanceofExpr v) eqn:Hv.
    + assert (filter (fun a : string * PropValue =>
                        instanceofExpr a.2 = false) t !! k = None) as ->.
      { apply map_lookup_filter_None. right. intros v' Hv'. cbn.
        simplify_eq. by rewrite Hv. }
      done.
    + assert (filter (fun a : string * PropValue =>
                        instanceofExpr a.2 = false) t !! k = Some v) as ->
        by (by apply map_lookup_filter_Some). done.
  - assert (filter (fun a : string * PropValue =>
                      instanceofExpr a.2 = false) t !! k = None) as ->
      by (apply map_lookup_filter_None; by left). done.
Qed.

Lemma isString_decoded (str : string) (t : IndexedTechnique) (k : string) :
  isString str (getProperty (makeDecodedTechnique t) k)
  = isString str (getProperty t k).
Proof. rewrite getProperty_decoded. by destruct (getProperty t k). Qed.

Lemma asString_decoded (t : IndexedTechnique) (k : string) :
  asString (getProperty (makeDecodedTechnique t) k)
  = asString (getProperty t k).
Proof. rewrite getProperty_decoded. by destruct (getProperty t k). Qed.

(** X15.  Decoding does not change the kind of a technique: each type
    guard, [needsVertexNormals] and [composeTechniqueTextureName] give the
    same answer for the decoded technique as for the technique; and
    [textureCoordinateType] gives the same answer unless that answer was an
    [Expr], which is dropped. *)
Theorem decoding_keeps_kind (t : IndexedTechnique) :
  Forall (fun guard => guard (makeDecodedTechnique t) = guard t)
         techniqueGuards
  /\ needsVertexNormals (makeDecodedTechnique t) = needsVertexNormals t
  /\ (forall imageName,
        composeTechniqueTextureName imageName (makeDecodedTechnique t)
        = composeTechniqueTextureName imageName t)
  /\ textureCoordinateType (makeDecodedTechnique t)
     = if instanceofExpr (textureCoordinateType t) then PUndefined
       else textureCoordinateType t.
Proof.
  split; [|split; [|split]].
  - unfold techniqueGuards. repeat constructor;
      unfold isBasicExtrudedLineTechnique, isStandardExtrudedLineTechnique,
        isCirclesTechnique, isSquaresTechnique, isPoiTechnique,
        isLineMarkerTechnique, isDashedLineTechnique, isLineTechnique,
        isSolidLineTechnique, isSegmentsTechnique, isExtrudedLineTechnique,
        isFillTechnique, isExtrudedPolygonTechnique, isStandardTechnique,
        isTerrainTechnique, isTextTechnique, isShaderTechnique;
      by rewrite !isString_decoded.
  - unfold needsVertexNormals, isStandardExtrudedLineTechnique,
      isExtrudedLineTechnique, isStandardTechnique, isTerrainTechnique.
    by rewrite !isString_decoded.
  - intros imageName. unfold composeTechniqueTextureName.
    by rewrite !asString_decoded.
  - unfold textureCoordinateType, isStandardTechnique,
      isExtrudedPolygonTechnique, isTerrainTechnique.
    rewrite !isString_decoded, getProperty_decoded.
    destruct (isString "standard" _); [done|].
    destruct (isString "extruded-polygon" _); [done|].
    by destruct (isString "terrain" _).
Qed.

(** * Evaluating the attributes of a technique for a feature *)

(** X16.  [evaluateFeatureAttr] on a property of a decoded technique never
    evaluates an expression: it does not throw, and its result does not
    depend on the properties of the feature.  With a default value it
    never returns [undefined], whatever the attribute is. *)
Theorem evaluateFeatureAttr_decoded
    (getPropertyValue : InterpolatedProperty -> Z -> option Val)
    (t : IndexedTechnique) (k : string) (env1 env2 : MapEnv) (level : Z)
    (defaultValue : option Val) :
  let attrValue := getProperty (makeDecodedTechnique t) k in
  isThrow (evaluateFeatureAttr getPropertyValue attrValue
             (createFeatureEnv env1 level) defaultValue) = false
  /\ evaluateFeatureAttr getPropertyValue attrValue
       (createFeatureEnv env1 level) defaultValue
     = evaluateFeatureAttr getPropertyValue attrValue
         (createFeatureEnv env2 level) defaultValue
  /\ forall (anyValue : PropValue) (fenv : FeatureEnv) (d : Val),
       evaluateFeatureAttr getPropertyValue anyValue fenv (Some d)
       <> Ret None.
Proof.
  cbn zeta. rewrite getProperty_decoded. split; [|split].
  - destruct (getProperty t k) as [|v|e|ip]; cbn; try done.
    by destruct (getPropertyValue ip level).
  - by destruct (getProperty t k).
  - intros anyValue fenv d. unfold evaluateFeatureAttr.
    destruct anyValue as [|v|e|ip]; try done.
    + by destruct (evaluate e (env fenv)) as [[?|]|].
    + by destruct (getPropertyValue ip (storageLevel fenv)).
Qed.

(** X17.  A feature-scope attribute that the rule declares as an
    expression is carried by the created technique unevaluated, unless a
    forwarded attribute of the same name hides it, and
    [evaluateFeatureAttr] without a default gives for it what the
    expression evaluates to for the feature at hand: features that share
    the technique still get their own values. *)
Theorem featureAttr_evaluated_per_feature
    (getPropertyValue : InterpolatedProperty -> Z -> option Val)
    (s : Style) (p : StyleInternalParams)
    (dynamicAttrs : list (string * option Val))
    (ts : list IndexedTechnique) (a : string) (e : Expr)
    (fenv : FeatureEnv) :
  a <> "_index" -> a <> "_styleSetIndex" ->
  assigned a (default [] (_dynamicFeatureAttributes p)) = Some (DynExpr e) ->
  a ∉ (default [] (_dynamicForwaredAttributes p)).*1 ->
  let t := (createTechnique s p dynamicAttrs ts).1 in
  t !! a = Some (PExpr e)
  /\ evaluateFeatureAttr getPropertyValue (getProperty t a) fenv None
     = evaluate e (env fenv).
Proof.
  intros Hi Hs Hfeat Hfwd. cbn zeta.
  assert ((createTechnique s p dynamicAttrs ts).1 !! a = Some (PExpr e))
    as Ht.
  { cbn. unfold buildTechnique. rewrite !lookup_insert_ne by done.
    rewrite assignAll_lookup, assigned_None.
    2:{ intros Hin. apply Hfwd. unfold forwardable in Hin.
        apply list_elem_of_fmap in Hin as (x & -> & Hx).
        apply list_elem_of_filter in Hx as [_ Hx].
        apply list_elem_of_fmap. by exists x. }
    by rewrite assignAll_lookup, Hfeat. }
  split; [exact Ht|]. unfold getProperty. rewrite Ht. cbn.
  unfold evaluateFeatureAttr.
  by destruct (evaluate e (env fenv)) as [[?|]|].
Qed.

(** * Walks without final rules *)

Lemma untilTrue_never_true {A S E : Type}
    (body : A -> S -> A * S * Outcome E bool) (l : list A) :
  Forall (fun x => forall st, (body x st).2 <> Ret true) l ->
  forall st, (untilTrue body l st).2 <> Ret true.
Proof.
  induction 1 as [|x rest Hx _ IH]; intros st; [done|].
  cbn. specialize (Hx st).
  destruct (body x st) as [[x' st1] [[]|e]]; [done| |done].
  specialize (IH st1). by destruct (untilTrue body rest st1) as [[? ?] ?].
Qed.

Lemma noFinal_cons (x : InternalStyle) (l : list InternalStyle) :
  noFinal (x :: l) = noFinal [x] && noFinal l.
Proof.
  unfold noFinal. cbn. by rewrite app_nil_r, forallb_app.
Qed.

Lemma noFinal_Forall (l : list InternalStyle) :
  noFinal l = true -> Forall (fun x => noFinal [x] = true) l.
Proof.
  induction l as [|x l IH]; [constructor|].
  rewrite noFinal_cons. intros [? ?]%andb_prop. constructor; auto.
Qed.

Lemma processStyle_no_final (env : MapEnv) (x : InternalStyle) :
  noFinal [x] = true ->
  forall styleStack st, (processStyle env styleStack x st).2 <> Ret true.
Proof.
  induction x as [s p|s p l IH] using InternalStyle_tree_ind;
    intros Hnf styleStack st; cbn [processStyle];
    destruct (checkWhen env s p st) as [[p1 st1] [|]]; try done.
  - unfold noFinal in Hnf. cbn in Hnf.
    destruct (isFinal s) eqn:Hf; [done|].
    destruct (technique s) as [name|]; [|done].
    destruct (isNone_technique (Some name)); [done|].
    by destruct (applyTechnique env s p1 styleStack st1)
      as [[p2 st2] [[]|err]].
  - assert (noFinal l = true) as Hl.
    { unfold noFinal in *. cbn in Hnf. rewrite app_nil_r in Hnf.
      by apply andb_prop in Hnf as [_ ?]. }
    apply noFinal_Forall in Hl.
    pose proof (untilTrue_never_true (processStyle env (styleStack ++ [s])) l)
      as Hloop.
    specialize (Hloop ltac:(apply Forall_forall; intros y Hy;
                            rewrite Forall_forall in IH, Hl;
                            intros st'; apply IH; auto) st1).
    by destruct (untilTrue _ l st1) as [[l' st2] o].
Qed.

(** X18.  When no rule of the style set carries [final: true], nothing but
    an exception ends the walk early: if [getMatchingTechniques] returns,
    [processStyle] was called for every top-level rule. *)
Theorem without_final_every_rule_visited (env : MapEnv)
    (ev : StyleSetEvaluator) (pre post : list InternalStyle)
    (x : InternalStyle) :
  noFinal (styleSet ev) = true ->
  isThrow (getMatchingTechniques env ev).2 = false ->
  styleSet ev = pre ++ x :: post ->
  exists st,
    Reaches env [] (styleSet ev) (mkWalk (m_techniques ev) [] []) [] x st.
Proof.
  intros Hnf Hret Hsplit. unfold getMatchingTechniques in Hret.
  rewrite Hsplit in *. unfold processStyles in Hret.
  rewrite untilTrue_app in Hret.
  assert (noFinal pre = true) as Hpre.
  { unfold noFinal in *. rewrite bind_app, forallb_app in Hnf.
    by apply andb_prop in Hnf as [? _]. }
  pose proof (untilTrue_never_true (processStyle env []) pre
                ltac:(apply Forall_forall; intros y Hy st';
                      apply processStyle_no_final;
                      apply noFinal_Forall in Hpre;
                      rewrite Forall_forall in Hpre; auto)
                (mkWalk (m_techniques ev) [] [])) as Hnt.
  destruct (untilTrue (processStyle env []) pre _)
    as [[pre' st1] [[]|err]] eqn:Hrun; [done| |done].
  exists st1. by eapply reaches_here.
Qed.

(** * Leaves that yield no technique *)

(** X19.  A leaf rule without a technique, or with the technique
    ["none"], never yields, creates or caches a technique, is never
    partitioned, and never throws, whatever its attributes are.  With the
    technique ["none"] it still ends the walk when it matches and carries
    [final: true]; without a technique it never does. *)
Theorem leaf_without_technique_yields_nothing (env : MapEnv)
    (styleStack : list Style) (s : Style) (p : StyleInternalParams)
    (st : WalkState) :
  (forall name, technique s = Some name -> name = "none") ->
  let r := processStyle env styleStack (IStyle s p None) st in
  w_result r.1.2 = w_result st
  /\ w_techniques r.1.2 = w_techniques st
  /\ cachedTechniques (params r.1.1) = cachedTechniques p
  /\ _dynamicTechniqueAttributes (params r.1.1)
     = _dynamicTechniqueAttributes p
  /\ r.2 = Ret (match technique s with
                | Some _ => whenHolds env s p && isFinal s
                | None => false
                end).
Proof.
  intros Hnone. cbn zeta. cbn [processStyle].
  destruct (checkWhen_cached env s p st) as [Hc Hr].
  pose proof (checkWhen_techniques env s p st) as Ht.
  pose proof (checkWhen_params env s p st) as Hp.
  assert ((checkWhen env s p st).2 = whenHolds env s p) as Hb.
  { rewrite checkWhen_outcome. unfold whenHolds.
    destruct (when s) as [w|] eqn:Hw; unfold whenOutcome; rewrite Hw;
      [|done].
    by destruct (tryWhen env w p) as [p1 [[]|err]]. }
  destruct (checkWhen env s p st) as [[p1 st1] b]. cbn in *. subst b.
  assert (_dynamicTechniqueAttributes p1 = _dynamicTechniqueAttributes p)
    as Hd by (by destruct Hp as [->|[e ->]]).
  destruct (whenHolds env s p).
  - destruct (technique s) as [name|] eqn:Htech; [|done].
    rewrite (Hnone name eq_refl). done.
  - by destruct (technique s).
Qed.

(** * No technique is cached twice *)

Lemma checkStyleDynamicAttributes_cached_sub (s : Style)
    (p : StyleInternalParams) (styleStack : list Style) :
  cachedTechniques (checkStyleDynamicAttributes s p styleStack).1
  ⊆+ cachedTechniques p.
Proof.
  unfold checkStyleDynamicAttributes.
  destruct (_dynamicTechniqueAttributes p); [done|].
  destruct (isNone_technique (technique s)); [done|].
  destruct (processAttributes _ _ _) as [a [[]|err]]; [|done].
  destruct (dynamicTechniqueAttributes a); [done|].
  unfold cachedTechniques. cbn. rewrite map_to_list_empty. cbn.
  rewrite app_nil_r. by apply submseteq_inserts_r.
Qed.

Lemma applyTechnique_cached_new (env : MapEnv) (s : Style)
    (p : StyleInternalParams) (styleStack : list Style) (st : WalkState) :
  exists added,
    w_techniques (applyTechnique env s p styleStack st).1.2
    = w_techniques st ++ added
    /\ cachedTechniques (applyTechnique env s p styleStack st).1.1
       ⊆+ cachedTechniques p ++ added.
Proof.
  unfold applyTechnique.
  pose proof (checkStyleDynamicAttributes_cached_sub s p styleStack) as Hsub.
  destruct (checkStyleDynamicAttributes s p styleStack) as [p1 [[]|err]];
    cbn in Hsub.
  2:{ exists []. by rewrite !app_nil_r. }
  destruct (_dynamicTechniques p1) as [cache|] eqn:Hcache.
  - destruct (evaluateTechniqueProperties p1 env) as [attrs|err].
    2:{ exists []. by rewrite !app_nil_r. }
    destruct (cache !! _) as [t|] eqn:Hl.
    { exists []. by rewrite !app_nil_r. }
    eexists [_]. split; [done|]. cbn.
    etrans; [|apply submseteq_app; [exact Hsub|done]].
    unfold cachedTechniques. cbn. rewrite Hcache.
    rewrite map_to_list_insert by done. cbn.
    rewrite <- app_assoc. apply submseteq_app; [done|].
    apply Permutation_submseteq. apply Permutation_cons_append.
  - destruct (_staticTechnique p1) as [t|] eqn:Hs.
    { exists []. by rewrite !app_nil_r. }
    eexists [_]. split; [done|]. cbn.
    etrans; [|apply submseteq_app; [exact Hsub|done]].
    unfold cachedTechniques. cbn. rewrite Hcache, Hs. done.
Qed.

Lemma untilTrue_cached_new {E : Type}
    (body : InternalStyle -> WalkState
            -> InternalStyle * WalkState * Outcome E bool)
    (l : list InternalStyle) :
  Forall (fun x => forall st,
            cachesOnlyNew x (body x st).1.1 st (body x st).1.2) l ->
  forall st,
    exists added,
      w_techniques (untilTrue body l st).1.2 = w_techniques st ++ added
      /\ (untilTrue body l st).1.1 ≫= allCached
         ⊆+ (l ≫= allCached) ++ added.
Proof.
  induction 1 as [|x rest Hx _ IH]; intros st.
  - exists []. by rewrite !app_nil_r.
  - cbn. destruct (Hx st) as (a1 & Ht1 & Hc1).
    destruct (body x st) as [[x' st1] [[]|e]]; cbn in *.
    + exists a1. split; [done|].
      rewrite <- app_assoc, (Permutation_app_comm _ a1), app_assoc.
      by apply submseteq_app.
    + destruct (IH st1) as (a2 & Ht2 & Hc2).
      destruct (untilTrue body rest st1) as [[rest' st2] o]. cbn in *.
      exists (a1 ++ a2). split; [by rewrite Ht2, Ht1, app_assoc|].
      etrans; [apply submseteq_app; [exact Hc1|exact Hc2]|].
      apply Permutation_submseteq.
      rewrite <- !app_assoc. apply Permutation_app_head.
      rewrite !app_assoc. apply Permutation_app_tail.
      apply Permutation_app_comm.
    + exists a1. split; [done|].
      rewrite <- app_assoc, (Permutation_app_comm _ a1), app_assoc.
      by apply submseteq_app.
Qed.

Lemma processStyle_cached_new (env : MapEnv) (x : InternalStyle) :
  forall styleStack st,
    cachesOnlyNew x (processStyle env styleStack x st).1.1 st
                  (processStyle env styleStack x st).1.2.
Proof.
  unfold cachesOnlyNew.
  induction x as [s p|s p l IH] using InternalStyle_tree_ind;
    intros styleStack st; cbn [processStyle];
    pose proof (checkWhen_techniques env s p st) as Hw;
    destruct (checkWhen_cached env s p st) as [Hcw _];
    destruct (checkWhen env s p st) as [[p1 st1] [|]]; cbn in Hw, Hcw;
    cbn [allCached fst snd]; rewrite <- Hw, <- Hcw;
    try (exists []; by rewrite !app_nil_r).
  - destruct (technique s) as [name|];
      [|exists []; by rewrite !app_nil_r].
    destruct (isNone_technique (Some name));
      [exists []; by rewrite !app_nil_r|].
    pose proof (applyTechnique_cached_new env s p1 styleStack st1) as Ha.
    by destruct (applyTechnique env s p1 styleStack st1)
      as [[p2 st2] [[]|err]].
  - destruct (untilTrue_cached_new (processStyle env (styleStack ++ [s])) l
                (Forall_impl _ _ _ IH (fun x Hx => Hx _)) st1)
      as (added & Ht & Hc).
    destruct (untilTrue _ l st1) as [[l' st2] o]. cbn in *.
    exists added. split; [done|]. rewrite <- app_assoc.
    by apply submseteq_app.
Qed.

Lemma getMatchingTechniques_cached_once (env : MapEnv)
    (ev : StyleSetEvaluator) :
  styleSet ev ≫= allCached ⊆+ m_techniques ev ->
  styleSet (getMatchingTechniques env ev).1.1 ≫= allCached
  ⊆+ m_techniques (getMatchingTechniques env ev).1.1.
Proof.
  intros Hinv. unfold getMatchingTechniques, processStyles.
  destruct (untilTrue_cached_new (processStyle env []) (styleSet ev)
              (Forall_true _ _ (fun x => processStyle_cached_new env x []))
              (mkWalk (m_techniques ev) [] [])) as (added & Ht & Hc).
  destruct (untilTrue _ _ _) as [[tree st] o]. cbn in *.
  rewrite Ht. etrans; [exact Hc|]. by apply submseteq_app.
Qed.

Lemma indexed_NoDup (ts : list IndexedTechnique) :
  indexed ts -> NoDup (techniqueIndex <$> ts).
Proof.
  intros Hix. apply NoDup_alt. intros i j o Hi Hj.
  rewrite list_lookup_fmap in Hi, Hj.
  destruct (ts !! i) as [ti|] eqn:Hti; [|done].
  destruct (ts !! j) as [tj|] eqn:Htj; [|done].
  cbn in *. rewrite (Hix _ _ Hti) in Hi. rewrite (Hix _ _ Htj) in Hj.
  simplify_eq. lia.
Qed.

(** X20.  Take an evaluator as built by the constructor and then used for
    any sequence of calls.  The techniques held in the caches of its
    rules, all taken together, are entries of the technique list, each
    cached once: they carry pairwise different [_index] values.  So no
    two rules share a technique, and under two cache keys of one rule
    there are two techniques. *)
Theorem techniques_cached_once (input : list StyleDeclaration)
    (ev0 : StyleSetEvaluator) (envs : list MapEnv) :
  new_StyleSetEvaluator input = Some ev0 ->
  let ev := afterCalls envs ev0 in
  styleSet ev ≫= allCached ⊆+ techniques ev
  /\ NoDup (techniqueIndex <$> (styleSet ev ≫= allCached)).
Proof.
  intros Hnew ev.
  assert (styleSet ev ≫= allCached ⊆+ m_techniques ev) as Hsub.
  { subst ev. induction envs as [|env envs IH] using rev_ind.
    - cbn. by rewrite (new_StyleSetEvaluator_cached _ _ Hnew),
                      (new_StyleSetEvaluator_techniques _ _ Hnew).
    - unfold afterCalls in *. rewrite foldl_app. cbn.
      by apply getMatchingTechniques_cached_once. }
  split; [exact Hsub|].
  pose proof (indexed_NoDup _ (afterCalls_indexed input ev0 envs Hnew))
    as Hnd.
  apply (fmap_submseteq techniqueIndex), submseteq_Permutation in Hsub
    as [rest Hperm].
  fold ev in Hnd. rewrite Hperm in Hnd. by apply NoDup_app in Hnd as [? _].
Qed.

(** * Declarations the partition drops *)

Lemma processAttribute_unsupported (tech : option string) (a0 : AttrLists)
    (n : string) (d : AttrDecl) (a : string) :
  (n = a -> unsupported tech (n, d) = true) ->
  absentFrom a a0 -> absentFrom a (processAttribute tech a0 n d).1.
Proof.
  intros Hun (Hs & Ht & Hf & Hw). unfold absentFrom, processAttribute.
  assert (forall (B : Type) (l : list (string * B)) (x : B),
            n <> a -> a ∉ l.*1 -> a ∉ (l ++ [(n, x)]).*1) as Hsnoc.
  { intros B l x Hne Hl. rewrite fmap_app. cbn.
    intros [?|Hin]%elem_of_app; [done|].
    apply list_elem_of_singleton in Hin. done. }
  unfold unsupported in Hun. cbn in Hun.
  destruct d as [v|j|def]; cbn.
  - assert (n <> a) as Hne by (intros ->; by specialize (Hun eq_refl)).
    repeat split; auto.
  - destruct (Expr_fromJSON j); [|done].
    destruct (techniqueAttrType n tech) eqn:Hty; cbn; repeat split; auto;
      apply Hsnoc; auto; intros ->; by specialize (Hun eq_refl).
  - destruct (createInterpolatedProperty def); [|done].
    destruct (techniqueAttrType n tech) eqn:Hty; cbn; repeat split; auto;
      apply Hsnoc; auto; intros ->; by specialize (Hun eq_refl).
Qed.

Lemma processAttributes_unsupported (tech : option string)
    (decls : list (string * AttrDecl)) (a : string) :
  Forall (fun d => d.1 = a -> unsupported tech d = true) decls ->
  forall a0, absentFrom a a0 ->
             absentFrom a (processAttributes tech decls a0).1.
Proof.
  induction 1 as [|[n d] decls Hd _ IH]; intros a0 Ha0; [done|].
  cbn [processAttributes].
  pose proof (processAttribute_unsupported tech a0 n d a Hd Ha0) as H1.
  destruct (processAttribute tech a0 n d) as [a1 [[]|err]]; [|done].
  by apply IH.
Qed.

(** X21.  An attribute that the rule and its ancestors declare only in
    ways the partition has no list for (an expression in the scope of
    neither the feature nor the technique, an interpolated property
    without scope or one that cannot be created) is dropped: the created
    technique has no property of that name. *)
Theorem unsupported_attribute_dropped (env : MapEnv) (s : Style)
    (p p' : StyleInternalParams) (styleStack : list Style) (a : string)
    (attrs : list (string * option Val)) (ts : list IndexedTechnique) :
  unmatched p ->
  isNone_technique (technique s) = false ->
  checkStyleDynamicAttributes s p styleStack = (p', Ret tt) ->
  Forall (fun d => d.1 = a -> unsupported (technique s) d = true)
         (chainAttributes styleStack s) ->
  a <> "name" -> a <> "_index" -> a <> "_styleSetIndex" ->
  evaluateTechniqueProperties p' env = Ret attrs ->
  (createTechnique s p' attrs ts).1 !! a = None.
Proof.
  intros (Hattrs & Hcache & Hstatic) Hnone Hcheck Hun Hn Hi Hs Hev.
  unfold checkStyleDynamicAttributes in Hcheck.
  rewrite Hattrs, Hnone in Hcheck.
  pose proof (processAttributes_unsupported _ _ a Hun noLists) as Habs.
  specialize (Habs ltac:(repeat split; apply not_elem_of_nil)).
  destruct (processAttributes _ _ _) as [al [[]|err]]; [|done].
  destruct Habs as (Hst & Ht & Hf & Hw). cbn in Hst, Ht, Hf, Hw.
  assert (_staticAttributes p' = Some (staticAttributes al)
          /\ _dynamicTechniqueAttributes p'
             = Some (dynamicTechniqueAttributes al)
          /\ _dynamicFeatureAttributes p'
             = Some (dynamicFeatureAttributes al)
          /\ _dynamicForwaredAttributes p'
             = Some (dynamicForwardedAttributes al)) as (H1 & H2 & H3 & H4).
  { injection Hcheck as <-.
    destruct (dynamicTechniqueAttributes al) eqn:E; cbn; rewrite ?E; done. }
  assert (a ∉ attrs.*1) as Hdyn.
  { unfold evaluateTechniqueProperties in Hev. rewrite H2 in Hev.
    by rewrite (mapOutcome_names _ _ _ Hev). }
  cbn. unfold buildTechnique. rewrite !lookup_insert_ne by done.
  rewrite H1, H3, H4. cbn [from_option id].
  rewrite assignAll_lookup, assigned_None.
  2:{ intros Hin. apply Hw. unfold forwardable in Hin.
      apply list_elem_of_fmap in Hin as (x & -> & Hx).
      apply list_elem_of_filter in Hx as [_ Hx].
      apply list_elem_of_fmap. by exists x. }
  rewrite assignAll_lookup, assigned_None by done.
  rewrite assignAll_lookup, assigned_None by done.
  rewrite assignAll_lookup, assigned_None by done.
  rewrite lookup_insert_ne by done. apply lookup_empty.
Qed.

End Properties.

(** * The theorems at work on the sample style sets *)

Section Witnesses.

#[local] Existing Instance Demo.impl.

Lemma groupedSet_constructed :
  new_StyleSetEvaluator Demo.groupedSet = Some Demo.groupedEvaluator.
Proof. apply default_Some, is_Some_alt. vm_compute. exact I. Qed.

(** The constructor on the grouped style set: the two leaves outside the
    group get 0 and 3, the two rules of the group both get 1. *)
Example groupedSet_orders :
  (fun r => renderOrder r.2) <$> resolvedRules Demo.groupedEvaluator
  = [Some (ofZ 0); Some (ofZ 1); Some (ofZ 1); Some (ofZ 3)].
Proof. vm_compute. reflexivity. Qed.

Lemma biasGroup_orders_equal_when_recorded_witness :
  let declared := styleSetRules Demo.groupedSet in
  let resolved := resolvedRules Demo.groupedEvaluator in
  new_StyleSetEvaluator Demo.groupedSet = Some Demo.groupedEvaluator
  /\ "roads" <> ""
  /\ firstInGroup "roads" declared = Some (Demo.ruleAt 1 declared)
  /\ renderOrderBiasRange (Demo.ruleAt 1 declared).2 <> None
  /\ (forall n, m_renderOrderBiasGroups Demo.groupedEvaluator !! "roads"
                = Some n -> ToBoolean n = true)
  /\ Demo.ruleAt 1 resolved ∈ resolved
  /\ Demo.ruleAt 2 resolved ∈ resolved
  /\ inGroup "roads" (Demo.ruleAt 1 resolved)
  /\ inGroup "roads" (Demo.ruleAt 2 resolved)
  /\ renderOrder (Demo.ruleAt 1 resolved).2
     = renderOrder (Demo.ruleAt 2 resolved).2.
Proof.
  intros declared resolved.
  assert (new_StyleSetEvaluator Demo.groupedSet = Some Demo.groupedEvaluator)
    as H1 by (apply default_Some, is_Some_alt; vm_compute; exact I).
  assert ("roads" <> "") as H2 by discriminate.
  assert (firstInGroup "roads" declared = Some (Demo.ruleAt 1 declared))
    as H3 by (vm_compute; reflexivity).
  assert (renderOrderBiasRange (Demo.ruleAt 1 declared).2 <> None) as H4
    by (vm_compute; discriminate).
  assert (forall n, m_renderOrderBiasGroups Demo.groupedEvaluator !! "roads"
                    = Some n -> ToBoolean n = true) as H5.
  { intros n Hn. vm_compute in Hn. injection Hn as <-. reflexivity. }
  assert (Demo.ruleAt 1 resolved ∈ resolved) as H6.
  { apply list_elem_of_lookup. exists 1%nat. vm_compute; reflexivity. }
  assert (Demo.ruleAt 2 resolved ∈ resolved) as H7.
  { apply list_elem_of_lookup. exists 2%nat. vm_compute; reflexivity. }
  assert (inGroup "roads" (Demo.ruleAt 1 resolved)) as H8
    by (vm_compute; reflexivity).
  assert (inGroup "roads" (Demo.ruleAt 2 resolved)) as H9
    by (vm_compute; reflexivity).
  repeat (split; [assumption|]).
  exact (biasGroup_orders_equal_when_recorded Demo.groupedSet
           Demo.groupedEvaluator "roads" _ _ _ H1 H2 H3 H4 H5 H6 H7 H8 H9).
Defined.

(** C1 as stated fails when the first rule of a group has no range: that
    rule keeps the order it gets from the counter (0), and the group is
    only recorded at the second rule (with the order 1). *)
Lemma biasGroup_rangeless_first_counterexample :
  ~ biasGroup_orders_equal Demo.rangelessFirstSet.
Proof.
  intros Hclaim.
  assert (new_StyleSetEvaluator Demo.rangelessFirstSet
          = Some Demo.rangelessFirstEvaluator) as Hev
    by (apply default_Some, is_Some_alt; vm_compute; exact I).
  pose (resolved := resolvedRules Demo.rangelessFirstEvaluator).
  assert (renderOrder (Demo.ruleAt 0 resolved).2
          = renderOrder (Demo.ruleAt 1 resolved).2) as Heq.
  { apply (Hclaim _ Hev "roads").
    - discriminate.
    - apply list_elem_of_lookup. exists 0%nat. vm_compute; reflexivity.
    - apply list_elem_of_lookup. exists 1%nat. vm_compute; reflexivity.
    - vm_compute; reflexivity.
    - vm_compute; reflexivity. }
  vm_compute in Heq. discriminate.
Qed.

(** The slip in the constructor: a group recorded with the order zero is
    not found again, because the recorded order is tested for truth.  The
    second rule of the group gets 2 from the counter instead of 0. *)
Example biasGroup_zero_order_not_reused :
  (fun r => (renderOrderBiasGroup r.2, renderOrder r.2))
    <$> from_option resolvedRules []
          (new_StyleSetEvaluator Demo.zeroOrderSet)
  = [(Some "roads", Some (ofZ 0)); (Some "roads", Some (ofZ 2))].
Proof. vm_compute. reflexivity. Qed.

(** Nor is a group that is recorded with NaN, which the counter becomes
    after a range with such a bound: the third rule, of the group
    ["roads"] and without a technique, is left without a render order,
    while the second has the recorded one. *)
Example biasGroup_nan_order_not_reused :
  (fun r => (renderOrderBiasGroup r.2, renderOrder r.2))
    <$> from_option resolvedRules []
          (new_StyleSetEvaluator Demo.nanOrderSet)
  = [(Some "water", Some (ofZ 0)); (Some "roads", Some S754_nan);
     (Some "roads", None)].
Proof. vm_compute. reflexivity. Qed.

Lemma autoAssigned_strictly_increasing_witness :
  let declared := styleSetRules Demo.groupedSet in
  let resolved := resolvedRules Demo.groupedEvaluator in
  Forall (fun r => wellFormedRange r = true) declared
  /\ counterBudget declared < 2 ^ 53
  /\ new_StyleSetEvaluator Demo.groupedSet = Some Demo.groupedEvaluator
  /\ autoAssigned declared resolved = [Some (ofZ 0); Some (ofZ 3)]
  /\ strictlyIncreasingIntegers (autoAssigned declared resolved)
  /\ exists zs,
       autoAssigned declared resolved = Some ∘ ofZ <$> zs
       /\ StronglySorted Z.lt zs
       /\ Forall (fun z => 0 <= z < 2 ^ 53) zs.
Proof.
  intros declared resolved.
  assert (Forall (fun r => wellFormedRange r = true) declared) as Hwf
    by (repeat constructor).
  assert (counterBudget declared < 2 ^ 53) as Hbudget
    by (vm_compute; reflexivity).
  assert (new_StyleSetEvaluator Demo.groupedSet = Some Demo.groupedEvaluator)
    as Hnew by (apply default_Some, is_Some_alt; vm_compute; exact I).
  split; [exact Hwf|]. split; [exact Hbudget|]. split; [exact Hnew|].
  split; [vm_compute; reflexivity|].
  exact (autoAssigned_strictly_increasing Demo.groupedSet
           Demo.groupedEvaluator Hwf Hbudget Hnew).
Defined.

(** C2 as stated fails for a range whose maximum lies far enough below
    its minimum: the block it reserves takes the counter back, and the
    leaves before and after it get 0 and -3. *)
Lemma renderOrders_backward_range_counterexample :
  ~ renderOrders_increasing Demo.backwardRangeSet.
Proof.
  intros Hclaim.
  assert (new_StyleSetEvaluator Demo.backwardRangeSet
          = Some Demo.backwardRangeEvaluator) as Hev
    by (apply default_Some, is_Some_alt; vm_compute; exact I).
  destruct (Hclaim _ Hev) as (xs & Hxs & _ & Hsorted).
  assert (autoAssigned (styleSetRules Demo.backwardRangeSet)
            (resolvedRules Demo.backwardRangeEvaluator)
          = [Some (ofZ 0); Some (ofZ (-3))]) as Hauto
    by (vm_compute; reflexivity).
  rewrite Hauto in Hxs.
  destruct xs as [|x1 [|x2 [|? ?]]]; try discriminate.
  injection Hxs as <- <-.
  apply StronglySorted_inv in Hsorted as [_ Hlt].
  apply Forall_cons in Hlt as [Hlt _].
  vm_compute in Hlt. discriminate.
Qed.

(** Nor do the orders increase once the counter leaves the integers that
    binary64 tells apart: after the range [[0, 2^53 - 1]] the counter
    stays at [2^53], whatever is added to it, and the two leaves that
    follow get the same order.  The ranges of this style set are well
    formed; what it exceeds is the budget. *)
Example renderOrders_saturate :
  Forall (fun r => wellFormedRange r = true)
    (styleSetRules Demo.saturatingSet)
  /\ 2 ^ 53 <= counterBudget (styleSetRules Demo.saturatingSet)
  /\ autoAssigned (styleSetRules Demo.saturatingSet)
       (resolvedRules Demo.saturatingEvaluator)
     = [Some (ofZ 0); Some (ofZ (2 ^ 53)); Some (ofZ (2 ^ 53))]
  /\ ~ renderOrders_increasing Demo.saturatingSet.
Proof.
  assert (autoAssigned (styleSetRules Demo.saturatingSet)
            (resolvedRules Demo.saturatingEvaluator)
          = [Some (ofZ 0); Some (ofZ (2 ^ 53)); Some (ofZ (2 ^ 53))])
    as Hauto by (vm_compute; reflexivity).
  split; [repeat constructor|]. split; [vm_compute; discriminate|].
  split; [exact Hauto|]. intros Hclaim.
  assert (new_StyleSetEvaluator Demo.saturatingSet
          = Some Demo.saturatingEvaluator) as Hev
    by (apply default_Some, is_Some_alt; vm_compute; exact I).
  destruct (Hclaim _ Hev) as (xs & Hxs & _ & Hsorted).
  rewrite Hauto in Hxs.
  destruct xs as [|x1 [|x2 [|x3 [|? ?]]]]; try discriminate.
  injection Hxs as <- <- <-.
  apply StronglySorted_inv in Hsorted as [Hsorted _].
  apply StronglySorted_inv in Hsorted as [_ Hlt].
  apply Forall_cons in Hlt as [Hlt _].
  vm_compute in Hlt. discriminate.
Qed.

(** A range with a bound that is not an integer gives orders that are
    not integers: after a leaf (0) and the range [[0, 0.5]] (the order 1
    and the counter 2.5) the leaves get 2.5 and 3.5. *)
Example renderOrders_fractional :
  autoAssigned (styleSetRules Demo.fractionalSet)
    (from_option resolvedRules []
       (new_StyleSetEvaluator Demo.fractionalSet))
  = [Some (ofZ 0); Some (add (ofZ 2) Demo.half);
     Some (add (ofZ 3) Demo.half)]
  /\ toInteger (add (ofZ 2) Demo.half) = None
  /\ ~ Forall (fun r => wellFormedRange r = true)
         (styleSetRules Demo.fractionalSet).
Proof.
  split. { vm_compute. reflexivity. }
  split. { vm_compute. reflexivity. }
  intros Hwf. apply Forall_cons in Hwf as [_ Hwf].
  apply Forall_cons in Hwf as [Hwf _]. vm_compute in Hwf. discriminate.
Qed.

Lemma technique_index_stable_witness :
  let ev := afterCalls [Demo.narrowRoad; Demo.river] Demo.dynamicEvaluator in
  new_StyleSetEvaluator
    [Demo.leafRule Demo.dynamicLine;
     Demo.leafRule (Demo.withTechnique "text" Demo.rule)]
  = Some Demo.dynamicEvaluator
  /\ (exists appended,
        m_techniques (getMatchingTechniques Demo.wideRoad ev).1.1
        = m_techniques ev ++ appended)
  /\ (forall i t,
        m_techniques (getMatchingTechniques Demo.wideRoad ev).1.1 !! i
        = Some t ->
        techniqueIndex t = Some (Z.of_nat i))
  /\ techniqueIndex <$> m_techniques ev = [Some 0; Some 1; Some 2].
Proof.
  intros ev.
  assert (new_StyleSetEvaluator
            [Demo.leafRule Demo.dynamicLine;
             Demo.leafRule (Demo.withTechnique "text" Demo.rule)]
          = Some Demo.dynamicEvaluator) as Hnew
    by (apply default_Some, is_Some_alt; vm_compute; exact I).
  pose proof (technique_index_stable _ Demo.dynamicEvaluator
                [Demo.narrowRoad; Demo.river] Demo.wideRoad Hnew) as H.
  split; [exact Hnew|]. split; [exact (proj1 (proj2 H))|].
  split; [exact (proj1 (proj2 (proj2 H)))|].
  vm_compute. reflexivity.
Defined.

Lemma when_error_skips_rule_witness :
  when Demo.malformedWhen = Some (WhenJson Demo.Malformed)
  /\ whenThrows Demo.emptyEnv (WhenJson Demo.Malformed) noParams "ParseError"
  /\ processStyle Demo.emptyEnv [] (IStyle Demo.malformedWhen noParams None)
       Demo.freshWalk
     = (IStyle Demo.malformedWhen noParams None,
        mkWalk [] [] [FailedToEvaluate (WhenJson Demo.Malformed) "ParseError"],
        Ret false)
  /\ (getMatchingTechniques Demo.emptyEnv
        (mkEvaluator [IStyle Demo.malformedWhen noParams None; Demo.lineLeaf]
           ∅ [])).2
     = (getMatchingTechniques Demo.emptyEnv
          (mkEvaluator [Demo.lineLeaf] ∅ [])).2.
Proof.
  assert (when Demo.malformedWhen = Some (WhenJson Demo.Malformed)) as Hw
    by reflexivity.
  assert (whenThrows Demo.emptyEnv (WhenJson Demo.Malformed) noParams
            "ParseError") as Ht by (left; reflexivity).
  pose proof (when_error_skips_rule Demo.emptyEnv [] Demo.malformedWhen
                noParams None (WhenJson Demo.Malformed) "ParseError"
                Demo.freshWalk [Demo.lineLeaf] ∅ [] Hw Ht) as H.
  split; [exact Hw|]. split; [exact Ht|]. split.
  - exact (proj1 H).
  - exact (proj1 (proj2 (proj2 (proj2 (proj2 (proj2 H)))))).
Defined.

Lemma attribute_error_propagates_witness :
  let p0 := set_styleSetIndex 0 noParams in
  let p2 := (checkStyleDynamicAttributes Demo.failingColor p0 []).1 in
  Reaches Demo.emptyEnv [] (styleSet Demo.failingEvaluator)
    (mkWalk (m_techniques Demo.failingEvaluator) [] [])
    [] (IStyle Demo.failingColor p0 None) Demo.freshWalk
  /\ checkWhen Demo.emptyEnv Demo.failingColor p0 Demo.freshWalk
     = (p0, Demo.freshWalk, true)
  /\ technique Demo.failingColor = Some "line"
  /\ "line" <> "none"
  /\ checkStyleDynamicAttributes Demo.failingColor p0 [] = (p2, Ret tt)
  /\ _dynamicTechniques p2 = Some ∅
  /\ _dynamicTechniqueAttributes p2
     = Some ([] ++ ("color", Demo.Failing) :: [])
  /\ evaluate Demo.Failing Demo.emptyEnv = Throw "EvaluationError"
  /\ (getMatchingTechniques Demo.emptyEnv Demo.failingEvaluator).2
     = Throw "EvaluationError".
Proof.
  intros p0 p2.
  assert (Reaches Demo.emptyEnv [] (styleSet Demo.failingEvaluator)
            (mkWalk (m_techniques Demo.failingEvaluator) [] [])
            [] (IStyle Demo.failingColor p0 None) Demo.freshWalk) as Hreach.
  { exact (reaches_here Demo.emptyEnv [] [] (IStyle Demo.failingColor p0 None)
             [] Demo.freshWalk [] Demo.freshWalk eq_refl). }
  assert (checkWhen Demo.emptyEnv Demo.failingColor p0 Demo.freshWalk
          = (p0, Demo.freshWalk, true)) as Hwhen by reflexivity.
  assert (technique Demo.failingColor = Some "line") as Htech by reflexivity.
  assert ("line" <> "none") as Hname by discriminate.
  assert (checkStyleDynamicAttributes Demo.failingColor p0 [] = (p2, Ret tt))
    as Hcheck by (vm_compute; reflexivity).
  assert (_dynamicTechniques p2 = Some ∅) as Hcache
    by (vm_compute; reflexivity).
  assert (_dynamicTechniqueAttributes p2
          = Some ([] ++ ("color", Demo.Failing) :: [])) as Hattrs
    by (vm_compute; reflexivity).
  assert (Forall (fun a : string * Expr =>
                    isThrow (evaluate a.2 Demo.emptyEnv) = false) [])
    as Hpre by constructor.
  assert (evaluate Demo.Failing Demo.emptyEnv = Throw "EvaluationError")
    as Herr by reflexivity.
  repeat (split; [assumption|]).
  exact (attribute_error_propagates Demo.emptyEnv Demo.failingEvaluator []
           Demo.failingColor p0 p0 p2 Demo.freshWalk Demo.freshWalk "line" ∅
           [] [] "color" Demo.Failing "EvaluationError"
           Hreach Hwhen Htech Hname Hcheck Hcache Hattrs Hpre Herr).
Defined.

Lemma final_leaf_short_circuits_witness :
  finalMatch Demo.emptyEnv Demo.finalLeaf = true
  /\ laterRulesIgnored Demo.emptyEnv [] [] Demo.finalLeaf [Demo.lineLeaf]
       Demo.freshWalk
  /\ (getMatchingTechniques Demo.emptyEnv
        (mkEvaluator [Demo.finalLeaf; Demo.lineLeaf] ∅ [])).2
     = (getMatchingTechniques Demo.emptyEnv
          (mkEvaluator [Demo.finalLeaf] ∅ [])).2.
Proof.
  assert (finalMatch Demo.emptyEnv Demo.finalLeaf = true) as Hfinal
    by (vm_compute; reflexivity).
  pose proof (final_leaf_short_circuits Demo.emptyEnv [] [] Demo.finalLeaf
                [Demo.lineLeaf] Demo.freshWalk ∅ [] Hfinal) as H.
  split; [exact Hfinal|]. split; [exact (proj1 H)|].
  exact (proj1 (proj2 (proj2 H) [])).
Defined.

(** C4 as stated fails for a rule that has nested styles: its [final] is
    never looked at.  The rule matches and carries [final: true], and yet
    the leaf that follows it is evaluated. *)
Lemma final_on_group_rule_counterexample :
  matchesFinal Demo.emptyEnv Demo.finalGroupRule = true
  /\ ~ laterRulesIgnored Demo.emptyEnv [] [] Demo.finalGroupRule
         [Demo.lineLeaf] Demo.freshWalk.
Proof.
  split; [vm_compute; reflexivity|].
  intros H. destruct (H []) as (Hst & _).
  apply (f_equal (fun st => length (w_result st))) in Hst.
  vm_compute in Hst. discriminate.
Qed.

(** The techniques [getMatchingTechniques] returns for that style set: the
    one of the nested leaf and the one of the leaf after the rule. *)
Example final_on_group_rule_result :
  (fun t => t !! "name")
  <$> returned []
        (getMatchingTechniques Demo.emptyEnv
           (mkEvaluator [Demo.finalGroupRule; Demo.lineLeaf] ∅ [])).2
  = [Some (PValue (VStr "fill")); Some (PValue (VStr "line"))].
Proof. vm_compute. reflexivity. Qed.

Lemma getMatchingTechniques_idempotent_witness :
  let first := getMatchingTechniques Demo.narrowRoad Demo.dynamicEvaluator in
  let second := getMatchingTechniques Demo.narrowRoad first.1.1 in
  (forall e, evaluate e Demo.narrowRoad = evaluate e Demo.narrowRoad)
  /\ first = (first.1.1, first.1.2, Ret (returned [] first.2))
  /\ second = (first.1.1, first.1.2, Ret (returned [] first.2))
  /\ techniqueIndex <$> returned [] second.2 = [Some 0; Some 1].
Proof.
  intros first second.
  assert (forall e : Expr,
            evaluate e Demo.narrowRoad = evaluate e Demo.narrowRoad) as Heq
    by (intros e; reflexivity).
  assert (first = (first.1.1, first.1.2, Ret (returned [] first.2)))
    as Hfirst.
  { rewrite <- (returned_Ret [] first.2) by (vm_compute; reflexivity).
    by destruct first as [[? ?] ?]. }
  split; [exact Heq|]. split; [exact Hfirst|]. split.
  - exact (proj1 (getMatchingTechniques_idempotent Demo.narrowRoad
                    Demo.narrowRoad Demo.dynamicEvaluator _ _ _ Heq Hfirst)).
  - vm_compute. reflexivity.
Defined.


Lemma leaf_static_value_wins_witness :
  let first := processStyle Demo.emptyEnv [Demo.widthParent]
                 (IStyle Demo.widthLeaf noParams None) Demo.freshWalk in
  technique Demo.widthLeaf = Some "line"
  /\ "line" <> "none"
  /\ unmatched noParams
  /\ whenHolds Demo.emptyEnv Demo.widthLeaf noParams = true
  /\ first = (first.1.1, first.1.2, Ret false)
  /\ staticValue "lineWidth" (styleAttributes Demo.widthLeaf)
     = Some (VNum 2)
  /\ staticValue "lineWidth" (styleAttributes Demo.widthParent)
     = Some (VNum 1)
  /\ declaredStaticOnly "lineWidth"
       (chainAttributes [Demo.widthParent] Demo.widthLeaf)
  /\ "lineWidth" <> "_index" /\ "lineWidth" <> "_styleSetIndex"
  /\ _staticAttributes (params first.1.1)
     = Some ([("lineWidth", VNum 1)] ++ [("lineWidth", VNum 2)])
  /\ exists t, w_result first.1.2 = w_result Demo.freshWalk ++ [t]
               /\ carries "lineWidth" (VNum 2) t.
Proof.
  intros first.
  assert (technique Demo.widthLeaf = Some "line") as Htech by reflexivity.
  assert ("line" <> "none") as Hname by discriminate.
  assert (unmatched noParams) as Hun by (repeat split).
  assert (whenHolds Demo.emptyEnv Demo.widthLeaf noParams = true) as Hwhen
    by reflexivity.
  assert (first = (first.1.1, first.1.2, Ret false)) as Hfirst.
  { assert (first.2 = Ret false) as <- by (vm_compute; reflexivity).
    by destruct first as [[? ?] ?]. }
  assert (staticValue "lineWidth" (styleAttributes Demo.widthLeaf)
          = Some (VNum 2)) as Hval by (vm_compute; reflexivity).
  assert (staticValue "lineWidth" (styleAttributes Demo.widthParent)
          = Some (VNum 1)) as Hparent by (vm_compute; reflexivity).
  assert (declaredStaticOnly "lineWidth"
            (chainAttributes [Demo.widthParent] Demo.widthLeaf)) as Hdecl.
  { repeat constructor; cbn; intros _; by eexists. }
  assert ("lineWidth" <> "_index") as Hi by discriminate.
  assert ("lineWidth" <> "_styleSetIndex") as Hs by discriminate.
  repeat (split; [assumption|]).
  destruct (leaf_static_value_wins (collaborators := Demo.impl)
              Demo.emptyEnv Demo.emptyEnv
              Demo.widthLeaf noParams "line" [Demo.widthParent] []
              Demo.freshWalk first.1.2 Demo.freshWalk first.1.1 false []
              "lineWidth" (VNum 2)
              Htech Hname Hun Hwhen Hfirst Hval Hdecl Hi Hs)
    as (Hstatics & Hcarried & _).
  split; [exact Hstatics|exact Hcarried].
Defined.

(** C10 as stated fails for the attribute name [_index]: the leaf and its
    parent both give it a static value, and the technique carries the
    position in the technique list instead. *)
Lemma leaf_value_overwritten_counterexample :
  ~ leafValueWins Demo.emptyEnv [Demo.indexParent] Demo.indexLeaf noParams
      Demo.freshWalk "_index".
Proof.
  intros Hclaim.
  pose (first := processStyle Demo.emptyEnv [Demo.indexParent]
                   (IStyle Demo.indexLeaf noParams None) Demo.freshWalk).
  assert (first = (first.1.1, first.1.2, Ret false)) as Hfirst.
  { assert (first.2 = Ret false) as <- by (vm_compute; reflexivity).
    by destruct first as [[? ?] ?]. }
  destruct (Hclaim (VNum 7) first.1.1 first.1.2 false) as (t & Hres & Hc).
  - vm_compute; reflexivity.
  - exists Demo.indexParent. split; [apply list_elem_of_here|].
    vm_compute. by eexists.
  - exact Hfirst.
  - assert ((fun t : IndexedTechnique => t !! "_index")
              <$> w_result first.1.2 = [Some (PValue (VNum 0))]) as Hix
      by (vm_compute; reflexivity).
    rewrite Hres in Hix. injection Hix as Hix.
    unfold carries in Hc. rewrite Hc in Hix. discriminate.
Qed.

(** The same happens, for any attribute, when a rule of the chain gives
    the attribute as a technique-scope expression: the evaluated
    expression is assigned after the static values.  Here the leaf says
    blue, its parent red, and the grandparent takes the colour from the
    feature. *)
Example leaf_value_overridden_by_expression :
  (fun t : IndexedTechnique => t !! "color")
  <$> w_result
        (processStyle Demo.narrowRoad
           [Demo.colourGrandparent; Demo.colourParent]
           (IStyle Demo.colourLeaf noParams None) Demo.freshWalk).1.2
  = [Some (PValue (VStr "road"))].
Proof. vm_compute. reflexivity. Qed.

(** ** Further properties on the sample style sets *)

Lemma constructor_keeps_declarations_witness :
  new_StyleSetEvaluator Demo.groupedSet = Some Demo.groupedEvaluator
  /\ declaredPart <$> resolvedRules Demo.groupedEvaluator
     = declaredPart <$> styleSetRules Demo.groupedSet.
Proof.
  assert (new_StyleSetEvaluator Demo.groupedSet = Some Demo.groupedEvaluator)
    as Hnew by (apply default_Some, is_Some_alt; vm_compute; exact I).
  split; [exact Hnew|].
  exact (constructor_keeps_declarations Demo.groupedSet
           Demo.groupedEvaluator Hnew).
Defined.

Lemma styleSetIndex_numbers_leaves_witness :
  new_StyleSetEvaluator Demo.groupedSet = Some Demo.groupedEvaluator
  /\ styleSet Demo.groupedEvaluator ≫= indicesOf
     = numbering (fst <$> styleSetRules Demo.groupedSet) 0
  /\ numbering (fst <$> styleSetRules Demo.groupedSet) 0
     = [(true, Some 0); (true, Some 1); (true, Some 2); (true, Some 3)]%nat.
Proof.
  assert (new_StyleSetEvaluator Demo.groupedSet = Some Demo.groupedEvaluator)
    as Hnew by (apply default_Some, is_Some_alt; vm_compute; exact I).
  split; [exact Hnew|]. split.
  - exact (styleSetIndex_numbers_leaves Demo.groupedSet
             Demo.groupedEvaluator Hnew).
  - vm_compute. reflexivity.
Defined.

Lemma explicit_renderOrder_respected_witness :
  let d := Demo.ruleAt 1 (styleSetRules Demo.explicitSet) in
  new_StyleSetEvaluator Demo.explicitSet = Some Demo.explicitEvaluator
  /\ styleSetRules Demo.explicitSet !! 1%nat = Some d
  /\ renderOrderBiasGroup d.2 = None
  /\ renderOrder d.2 = Some (ofZ 7)
  /\ exists r, resolvedRules Demo.explicitEvaluator !! 1%nat = Some r
               /\ renderOrder r.2 = Some (ofZ 7).
Proof.
  intros d.
  assert (new_StyleSetEvaluator Demo.explicitSet
          = Some Demo.explicitEvaluator) as Hnew
    by (apply default_Some, is_Some_alt; vm_compute; exact I).
  assert (styleSetRules Demo.explicitSet !! 1%nat = Some d) as Hd
    by (vm_compute; reflexivity).
  assert (renderOrderBiasGroup d.2 = None) as Hg by (vm_compute; reflexivity).
  assert (renderOrder d.2 = Some (ofZ 7)) as Hz
    by (vm_compute; reflexivity).
  repeat (split; [assumption|]).
  exact (explicit_renderOrder_respected Demo.explicitSet
           Demo.explicitEvaluator 1 d (ofZ 7) Hnew Hd Hg Hz).
Defined.

Lemma returned_techniques_listed_witness :
  let r := getMatchingTechniques Demo.narrowRoad
             (afterCalls [Demo.river] Demo.dynamicEvaluator) in
  new_StyleSetEvaluator
    [Demo.leafRule Demo.dynamicLine;
     Demo.leafRule (Demo.withTechnique "text" Demo.rule)]
  = Some Demo.dynamicEvaluator
  /\ length (returned [] r.2) = 2%nat
  /\ Forall (fun t => exists i : nat,
               techniques r.1.1 !! i = Some t
               /\ techniqueIndex t = Some (Z.of_nat i))
            (returned [] r.2).
Proof.
  intros r.
  assert (new_StyleSetEvaluator
            [Demo.leafRule Demo.dynamicLine;
             Demo.leafRule (Demo.withTechnique "text" Demo.rule)]
          = Some Demo.dynamicEvaluator) as Hnew
    by (apply default_Some, is_Some_alt; vm_compute; exact I).
  split; [exact Hnew|]. split; [vm_compute; reflexivity|].
  exact (returned_techniques_listed _ Demo.dynamicEvaluator [Demo.river]
           Demo.narrowRoad Hnew).
Defined.

Lemma decodedTechniques_aligned_witness :
  let ev := afterCalls [Demo.narrowRoad; Demo.river] Demo.dynamicEvaluator in
  new_StyleSetEvaluator
    [Demo.leafRule Demo.dynamicLine;
     Demo.leafRule (Demo.withTechnique "text" Demo.rule)]
  = Some Demo.dynamicEvaluator
  /\ length (decodedTechniques ev) = 3%nat
  /\ length (decodedTechniques ev) = length (techniques ev).
Proof.
  intros ev.
  assert (new_StyleSetEvaluator
            [Demo.leafRule Demo.dynamicLine;
             Demo.leafRule (Demo.withTechnique "text" Demo.rule)]
          = Some Demo.dynamicEvaluator) as Hnew
    by (apply default_Some, is_Some_alt; vm_compute; exact I).
  split; [exact Hnew|]. split; [vm_compute; reflexivity|].
  exact (proj1 (decodedTechniques_aligned _ Demo.dynamicEvaluator
                  [Demo.narrowRoad; Demo.river] Hnew)).
Defined.

Lemma parse_error_reported_once_witness :
  let s := Demo.malformedColor in
  let p0 := set_styleSetIndex 0 noParams in
  let first := processStyle Demo.emptyEnv [] (IStyle s p0 None)
                 Demo.freshWalk in
  let second := processStyle Demo.emptyEnv [] first.1.1 Demo.freshWalk in
  let third := processStyle Demo.emptyEnv [] second.1.1
                 (mkWalk (w_techniques second.1.2) [] []) in
  let t := buildTechnique s (params first.1.1) [] 0 in
  unmatched p0
  /\ technique s = Some "line"
  /\ isNone_technique (technique s) = false
  /\ whenHolds Demo.emptyEnv s p0 = true
  /\ (processAttributes (technique s) (chainAttributes [] s) noLists).2
     = Throw "ParseError"
  /\ first.2 = Throw "ParseError"
  /\ first.1.2 = Demo.freshWalk
  /\ _staticAttributes (params first.1.1) = Some [("lineWidth", VNum 2)]
  /\ second.2 = Ret false
  /\ w_result second.1.2 = [t]
  /\ w_techniques second.1.2 = [t]
  /\ third.2 = Ret false
  /\ w_result third.1.2 = [t]
  /\ w_techniques third.1.2 = [t]
  /\ (t !! "lineWidth", t !! "color", t !! "opacity")
     = (Some (PValue (VNum 2)), None, None).
Proof.
  intros s p0 first second third t.
  assert (unmatched p0) as H1 by (repeat split; reflexivity).
  assert (technique s = Some "line") as H2 by reflexivity.
  assert (isNone_technique (technique s) = false) as H3
    by (vm_compute; reflexivity).
  assert (whenHolds Demo.emptyEnv s p0 = true) as H4
    by (vm_compute; reflexivity).
  assert ((processAttributes (technique s) (chainAttributes [] s) noLists).2
          = Throw "ParseError") as H5 by (vm_compute; reflexivity).
  repeat (split; [assumption|]).
  destruct (parse_error_reported_once (collaborators := Demo.impl)
              Demo.emptyEnv [] s p0 Demo.freshWalk "line" "ParseError"
              H1 H2 H3 H4 H5) as (Hthrow & Hstate & Hnone & _ & Hlater).
  split; [exact Hthrow|]. split; [exact Hstate|].
  split; [vm_compute; reflexivity|].
  destruct (Hlater [] Demo.emptyEnv [] Demo.freshWalk)
    as (_ & _ & Hsecond & _).
  destruct (Hsecond ltac:(vm_compute; reflexivity)) as [Hret2 Hmade].
  destruct (createdOrReused_None _ _ _ _ _ Hnone Hmade)
    as (Hres2 & Hts2 & Hst2).
  split; [exact Hret2|]. split; [exact Hres2|]. split; [exact Hts2|].
  destruct (Hlater [(Demo.emptyEnv, [], Demo.freshWalk)] Demo.emptyEnv []
              (mkWalk (w_techniques second.1.2) [] []))
    as (_ & _ & Hthird & _).
  destruct (Hthird ltac:(vm_compute; reflexivity)) as [Hret3 Hused].
  destruct (createdOrReused_Some _ _ _ _ _ _ Hst2 Hused)
    as (Hres3 & Hts3 & _).
  split; [exact Hret3|]. split; [exact Hres3|].
  split; [exact (eq_trans Hts3 Hts2)|].
  vm_compute. reflexivity.
Defined.

Lemma biasGroup_block_reserved_witness :
  let declared := styleSetRules Demo.groupedSet in
  Forall (fun r => wellFormedRange r = true) declared
  /\ counterBudget declared < 2 ^ 53
  /\ new_StyleSetEvaluator Demo.groupedSet = Some Demo.groupedEvaluator
  /\ "roads" <> ""
  /\ firstInGroup "roads" declared = Some (Demo.ruleAt 1 declared)
  /\ integerRange (Demo.ruleAt 1 declared) = Some (0, 1)
  /\ countedOrders declared initialCtor
     = [Some (ofZ 0); None; None; Some (ofZ 3)]
  /\ exists n,
       m_renderOrderBiasGroups Demo.groupedEvaluator !! "roads"
       = Some (ofZ n)
       /\ 0 <= n + 0
       /\ forall i x,
            countedOrders declared initialCtor !! i = Some (Some x) ->
            (exists r, resolvedRules Demo.groupedEvaluator !! i = Some r
                       /\ renderOrder r.2 = Some x)
            /\ outsideBlock n 0 1 x.
Proof.
  intros declared.
  assert (Forall (fun r => wellFormedRange r = true) declared) as Hwf
    by (repeat constructor).
  assert (counterBudget declared < 2 ^ 53) as Hbudget
    by (vm_compute; reflexivity).
  assert (new_StyleSetEvaluator Demo.groupedSet = Some Demo.groupedEvaluator)
    as Hnew by (apply default_Some, is_Some_alt; vm_compute; exact I).
  assert ("roads" <> "") as Hg by discriminate.
  assert (firstInGroup "roads" declared = Some (Demo.ruleAt 1 declared))
    as Hfirst by (vm_compute; reflexivity).
  assert (integerRange (Demo.ruleAt 1 declared) = Some (0, 1))
    as Hrange by (vm_compute; reflexivity).
  repeat (split; [assumption|]).
  split; [vm_compute; reflexivity|].
  exact (biasGroup_block_reserved Demo.groupedSet Demo.groupedEvaluator
           "roads" _ 0 1 Hwf Hbudget Hnew Hg Hfirst Hrange).
Defined.

(** A leaf of a group that takes its order from the counter: the first
    rule of ["roads"] has no range, so it is numbered at the leaf branch
    (0), before the second rule records the group (with the order 1 and
    the block 1 .. 2). *)
Example rangeless_leaf_counted :
  countedOrders (styleSetRules Demo.rangelessFirstSet) initialCtor
  = [Some (ofZ 0); None]
  /\ autoAssigned (styleSetRules Demo.rangelessFirstSet)
       (resolvedRules Demo.rangelessFirstEvaluator) = [].
Proof. split; vm_compute; reflexivity. Qed.

Lemma featureAttr_evaluated_per_feature_witness :
  let t := (createTechnique Demo.dynamicLine Demo.partitionedLine
              [("color", Some (VStr "road"))] []).1 in
  "lineWidth" <> "_index"
  /\ "lineWidth" <> "_styleSetIndex"
  /\ assigned "lineWidth"
       (default [] (_dynamicFeatureAttributes Demo.partitionedLine))
     = Some (DynExpr (Demo.Get "width"))
  /\ ("lineWidth"
      ∉ (default [] (_dynamicForwaredAttributes Demo.partitionedLine)).*1)
  /\ evaluateFeatureAttr Demo.noLevels (getProperty t "lineWidth")
       (createFeatureEnv Demo.wideRoad 14) None
     = Ret (Some (VNum 5)).
Proof.
  intros t.
  assert ("lineWidth" <> "_index") as H1 by discriminate.
  assert ("lineWidth" <> "_styleSetIndex") as H2 by discriminate.
  assert (assigned "lineWidth"
            (default [] (_dynamicFeatureAttributes Demo.partitionedLine))
          = Some (DynExpr (Demo.Get "width"))) as H3
    by (vm_compute; reflexivity).
  assert ("lineWidth"
          ∉ (default [] (_dynamicForwaredAttributes
                           Demo.partitionedLine)).*1) as H4.
  { assert ((default [] (_dynamicForwaredAttributes
                           Demo.partitionedLine)).*1 = []) as ->
      by (vm_compute; reflexivity).
    apply not_elem_of_nil. }
  repeat (split; [assumption|]).
  destruct (featureAttr_evaluated_per_feature (collaborators := Demo.impl)
              Demo.noLevels Demo.dynamicLine Demo.partitionedLine
              [("color", Some (VStr "road"))] [] "lineWidth"
              (Demo.Get "width")
              (createFeatureEnv (collaborators := Demo.impl) Demo.wideRoad 14)
              H1 H2 H3 H4) as [_ Heval].
  etrans; [exact Heval|]. vm_compute. reflexivity.
Defined.

Lemma without_final_every_rule_visited_witness :
  let x := default Demo.lineLeaf (head (styleSet Demo.dynamicEvaluator)) in
  noFinal (styleSet Demo.dynamicEvaluator) = true
  /\ isThrow (getMatchingTechniques Demo.narrowRoad
                Demo.dynamicEvaluator).2 = false
  /\ styleSet Demo.dynamicEvaluator
     = [] ++ x :: tail (styleSet Demo.dynamicEvaluator)
  /\ exists st,
       Reaches Demo.narrowRoad [] (styleSet Demo.dynamicEvaluator)
         (mkWalk (m_techniques Demo.dynamicEvaluator) [] []) [] x st.
Proof.
  intros x.
  assert (noFinal (styleSet Demo.dynamicEvaluator) = true) as H1
    by (vm_compute; reflexivity).
  assert (isThrow (getMatchingTechniques Demo.narrowRoad
                     Demo.dynamicEvaluator).2 = false) as H2
    by (vm_compute; reflexivity).
  assert (styleSet Demo.dynamicEvaluator
          = [] ++ x :: tail (styleSet Demo.dynamicEvaluator)) as H3
    by (apply head_tail, is_Some_alt; vm_compute; exact I).
  repeat (split; [assumption|]).
  exact (without_final_every_rule_visited Demo.narrowRoad
           Demo.dynamicEvaluator [] _ x H1 H2 H3).
Defined.

Lemma leaf_without_technique_yields_nothing_witness :
  let r := processStyle Demo.emptyEnv [] (IStyle Demo.noneRule noParams None)
             Demo.freshWalk in
  (forall name, technique Demo.noneRule = Some name -> name = "none")
  /\ w_result r.1.2 = []
  /\ w_techniques r.1.2 = []
  /\ r.2 = Ret true.
Proof.
  intros r.
  assert (forall name, technique Demo.noneRule = Some name -> name = "none")
    as H1 by (intros name [= <-]; reflexivity).
  split; [exact H1|].
  destruct (leaf_without_technique_yields_nothing (collaborators := Demo.impl)
              Demo.emptyEnv [] Demo.noneRule noParams Demo.freshWalk H1)
    as (Hres & Htech & _ & _ & Hout).
  split; [exact Hres|]. split; [exact Htech|]. exact Hout.
Defined.

Lemma techniques_cached_once_witness :
  let ev := afterCalls [Demo.narrowRoad; Demo.river; Demo.wideRoad]
              Demo.dynamicEvaluator in
  new_StyleSetEvaluator
    [Demo.leafRule Demo.dynamicLine;
     Demo.leafRule (Demo.withTechnique "text" Demo.rule)]
  = Some Demo.dynamicEvaluator
  /\ length (styleSet ev ≫= allCached) = 3%nat
  /\ NoDup (techniqueIndex <$> (styleSet ev ≫= allCached)).
Proof.
  intros ev.
  assert (new_StyleSetEvaluator
            [Demo.leafRule Demo.dynamicLine;
             Demo.leafRule (Demo.withTechnique "text" Demo.rule)]
          = Some Demo.dynamicEvaluator) as Hnew
    by (apply default_Some, is_Some_alt; vm_compute; exact I).
  split; [exact Hnew|]. split; [vm_compute; reflexivity|].
  exact (proj2 (techniques_cached_once _ Demo.dynamicEvaluator
                  [Demo.narrowRoad; Demo.river; Demo.wideRoad] Hnew)).
Defined.

Lemma unsupported_attribute_dropped_witness :
  let p0 := set_styleSetIndex 0 noParams in
  let p1 := (checkStyleDynamicAttributes Demo.unsupportedOpacity p0 []).1 in
  unmatched p0
  /\ isNone_technique (technique Demo.unsupportedOpacity) = false
  /\ checkStyleDynamicAttributes Demo.unsupportedOpacity p0 []
     = (p1, Ret tt)
  /\ Forall (fun d => d.1 = "opacity" ->
                      unsupported (technique Demo.unsupportedOpacity) d
                      = true)
            (chainAttributes [] Demo.unsupportedOpacity)
  /\ chainAttributes [] Demo.unsupportedOpacity
     = [("opacity", AttrJsonExpr (Demo.Get "kind"))]
  /\ evaluateTechniqueProperties p1 Demo.narrowRoad = Ret []
  /\ (createTechnique Demo.unsupportedOpacity p1 [] []).1 !! "opacity"
     = None.
Proof.
  intros p0 p1.
  assert (unmatched p0) as H1 by (repeat split; reflexivity).
  assert (isNone_technique (technique Demo.unsupportedOpacity) = false) as H2
    by (vm_compute; reflexivity).
  assert (checkStyleDynamicAttributes Demo.unsupportedOpacity p0 []
          = (p1, Ret tt)) as H3
    by (apply pair_eta_snd; vm_compute; reflexivity).
  assert (Forall (fun d => d.1 = "opacity" ->
                           unsupported (technique Demo.unsupportedOpacity) d
                           = true)
                 (chainAttributes [] Demo.unsupportedOpacity)) as H4.
  { repeat constructor. }
  assert (chainAttributes [] Demo.unsupportedOpacity
          = [("opacity", AttrJsonExpr (Demo.Get "kind"))]) as H4'
    by (vm_compute; reflexivity).
  assert ("opacity" <> "name") as H5 by discriminate.
  assert ("opacity" <> "_index") as H6 by discriminate.
  assert ("opacity" <> "_styleSetIndex") as H7 by discriminate.
  assert (evaluateTechniqueProperties p1 Demo.narrowRoad = Ret []) as H8
    by (vm_compute; reflexivity).
  repeat (split; [assumption|]).
  exact (unsupported_attribute_dropped Demo.narrowRoad
           Demo.unsupportedOpacity p0 p1 [] "opacity" [] [] H1 H2 H3 H4
           H5 H6 H7 H8).
Defined.

End Witnesses.
